(** * Schema-driven document generation: SchemaContext and XMLGenerator

    A shallow embedding of [lib/schema.js] (class [SchemaContext]) and
    [lib/generator.js] (class [XMLGenerator]), and of the loops of
    [index.js] that complete the namespace map, declare the namespaces on
    the document and put the fields of an element in sequence order.

    Modelling conventions.
    - A JavaScript value is a [JVal].  A plain object is an association list
      in insertion order: writing an existing key keeps its position, writing
      a new key appends it.  Keys are XML names, namespace URIs and
      configuration paths; canonical array-index keys (which JavaScript
      enumerates first) and properties inherited from [Object.prototype] are
      not modelled.
    - Strings and arrays have only index keys, which none of the key searches
      of this code matches, so they are read as values without properties.
    - The parser is configured with [ignoreAttributes: false] and leaves
      attribute values unparsed: what sits under an ["@_..."] key is a string.
      [attr] reads such a key; anything else found there is read as absent.
    - [console.log] output and the [filterPath] argument (threaded through
      every call and never read) are left out.
    - Recursion that JavaScript does not bound is bounded by a [fuel]
      argument; [None] is "fuel exhausted", never a result of the program.
      A run that is [None] whatever the fuel is a recursion without bound:
      JavaScript ends it by raising a [RangeError] (call stack used up).
      The only error the code raises by a [throw] of its own is [Throws]. *)

From Stdlib Require Import ZArith Ascii DecimalString DecimalNat.
From stdpp Require Import base option list gmap strings.

Set Warnings "-register-all,-clear-no-such-hyp".

(** ** JavaScript values, strings and plain objects *)

Module JS.

Inductive JVal : Type :=
| JUndef
| JNull
| JBool (b : bool)
| JNum (z : Z)
| JStr (s : string)
| JArr (l : list JVal)
| JObj (o : list (string * JVal)).

Definition Obj : Type := list (string * JVal).

(** [ToBoolean]. *)
Definition truthy (v : JVal) : bool :=
  match v with
  | JUndef | JNull => false
  | JBool b => b
  | JNum z => negb (Z.eqb z 0)
  | JStr s => negb (String.eqb s "")
  | JArr _ | JObj _ => true
  end.

Definition is_undefined (v : JVal) : bool :=
  match v with JUndef => true | _ => false end.

Definition is_null (v : JVal) : bool :=
  match v with JNull => true | _ => false end.

(** [s.startsWith(p)], [s.endsWith(p)], [s.includes(p)], [s.substring(n)]. *)
Definition startsWith (s p : string) : bool := String.prefix p s.

Fixpoint drop_chars (n : nat) (s : string) {struct n} : string :=
  match n, s with
  | O, _ => s
  | S _, EmptyString => EmptyString
  | S n', String _ s' => drop_chars n' s'
  end.

Definition endsWith (s p : string) : bool :=
  (String.length p <=? String.length s)%nat
  && String.eqb (drop_chars (String.length s - String.length p) s) p.

Fixpoint includes (s p : string) : bool :=
  String.prefix p s
  || match s with
     | EmptyString => false
     | String _ s' => includes s' p
     end.

(** [s.split(c)] for a one-character separator. *)
Fixpoint split_on (c : ascii) (s : string) : list string :=
  match s with
  | EmptyString => [EmptyString]
  | String a s' =>
      if Ascii.eqb a c then EmptyString :: split_on c s'
      else match split_on c s' with
           | [] => [String a EmptyString]
           | p :: ps => String a p :: ps
           end
  end.

Definition colon : ascii := ":"%char.

(** [s.split(':')[i]]; [None] is [undefined]. *)
Definition part (i : nat) (s : string) : option string := split_on colon s !! i.

(** Decimal rendering of a loop index inside a template literal. *)
Definition nat_to_string (n : nat) : string :=
  NilEmpty.string_of_uint (Nat.to_uint n).

(** [parseInt(s)] in radix 10 with the [0x] prefix rule; [None] is [NaN].
    Leading ASCII white space is skipped. *)
Definition is_space (a : ascii) : bool :=
  let n := nat_of_ascii a in
  (n =? 32)%nat || ((9 <=? n)%nat && (n <=? 13)%nat).

Fixpoint skip_spaces (s : string) : string :=
  match s with
  | String a s' => if is_space a then skip_spaces s' else s
  | EmptyString => s
  end.

Definition digit_value (radix : Z) (a : ascii) : option Z :=
  let n := Z.of_nat (nat_of_ascii a) in
  let d := if (48 <=? n)%Z && (n <=? 57)%Z then Some (n - 48)%Z
           else if (97 <=? n)%Z && (n <=? 122)%Z then Some (n - 87)%Z
           else if (65 <=? n)%Z && (n <=? 90)%Z then Some (n - 55)%Z
           else None in
  match d with
  | Some v => if (v <? radix)%Z then Some v else None
  | None => None
  end.

Fixpoint digits_value (radix : Z) (s : string) (acc : option Z) : option Z :=
  match s with
  | EmptyString => acc
  | String a s' =>
      match digit_value radix a with
      | Some d =>
          digits_value radix s'
            (Some (match acc with Some v => v * radix + d | None => d end)%Z)
      | None => acc
      end
  end.

Definition parseInt (o : option string) : option Z :=
  match o with
  | None => None
  | Some s0 =>
      let s := skip_spaces s0 in
      let '(neg, s1) :=
        match s with
        | String "-"%char r => (true, r)
        | String "+"%char r => (false, r)
        | _ => (false, s)
        end in
      let '(radix, s2) :=
        match s1 with
        | String "0"%char (String "x"%char r) => (16%Z, r)
        | String "0"%char (String "X"%char r) => (16%Z, r)
        | _ => (10%Z, s1)
        end in
      match digits_value radix s2 None with
      | Some v => Some (if neg then (- v)%Z else v)
      | None => None
      end
  end.

(** Own-property access on a plain object. *)
Fixpoint obj_get (k : string) (o : Obj) : option JVal :=
  match o with
  | [] => None
  | (k', v) :: o' => if String.eqb k k' then Some v else obj_get k o'
  end.

(** [o[k] = v]. *)
Fixpoint obj_set (k : string) (v : JVal) (o : Obj) : Obj :=
  match o with
  | [] => [(k, v)]
  | (k', v') :: o' =>
      if String.eqb k k' then (k, v) :: o' else (k', v') :: obj_set k v o'
  end.

(** [Object.keys(v)]. *)
Definition keys (v : JVal) : list string :=
  match v with
  | JObj o => map fst o
  | _ => []
  end.

(** [Object.values(v)]. *)
Definition values (v : JVal) : list JVal :=
  match v with
  | JObj o => map snd o
  | _ => []
  end.

(** [v[k]]; a missing property reads [undefined]. *)
Definition prop (v : JVal) (k : string) : JVal :=
  match v with
  | JObj o => default JUndef (obj_get k o)
  | _ => JUndef
  end.

(** The own enumerable properties copied by [{ ...v }]. *)
Definition spread (v : JVal) : Obj :=
  match v with
  | JObj o => o
  | _ => []
  end.

(** [Object.assign(target, src)]. *)
Definition obj_assign (target src : Obj) : Obj :=
  fold_left (fun t kv => obj_set kv.1 kv.2 t) src target.

(** An attribute value: a string, or absent. *)
Definition attr (v : JVal) (k : string) : option string :=
  match prop v k with
  | JStr s => Some s
  | _ => None
  end.

(** Truthiness of a value that is a string or [undefined]/[null]. *)
Definition truthyS (o : option string) : bool :=
  match o with
  | Some s => negb (String.eqb s "")
  | None => false
  end.

(** A string or [undefined] put back among the values. *)
Definition of_attr (o : option string) : JVal :=
  match o with
  | Some s => JStr s
  | None => JUndef
  end.

(** [String(x)] for a string or [undefined], as a property key. *)
Definition key_of (o : option string) : string :=
  match o with
  | Some s => s
  | None => "undefined"
  end.

(** Position of a key in the insertion order of an object. *)
Fixpoint key_index (k : string) (o : Obj) : option nat :=
  match o with
  | [] => None
  | (k', _) :: o' =>
      if String.eqb k k' then Some 0%nat else S <$> key_index k o'
  end.

(** A string-to-string table supplied by the caller. *)
Definition StrMap : Type := list (string * string).

Fixpoint str_get (k : string) (m : StrMap) : option string :=
  match m with
  | [] => None
  | (k', v) :: m' => if String.eqb k k' then Some v else str_get k m'
  end.

(** Threading a partial step through [forEach]. *)
Definition foldM {A B : Type} (f : A -> B -> option A) : list B -> A -> option A :=
  fix go (l : list B) (a : A) : option A :=
    match l with
    | [] => Some a
    | b :: l' => match f a b with
                 | Some a' => go l' a'
                 | None => None
                 end
    end.

End JS.

Import JS.

(** ** [lib/schema.js]: the schema index *)

Module SchemaContext.

(** The fields of a [SchemaContext] instance; [basePath] is part of
    [resolve] below. *)
Record t : Type := mk {
  schemas : Obj;
  elements : Obj;
  types : Obj;
  groups : Obj;
  processedFiles : gset string
}.

Definition empty : t := mk [] [] [] [] ∅.

(** The key search shared by every lookup of a schema construct:
    [k.endsWith(':' + suffix) || k === suffix]. *)
Definition tagged (suffix k : string) : bool :=
  endsWith k (":" +:+ suffix) || String.eqb k suffix.

Definition ensureArray (root : JVal) (keySuffix : string) : list JVal :=
  match find (tagged keySuffix) (keys root) with
  | None => []
  | Some m =>
      match prop root m with
      | JArr l => l
      | val => [val]
      end
  end.

(** The [key] each of the four indexing loops of [loadSchema] computes:
    [targetNamespace ? `{${targetNamespace}}${name}` : name]. *)
Definition entityKey (targetNamespace : option string) (name : string) : string :=
  if truthyS targetNamespace
  then "{" +:+ key_of targetNamespace +:+ "}" +:+ name
  else name.

(** One iteration of an indexing loop of [loadSchema]; [table] is
    [this.elements], [this.types] or [this.groups]. *)
Definition indexEntity (targetNamespace : option string) (schemaRoot : JVal)
    (table : Obj) (el : JVal) : Obj :=
  let name := attr el "@_name" in
  if truthyS name then
    let n := key_of name in
    let key := entityKey targetNamespace n in
    let table1 := obj_set key (JObj (obj_set "_schema" schemaRoot (spread el))) table in
    if negb (truthy (prop (JObj table1) n))
    then obj_set n (prop (JObj table1) key) table1
    else table1
  else table.

Definition indexAll (targetNamespace : option string) (schemaRoot : JVal)
    (items : list JVal) (table : Obj) : Obj :=
  fold_left (indexEntity targetNamespace schemaRoot) items table.

(** The indexing half of [loadSchema], after the imports were followed. *)
Definition indexSchema (schemaRoot : JVal) (ctx : t) : t :=
  let targetNamespace := attr schemaRoot "@_targetNamespace" in
  let idx := indexAll targetNamespace schemaRoot in
  mk (schemas ctx)
     (idx (ensureArray schemaRoot "element") (elements ctx))
     (idx (ensureArray schemaRoot "simpleType")
        (idx (ensureArray schemaRoot "complexType") (types ctx)))
     (idx (ensureArray schemaRoot "group") (groups ctx))
     (processedFiles ctx).

Section Loading.

(** The environment of [loadSchema]:
    [resolve f] is [path.resolve(this.basePath, f)];
    [nextPath f loc] is [path.join(path.dirname(f), loc)];
    [readSchema p] is [None] when [fs.existsSync(p)] is false and
    otherwise the parsed content of the file. *)
Variable resolve : string -> string.
Variable nextPath : string -> string -> string.
Variable readSchema : string -> option JVal.

Fixpoint loadSchema (fuel : nat) (ctx : t) (filePath : string) : option t :=
  match fuel with
  | O => None
  | S fuel' =>
      let fullPath := resolve filePath in
      if decide (fullPath ∈ processedFiles ctx) then Some ctx
      else
        match readSchema fullPath with
        | None => Some ctx
        | Some json =>
            match find (tagged "schema") (keys json) with
            | None => Some ctx
            | Some schemaKey =>
                let schemaRoot := prop json schemaKey in
                let targetNamespace := attr schemaRoot "@_targetNamespace" in
                let ctx1 :=
                  mk (obj_set (key_of targetNamespace) schemaRoot (schemas ctx))
                     (elements ctx) (types ctx) (groups ctx)
                     ({[ fullPath ]} ∪ processedFiles ctx) in
                let refs := ensureArray schemaRoot "import"
                            ++ ensureArray schemaRoot "include" in
                match
                  foldM (fun c ref =>
                           let location := attr ref "@_schemaLocation" in
                           if truthyS location
                           then loadSchema fuel' c (nextPath filePath (key_of location))
                           else Some c)
                        refs ctx1
                with
                | None => None
                | Some ctx2 => Some (indexSchema schemaRoot ctx2)
                end
            end
        end
  end.

End Loading.

(** The inner loop of [getNamespaces], over the keys [ks] of one root. *)
Definition collectRoot (schemaRoot : JVal) (ks : list string) (namespaces : Obj) : Obj :=
  fold_left
    (fun ns key =>
       if startsWith key "@_xmlns:"
       then obj_set (drop_chars 8 key) (prop schemaRoot key) ns
       else ns)
    ks namespaces.

Definition getNamespaces (ctx : t) : Obj :=
  fold_left
    (fun namespaces schemaRoot =>
       if negb (truthy schemaRoot) then namespaces
       else collectRoot schemaRoot (keys schemaRoot) namespaces)
    (values (JObj (schemas ctx))) [].

(** The body shared by [getElement] and [getGroup]. *)
Definition lookupByName (table : Obj) (name : option string) : JVal :=
  if negb (truthyS name) then JNull
  else
    let n := key_of name in
    if truthy (prop (JObj table) n) then prop (JObj table) n
    else
      let localName := if includes n ":" then key_of (part 1 n) else n in
      match find (fun k => endsWith k ("}" +:+ localName) || String.eqb k localName)
                 (keys (JObj table)) with
      | Some key => if truthyS (Some key) then prop (JObj table) key else JNull
      | None => JNull
      end.

Definition getElement (ctx : t) (name : option string) : JVal :=
  lookupByName (elements ctx) name.

Definition getGroup (ctx : t) (name : option string) : JVal :=
  lookupByName (groups ctx) name.

Definition builtInType (name : string) : JVal :=
  JObj [("isSimple", JBool true); ("builtIn", JBool true); ("name", JStr name)].

Definition findType (ctx : t) (name : option string) (currentSchema : JVal) : JVal :=
  if negb (truthyS name) then JNull
  else
    let n := key_of name in
    if startsWith n "xs:" || startsWith n "xsd:" then builtInType n
    else
      let '(localName, namespace) :=
        if includes n ":" then
          let prefix := key_of (part 0 n) in
          (key_of (part 1 n),
           if truthy currentSchema then
             match find (String.eqb ("@_xmlns:" +:+ prefix)) (keys currentSchema) with
             | Some xmlnsKey => attr currentSchema xmlnsKey
             | None => None
             end
           else None)
        else (n, None) in
      let key := if truthyS namespace
                 then "{" +:+ key_of namespace +:+ "}" +:+ localName
                 else localName in
      if truthy (prop (JObj (types ctx)) key) then prop (JObj (types ctx)) key
      else
        prop (JObj (types ctx))
          (key_of (find (fun k => endsWith k ("}" +:+ localName) || String.eqb k localName)
                        (keys (JObj (types ctx))))).

End SchemaContext.

(** ** [lib/generator.js]: the tree generator *)

Module XMLGenerator.

(** The fields of an [XMLGenerator] instance. *)
Record t : Type := mk {
  ctx : SchemaContext.t;
  config : Obj;
  nsMap : StrMap;
  substitutions : StrMap
}.

(** How a call of [generate] ends. *)
Inductive completion : Type :=
| Returns (v : JVal)
| Throws (message : string).

(** [prefix ? `${prefix}:${name}` : name]. *)
Definition qualify (prefix : option string) (name : string) : string :=
  if truthyS prefix then key_of prefix +:+ ":" +:+ name else name.

(** [def['@_targetNamespace'] ||
     (def._schema ? def._schema['@_targetNamespace'] : null)]. *)
Definition namespaceOf (def : JVal) : option string :=
  let own := attr def "@_targetNamespace" in
  if truthyS own then own
  else if truthy (prop def "_schema")
       then attr (prop def "_schema") "@_targetNamespace"
       else None.

Definition isMandatory (el : JVal) : bool :=
  truthyS (attr el "@_minOccurs")
  && negb (String.eqb (key_of (attr el "@_minOccurs")) "0").

(** [maxOccurs === 'unbounded' || parseInt(maxOccurs) > 1]. *)
Definition isArray (el : JVal) : bool :=
  let maxOccurs := attr el "@_maxOccurs" in
  match maxOccurs with
  | Some s => String.eqb s "unbounded"
  | None => false
  end
  || match parseInt maxOccurs with
     | Some z => (1 <? z)%Z
     | None => false
     end.

Section Methods.

Variable this : t.

Definition getPrefix (ns : option string) : option string :=
  if negb (truthyS ns) then None
  else
    let p := str_get (key_of ns) (nsMap this) in
    if truthyS p then p else None.

Definition getValueFromConfig (path : string) : JVal :=
  prop (JObj (config this)) path.

Definition hasConfigPrefix (prefix : string) : bool :=
  existsb (fun k => startsWith k prefix) (keys (JObj (config this))).

(** [val !== undefined ? val : null], the three leaf exits of
    [processElement]. *)
Definition leafValue (currentPath : string) : JVal :=
  let val := getValueFromConfig currentPath in
  if is_undefined val then JNull else val.

(** One iteration of the loop of [processAttributes]. *)
Definition processAttribute (currentPath : string) (resultObj : Obj)
    (a : JVal) : Obj :=
  let name := attr a "@_name" in
  if negb (truthyS name) then resultObj
  else
    let fixed := attr a "@_fixed" in
    if truthyS fixed
    then obj_set ("@_" +:+ key_of name) (of_attr fixed) resultObj
    else
      let val := getValueFromConfig (currentPath +:+ "/@" +:+ key_of name) in
      if negb (is_undefined val)
      then obj_set ("@_" +:+ key_of name) val resultObj
      else resultObj.

Definition processAttributes (parentDef : JVal) (currentPath : string)
    (resultObj : Obj) : Obj :=
  fold_left (processAttribute currentPath)
    (SchemaContext.ensureArray parentDef "attribute") resultObj.

(** The type an element declaration is dispatched on in [processElement]. *)
Definition typeOfElement (elementDef : JVal) : JVal :=
  let typeName := attr elementDef "@_type" in
  if truthyS typeName
  then SchemaContext.findType (ctx this) typeName (prop elementDef "_schema")
  else
    let ks := keys elementDef in
    match find (SchemaContext.tagged "complexType") ks with
    | Some ctKey =>
        JObj (obj_set "_schema" (prop elementDef "_schema")
                (spread (prop elementDef ctKey)))
    | None =>
        match find (SchemaContext.tagged "simpleType") ks with
        | Some stKey =>
            JObj (obj_set "_schema" (prop elementDef "_schema")
                    (spread (prop elementDef stKey)))
        | None => JNull
        end
    end.

(** The test that sends a resolved type to the leaf exit. *)
Definition isLeafType (typeDef : JVal) : bool :=
  negb (truthy typeDef)
  || truthy (prop typeDef "builtIn")
  || (negb (truthy (prop typeDef "complexContent"))
      && existsb (fun k => includes k "restriction" || includes k "union"
                           || includes k "list")
                 (keys typeDef)).

(** The [ref] of a child of a content model after the substitution
    table was applied. *)
Definition refOf (el : JVal) : option string :=
  let ref := attr el "@_ref" in
  if truthyS ref && truthyS (str_get (key_of ref) (substitutions this))
  then str_get (key_of ref) (substitutions this)
  else ref.

(** The declaration and name a child of a content model stands for: the
    [ref] lookup with its local-name retry, and the schema context handed
    down to inline declarations.  [None] is the early [return] of the loop
    body. *)
Definition resolveChild (parentDef el : JVal) : option (JVal * string) :=
  let name := attr el "@_name" in
  let ref := refOf el in
  let resolved :=
    if truthyS ref then
      let d := SchemaContext.getElement (ctx this) ref in
      let d' := if negb (truthy d) && includes (key_of ref) ":"
                then SchemaContext.getElement (ctx this) (part 1 (key_of ref))
                else d in
      if negb (truthy d') then None else Some (d', attr d' "@_name")
    else Some (el, name) in
  match resolved with
  | None => None
  | Some (elementDef, elName) =>
      if negb (truthyS elName) then None
      else
        let elementDef' :=
          if negb (truthy (prop elementDef "_schema"))
             && truthy (prop parentDef "_schema")
          then JObj (obj_set "_schema" (prop parentDef "_schema") (spread elementDef))
          else elementDef in
        Some (elementDef', key_of elName)
  end.

(** The output key of a child: the resolved declaration's own name under
    the prefix of its own namespace. *)
Definition childKey (elementDef : JVal) (elName : string) : string :=
  qualify (getPrefix (namespaceOf elementDef)) elName.

Definition indexedPath (currentPath elName : string) (idx : nat) : string :=
  currentPath +:+ "/" +:+ elName +:+ "[" +:+ nat_to_string idx +:+ "]".

Definition singletonPath (currentPath elName : string) : string :=
  currentPath +:+ "/" +:+ elName.

(** Whether the first round of the array loop takes the path without
    index. *)
Definition isSingleton (currentPath elName : string) (idx : nat) : bool :=
  (idx =? 0)%nat
  && negb (hasConfigPrefix (indexedPath currentPath elName idx))
  && hasConfigPrefix (singletonPath currentPath elName).

Definition itemPath (currentPath elName : string) (idx : nat) : string :=
  if isSingleton currentPath elName idx
  then singletonPath currentPath elName
  else indexedPath currentPath elName idx.

(** The [while (true)] loop of the array branch, from [idx] on with the
    [items] pushed so far; [pe] is [processElement] at the resolved
    declaration and [n] bounds the rounds. *)
Fixpoint scanItems (pe : string -> option JVal) (el : JVal)
    (currentPath elName : string) (n idx : nat) (items : list JVal)
    : option (list JVal) :=
  match n with
  | O => None
  | S n' =>
      let path := itemPath currentPath elName idx in
      if negb (hasConfigPrefix path) then Some items
      else
        match pe path with
        | None => None
        | Some childContent =>
            if truthy childContent then
              let items' := (items ++ [childContent])%list in
              if isSingleton currentPath elName idx then Some items'
              else scanItems pe el currentPath elName n' (S idx) items'
            else if isMandatory el then Some items
            else Some items
        end
  end.

(** One iteration of the element loop of [processGroup]. *)
Definition processChild (pe : JVal -> string -> option JVal) (n : nat)
    (parentDef : JVal) (currentPath : string) (result : Obj) (el : JVal)
    : option Obj :=
  match resolveChild parentDef el with
  | None => Some result
  | Some (elementDef, elName) =>
      let key := childKey elementDef elName in
      if isArray el then
        match scanItems (pe elementDef) el currentPath elName n 0 [] with
        | None => None
        | Some items =>
            Some (if (0 <? length items)%nat
                  then obj_set key (JArr items) result
                  else result)
        end
      else
        match pe elementDef (singletonPath currentPath elName) with
        | None => None
        | Some childContent =>
            Some (if negb (is_null childContent)
                  then obj_set key childContent result
                  else result)
        end
  end.

(** One iteration of the loops over nested [choice] and [sequence]
    particles; [pg] is [processGroup]. *)
Definition nestedGroup (pg : JVal -> string -> option Obj) (tag : string)
    (parentDef : JVal) (currentPath : string) (result : Obj) (sub : JVal)
    : option Obj :=
  match pg (JObj [(tag, sub); ("_schema", prop parentDef "_schema")]) currentPath with
  | Some subResult => Some (obj_assign result subResult)
  | None => None
  end.

(** One iteration of the loop over [group] references. *)
Definition namedGroup (pg : JVal -> string -> option Obj) (currentPath : string)
    (result : Obj) (g : JVal) : option Obj :=
  let groupDef := SchemaContext.getGroup (ctx this) (attr g "@_ref") in
  if truthy groupDef then
    match pg groupDef currentPath with
    | Some subResult => Some (obj_assign result subResult)
    | None => None
    end
  else Some result.

(** [sequence || choice || all] over the keys of a definition. *)
Definition groupKeyOf (parentDef : JVal) : option string :=
  let ks := keys parentDef in
  match find (SchemaContext.tagged "sequence") ks with
  | Some k => Some k
  | None =>
      match find (SchemaContext.tagged "choice") ks with
      | Some k => Some k
      | None => find (SchemaContext.tagged "all") ks
      end
  end.

(** [Object.keys(result).length > 0 ? result : null]. *)
Definition finish (result : Obj) : JVal :=
  if (0 <? length result)%nat then JObj result else JNull.

(** The three mutually recursive methods.  [fuel] bounds the depth of the
    recursion and, in [processGroup], the rounds of each array loop. *)
Fixpoint processElement (fuel : nat) (elementDef : JVal) (currentPath : string)
    {struct fuel} : option JVal :=
  match fuel with
  | O => None
  | S fuel' =>
      let typeDef := typeOfElement elementDef in
      if isLeafType typeDef then Some (leafValue currentPath)
      else processComplexType fuel' typeDef currentPath
  end

with processComplexType (fuel : nat) (typeDef : JVal) (currentPath : string)
    {struct fuel} : option JVal :=
  match fuel with
  | O => None
  | S fuel' =>
      match find (SchemaContext.tagged "complexContent") (keys typeDef) with
      | Some contentKey =>
          match find (SchemaContext.tagged "extension")
                     (keys (prop typeDef contentKey)) with
          | Some extensionKey =>
              let extension := prop (prop typeDef contentKey) extensionKey in
              let result := processAttributes extension currentPath [] in
              let baseType := attr extension "@_base" in
              let baseDef :=
                SchemaContext.findType (ctx this) baseType (prop typeDef "_schema") in
              match
                (if truthyS baseType && truthy baseDef
                 then match processComplexType fuel' baseDef currentPath with
                      | Some baseContent => Some (obj_assign result (spread baseContent))
                      | None => None
                      end
                 else Some result)
              with
              | None => None
              | Some result1 =>
                  let extensionWithSchema :=
                    JObj (obj_set "_schema" (prop typeDef "_schema") (spread extension)) in
                  match processGroup fuel' extensionWithSchema currentPath with
                  | Some extInfo => Some (finish (obj_assign result1 extInfo))
                  | None => None
                  end
              end
          | None => Some (finish [])
          end
      | None =>
          let result := processAttributes typeDef currentPath [] in
          match processGroup fuel' typeDef currentPath with
          | Some groupContent => Some (finish (obj_assign result groupContent))
          | None => None
          end
      end
  end

with processGroup (fuel : nat) (parentDef : JVal) (currentPath : string)
    {struct fuel} : option Obj :=
  match fuel with
  | O => None
  | S fuel' =>
      match groupKeyOf parentDef with
      | None => Some []
      | Some groupKey =>
          let container := prop parentDef groupKey in
          match
            foldM (processChild (processElement fuel') fuel' parentDef currentPath)
                  (SchemaContext.ensureArray container "element") []
          with
          | None => None
          | Some r1 =>
              match foldM (nestedGroup (processGroup fuel') "choice" parentDef currentPath)
                          (SchemaContext.ensureArray container "choice") r1 with
              | None => None
              | Some r2 =>
                  match foldM (nestedGroup (processGroup fuel') "sequence"
                                 parentDef currentPath)
                              (SchemaContext.ensureArray container "sequence") r2 with
                  | None => None
                  | Some r3 =>
                      foldM (namedGroup (processGroup fuel') currentPath)
                            (SchemaContext.ensureArray container "group") r3
                  end
              end
          end
      end
  end.

(** The root lookup of [generate]: the name as given, then
    [rootElementName.split(':')[1] || rootElementName]. *)
Definition resolveRoot (rootElementName : string) : JVal :=
  let rootEl := SchemaContext.getElement (ctx this) (Some rootElementName) in
  if negb (truthy rootEl)
  then SchemaContext.getElement (ctx this)
         (if truthyS (part 1 rootElementName)
          then part 1 rootElementName
          else Some rootElementName)
  else rootEl.

Definition generate (fuel : nat) (rootElementName startPath : string)
    (typeOverride : option string) : option completion :=
  let rootEl := resolveRoot rootElementName in
  if negb (truthy rootEl)
  then Some (Throws ("Root element not found: " +:+ rootElementName))
  else
    let rootKey := qualify (getPrefix (namespaceOf rootEl)) rootElementName in
    let content :=
      let typeDef := SchemaContext.findType (ctx this) typeOverride (prop rootEl "_schema") in
      if truthyS typeOverride && truthy typeDef then
        match processComplexType fuel typeDef startPath with
        | Some c =>
            Some (if truthy c
                  then JObj (obj_set "@_xsi:type" (of_attr typeOverride) (spread c))
                  else c)
        | None => None
        end
      else processElement fuel rootEl startPath in
    match content with
    | None => None
    | Some c =>
        Some (Returns (if is_null c then JNull else JObj [(rootKey, c)]))
    end.

End Methods.

End XMLGenerator.

(** ** [index.js]: what the caller does around the generator *)

Module Orchestrator.

(** [nsMap[k] = v] on a string-to-string table. *)
Fixpoint str_set (k v : string) (m : StrMap) : StrMap :=
  match m with
  | [] => [(k, v)]
  | (k', v') :: m' =>
      if String.eqb k k' then (k, v) :: m' else (k', v') :: str_set k v m'
  end.

(** A namespace URI as it comes out of [getNamespaces]: the value of an
    [xmlns] attribute, a string; anything else is read as absent. *)
Definition uriOf (uri : JVal) : option string :=
  match uri with
  | JStr u => Some u
  | _ => None
  end.

Definition BASE_NS_MAP : StrMap :=
  [("http://www.w3.org/2001/XMLSchema-instance", "xsi");
   ("https://ec.europa.eu/tools/eudamed/dtx/servicemodel/Message/v1", "m");
   ("https://ec.europa.eu/tools/eudamed/dtx/servicemodel/Service/v1", "s")].

(** The loop that completes the namespace map from the extracted
    namespaces: [if (!nsMap[uri]) nsMap[uri] = prefix]. *)
Definition mergeNamespaces (base : StrMap) (extractedNamespaces : Obj) : StrMap :=
  fold_left
    (fun nsMap entry =>
       let '(prefix, uri) := entry in
       let key := key_of (uriOf uri) in
       if negb (truthyS (str_get key nsMap)) then str_set key prefix nsMap
       else nsMap)
    extractedNamespaces base.

(** [const nsMap = { ...BASE_NS_MAP }] followed by the loop. *)
Definition buildNsMap (extractedNamespaces : Obj) : StrMap :=
  mergeNamespaces BASE_NS_MAP extractedNamespaces.

(** The loop that declares the extracted namespaces on an element:
    [target[`@_xmlns:${prefix}`] = uri]. *)
Definition injectNamespaces (extractedNamespaces target : Obj) : Obj :=
  fold_left
    (fun obj entry =>
       let '(prefix, uri) := entry in
       obj_set ("@_xmlns:" +:+ prefix) uri obj)
    extractedNamespaces target.

(** [delete o[k]]. *)
Definition obj_delete (k : string) (o : Obj) : Obj :=
  filter (fun kv => kv.1 <> k) o.

(** One iteration of the reordering loop of [recursiveFix]: the first key
    of [udi] that names [prop] moves to the end of [newUdi]. *)
Definition reorderStep (state : Obj * Obj) (prop : string) : Obj * Obj :=
  let '(newUdi, udi) := state in
  match find (SchemaContext.tagged prop) (keys (JObj udi)) with
  | Some propKey =>
      if truthyS (Some propKey)
      then (obj_set propKey (JS.prop (JObj udi) propKey) newUdi,
            obj_delete propKey udi)
      else state
  | None => state
  end.

(** The sequence-ordering fix of [recursiveFix]: the fields named in
    [correctOrder] first, in that order, then whatever is left. *)
Definition reorderFields (correctOrder : list string) (udi : Obj) : Obj :=
  let '(newUdi, rest) := fold_left reorderStep correctOrder ([], udi) in
  obj_assign newUdi rest.

Definition basicUDIOrder : list string :=
  ["state"; "version"; "versionDate";
   "riskClass"; "model"; "modelName"; "identifier"; "certificateLinks";
   "animalTissuesCells"; "ARActorCode"; "humanTissuesCells"; "MFActorCode";
   "ARComments"; "clinicalInvestigationLinks"; "deviceCertificateLinks";
   "humanProductCheck"; "IIb_implantable_exceptions"; "medicinalProductCheck";
   "specialDevice"; "type";
   "active"; "administeringMedicine"; "implantable"; "measuringFunction";
   "reusable"].

Definition udiDIDataOrder : list string :=
  ["state"; "version"; "versionDate";
   "identifier"; "status";
   "additionalDescription"; "basicUDIIdentifier"; "MDNCodes";
   "productionIdentifier"; "referenceNumber"; "secondaryIdentifier"; "sterile";
   "sterilization"; "tradeNames"; "website"; "storageHandlingConditions";
   "packages"; "criticalWarnings"; "substatuses";
   "numberOfReuses"; "relatedUDILink"; "marketInfos"; "deviceMarking";
   "baseQuantity"; "productDesignerActor";
   "annexXVINonMedicalDeviceTypes"; "annexXVIApplicable"; "latex"; "reprocessed"].

(** [key.endsWith('BasicUDI') ? ... : ...] picks the list. *)
Definition correctOrderFor (key : string) : list string :=
  if endsWith key "BasicUDI" then basicUDIOrder else udiDIDataOrder.

End Orchestrator.

(** * Vocabulary of the statements *)

Module Spec.

Import SchemaContext.

(** A schema root that declares nothing for the prefix [p], or that
    [getNamespaces] skips. *)
Definition silent (p : string) (schemaRoot : JVal) : Prop :=
  truthy schemaRoot = true -> "@_xmlns:" +:+ p ∉ keys schemaRoot.

(** First write wins in [getNamespaces]: a prefix keeps the URI of the
    first visited root that declares it. *)
Definition first_write_wins (ctx : t) : Prop :=
  forall (before after : Obj) (ns : string) (schemaRoot : JVal) (p : string),
    schemas ctx = (before ++ (ns, schemaRoot) :: after)%list ->
    truthy schemaRoot = true ->
    "@_xmlns:" +:+ p ∈ keys schemaRoot ->
    Forall (silent p) (map snd before) ->
    obj_get p (getNamespaces ctx) = Some (prop schemaRoot ("@_xmlns:" +:+ p)).

(** The entity stored under the bare key [b] of each lookup table is the
    same in [ctx'] as in [ctx]. *)
Definition bare_key_kept (b : string) (ctx ctx' : t) : Prop :=
  forall table : t -> Obj,
    table = elements \/ table = types \/ table = groups ->
    truthy (prop (JObj (table ctx)) b) = true ->
    prop (JObj (table ctx')) b = prop (JObj (table ctx)) b.

(** Every readable schema file declares a target namespace. *)
Definition all_namespaced (readSchema : string -> option JVal) : Prop :=
  forall (p : string) (json : JVal) (schemaKey : string),
    readSchema p = Some json ->
    find (tagged "schema") (keys json) = Some schemaKey ->
    truthyS (attr (prop json schemaKey) "@_targetNamespace") = true.

(** What the probe of [path/@name] leaves under the key [@_name]. *)
Definition probed (g : XMLGenerator.t) (currentPath name : string) : option JVal :=
  let val := XMLGenerator.getValueFromConfig g (currentPath +:+ "/@" +:+ name) in
  if is_undefined val then None else Some val.

(** An attribute declaration that, if it is called [name], has no fixed
    value. *)
Definition unfixed (name : string) (a : JVal) : Prop :=
  attr a "@_name" = Some name -> truthyS (attr a "@_fixed") = false.

(** The attribute rule with a second probe: the entry [@_name] is written
    exactly when [path/@name] or, failing that, [path/name] is configured. *)
Definition attribute_fallback (g : XMLGenerator.t) (parentDef : JVal)
    (currentPath name : string) : Prop :=
  is_Some (obj_get ("@_" +:+ name)
             (XMLGenerator.processAttributes g parentDef currentPath []))
  <-> (XMLGenerator.getValueFromConfig g (currentPath +:+ "/@" +:+ name) <> JUndef
       \/ XMLGenerator.getValueFromConfig g (currentPath +:+ "/" +:+ name) <> JUndef).

(** What a completed round of the array loop has established for the
    index [idx] it visited: the path probed for that index has
    configuration below it, and [c] is the content produced there. *)
Definition visited (g : XMLGenerator.t) (pe : string -> option JVal)
    (currentPath elName : string) (idx : nat) (c : JVal) : Prop :=
  XMLGenerator.hasConfigPrefix g (XMLGenerator.itemPath g currentPath elName idx) = true
  /\ pe (XMLGenerator.itemPath g currentPath elName idx) = Some c
  /\ truthy c = true.

(** Why the array loop stopped after [len] rounds from index 0. *)
Definition stopped (g : XMLGenerator.t) (pe : string -> option JVal)
    (currentPath elName : string) (idx len : nat) : Prop :=
  (XMLGenerator.isSingleton g currentPath elName idx = true /\ len = 1)
  \/ XMLGenerator.hasConfigPrefix g
       (XMLGenerator.itemPath g currentPath elName (idx + len)) = false
  \/ exists c, pe (XMLGenerator.itemPath g currentPath elName (idx + len)) = Some c
               /\ truthy c = false.

(** A child whose [ref] names no element of the index, neither as written
    nor by its local part. *)
Definition unresolvable (g : XMLGenerator.t) (el : JVal) : Prop :=
  let ref := XMLGenerator.refOf g el in
  truthyS ref = true
  /\ truthy (getElement (XMLGenerator.ctx g) ref) = false
  /\ (includes (key_of ref) ":" = true ->
      truthy (getElement (XMLGenerator.ctx g) (part 1 (key_of ref))) = false).

(** A run of [generate] that has no result whatever the fuel: the
    recursion has no bound, and JavaScript ends such a run by raising a
    [RangeError] when the call stack is used up. *)
Definition overflows (g : XMLGenerator.t) (rootElementName startPath : string)
    (typeOverride : option string) : Prop :=
  forall fuel,
    XMLGenerator.generate g fuel rootElementName startPath typeOverride = None.

(** [extension] is the extension a derived type is dispatched on by
    [processComplexType]. *)
Definition extension_of (typeDef extension : JVal) : Prop :=
  exists contentKey extensionKey,
    find (tagged "complexContent") (keys typeDef) = Some contentKey
    /\ find (tagged "extension") (keys (prop typeDef contentKey)) = Some extensionKey
    /\ extension = prop (prop typeDef contentKey) extensionKey.

(** In the result [r], every key of the base output comes before the key
    [ke]. *)
Definition after_base (base r : Obj) (ke : string) : Prop :=
  forall kb, kb ∈ map fst base ->
    exists i j, key_index kb r = Some i /\ key_index ke r = Some j /\ i < j.

(** Every key of the base output comes before every key of the extension
    output. *)
Definition base_before_extension (base extInfo r : Obj) : Prop :=
  forall ke, ke ∈ map fst extInfo -> after_base base r ke.

(** The generator [g] run over another configuration. *)
Definition withConfig (g : XMLGenerator.t) (config : Obj) : XMLGenerator.t :=
  XMLGenerator.mk (XMLGenerator.ctx g) config
    (XMLGenerator.nsMap g) (XMLGenerator.substitutions g).

(** No object inside [v] carries a non-empty [fixed] attribute. *)
Fixpoint noFixed (v : JVal) : bool :=
  match v with
  | JArr l => forallb noFixed l
  | JObj o =>
      forallb (fun kv => let '(k, x) := kv in
                         negb (String.eqb k "@_fixed" && truthy x) && noFixed x) o
  | _ => true
  end.

Definition noFixedIndex (ctx : t) : bool :=
  noFixed (JObj (elements ctx)) && noFixed (JObj (types ctx))
  && noFixed (JObj (groups ctx)).

(** Absence without configuration: an element processed at a path that no
    configuration key extends yields no content. *)
Definition absent_without_config (g : XMLGenerator.t) (fuel : nat)
    (elementDef : JVal) (path : string) : Prop :=
  XMLGenerator.hasConfigPrefix g path = false ->
  forall v, XMLGenerator.processElement g fuel elementDef path = Some v -> v = JNull.

End Spec.

(** * Concrete schemas and configurations *)

Module Examples.

Import SchemaContext.

(** Files are named by their resolved path and a location is taken as it
    is written. *)
Definition resolve0 (filePath : string) : string := filePath.
Definition nextPath0 (filePath location : string) : string := location.

Definition load (files : string -> option JVal) (filePath : string) : t :=
  default empty (loadSchema resolve0 nextPath0 files 8 empty filePath).

(** Two schemas that bind the prefix [p] to different URIs; [a.xsd]
    imports [b.xsd]. *)
Definition rootA : JVal :=
  JObj [("@_targetNamespace", JStr "urn:a"); ("@_xmlns:p", JStr "urn:first");
        ("xs:import", JObj [("@_schemaLocation", JStr "b.xsd")])].

Definition rootB : JVal :=
  JObj [("@_targetNamespace", JStr "urn:b"); ("@_xmlns:p", JStr "urn:second")].

Definition filesAB (p : string) : option JVal :=
  if String.eqb p "a.xsd" then Some (JObj [("xs:schema", rootA)])
  else if String.eqb p "b.xsd" then Some (JObj [("xs:schema", rootB)])
  else None.

Definition ctxAB : t := load filesAB "a.xsd".

(** Two schemas that import each other. *)
Definition filesCycle (p : string) : option JVal :=
  if String.eqb p "a.xsd" then
    Some (JObj [("xs:schema",
      JObj [("@_targetNamespace", JStr "urn:a");
            ("xs:import", JObj [("@_schemaLocation", JStr "b.xsd")]);
            ("xs:element", JObj [("@_name", JStr "A"); ("@_type", JStr "xs:string")])])])
  else if String.eqb p "b.xsd" then
    Some (JObj [("xs:schema",
      JObj [("@_targetNamespace", JStr "urn:b");
            ("xs:include", JObj [("@_schemaLocation", JStr "a.xsd")]);
            ("xs:element", JObj [("@_name", JStr "B"); ("@_type", JStr "xs:string")])])])
  else None.

(** A schema with a target namespace and one without, both declaring an
    element [Foo]. *)
Definition fooOfA : JVal := JObj [("@_name", JStr "Foo"); ("@_type", JStr "xs:string")].
Definition fooOfN : JVal := JObj [("@_name", JStr "Foo"); ("@_type", JStr "xs:int")].
Definition rootFooA : JVal :=
  JObj [("@_targetNamespace", JStr "urn:a"); ("xs:element", fooOfA)].
Definition rootFooN : JVal := JObj [("xs:element", fooOfN)].
Definition rootFooB : JVal :=
  JObj [("@_targetNamespace", JStr "urn:b"); ("xs:element", fooOfN)].

Definition filesFoo (p : string) : option JVal :=
  if String.eqb p "a.xsd" then Some (JObj [("xs:schema", rootFooA)])
  else if String.eqb p "n.xsd" then Some (JObj [("xs:schema", rootFooN)])
  else None.

Definition filesFooNs (p : string) : option JVal :=
  if String.eqb p "a.xsd" then Some (JObj [("xs:schema", rootFooA)])
  else if String.eqb p "b.xsd" then Some (JObj [("xs:schema", rootFooB)])
  else None.

Definition ctxFooA : t := load filesFoo "a.xsd".

Definition ctxFooAN : t :=
  default empty (loadSchema resolve0 nextPath0 filesFoo 3 ctxFooA "n.xsd").

Definition ctxFooAB : t :=
  default empty (loadSchema resolve0 nextPath0 filesFooNs 3 ctxFooA "b.xsd").

(** A document schema: [Root] is a sequence of a mandatory string [Child],
    a reference to an element that no schema declares, an unbounded integer
    [Items] and an optional string [Other]. *)
Definition elementOf (name type : string) (more : Obj) : JVal :=
  JObj ([("@_name", JStr name); ("@_type", JStr type)] ++ more).

Definition missingRef : JVal := JObj [("@_ref", JStr "t:Missing")].

Definition rootT : JVal :=
  JObj [("@_targetNamespace", JStr "urn:t"); ("@_xmlns:t", JStr "urn:t");
        ("xs:element", elementOf "Root" "t:RootType" []);
        ("xs:complexType",
         JObj [("@_name", JStr "RootType");
               ("xs:sequence",
                JObj [("xs:element",
                       JArr [elementOf "Child" "xs:string" [("@_minOccurs", JStr "1")];
                             missingRef;
                             elementOf "Items" "xs:int" [("@_maxOccurs", JStr "unbounded")];
                             elementOf "Other" "xs:string" [("@_minOccurs", JStr "0")]])])])].

Definition filesT (p : string) : option JVal :=
  if String.eqb p "t.xsd" then Some (JObj [("xs:schema", rootT)]) else None.

Definition ctxT : t := load filesT "t.xsd".

Definition genT (config : Obj) : XMLGenerator.t :=
  XMLGenerator.mk ctxT config [("urn:t", "t")] [].

(** The declaration of [Items] as [processGroup] meets it, and as
    [resolveChild] hands it on. *)
Definition itemsEl : JVal :=
  elementOf "Items" "xs:int" [("@_maxOccurs", JStr "unbounded")].
Definition childEl : JVal :=
  elementOf "Child" "xs:string" [("@_minOccurs", JStr "1")].
Definition rootTypeT : JVal := prop (JObj (types ctxT)) "RootType".
Definition itemsDecl : JVal :=
  JObj (obj_set "_schema" rootT (spread itemsEl)).
Definition childDecl : JVal :=
  JObj (obj_set "_schema" rootT (spread childEl)).

(** Indices 0 and 2 of [Items] are configured, index 1 is not. *)
Definition configGap : Obj :=
  [("Root/Items[0]", JNum 10); ("Root/Items[2]", JNum 30)].

(** The number 0 under an array item, and under a singleton. *)
Definition configZeroItem : Obj :=
  [("Root/Items[0]", JNum 0); ("Root/Items[1]", JNum 5)].
Definition configZeroChild : Obj := [("Root/Child", JNum 0)].

(** A derived type: [Base] is the sequence [a], [b]; [Derived] extends it
    with the sequence [a], [c], naming [a] again. *)
Definition baseType : JVal :=
  JObj [("@_name", JStr "Base");
        ("xs:sequence",
         JObj [("xs:element", JArr [elementOf "a" "xs:string" [];
                                    elementOf "b" "xs:string" []])])].

Definition derivedExtension : JVal :=
  JObj [("@_base", JStr "Base");
        ("xs:sequence",
         JObj [("xs:element", JArr [elementOf "a" "xs:string" [];
                                    elementOf "c" "xs:string" []])])].

Definition derivedType : JVal :=
  JObj [("@_name", JStr "Derived");
        ("xs:complexContent", JObj [("xs:extension", derivedExtension)])].

Definition rootD : JVal := JObj [("xs:complexType", JArr [baseType; derivedType])].

Definition filesD (p : string) : option JVal :=
  if String.eqb p "d.xsd" then Some (JObj [("xs:schema", rootD)]) else None.

Definition ctxD : t := load filesD "d.xsd".

Definition genD : XMLGenerator.t :=
  XMLGenerator.mk ctxD
    [("P/a", JStr "1"); ("P/b", JStr "2"); ("P/c", JStr "3")] [] [].

Definition baseDeclD : JVal := prop (JObj (types ctxD)) "Base".
Definition derivedDeclD : JVal := prop (JObj (types ctxD)) "Derived".
Definition baseOutD : Obj := [("a", JStr "1"); ("b", JStr "2")].
Definition extOutD : Obj := [("a", JStr "1"); ("c", JStr "3")].
Definition mergedOutD : Obj := [("a", JStr "1"); ("b", JStr "2"); ("c", JStr "3")].

(** A document whose header type carries the fixed attribute [version];
    only [Body] is configured. *)
Definition rootH : JVal :=
  JObj [("xs:element", elementOf "Doc" "DocType" []);
        ("xs:complexType",
         JArr [JObj [("@_name", JStr "DocType");
                     ("xs:sequence",
                      JObj [("xs:element",
                             JArr [elementOf "Hdr" "HdrType" [];
                                   elementOf "Body" "xs:string" []])])];
               JObj [("@_name", JStr "HdrType");
                     ("xs:attribute",
                      JObj [("@_name", JStr "version"); ("@_fixed", JStr "1.0")]);
                     ("xs:sequence",
                      JObj [("xs:element", elementOf "Note" "xs:string" [])])]])].

Definition filesH (p : string) : option JVal :=
  if String.eqb p "h.xsd" then Some (JObj [("xs:schema", rootH)]) else None.

Definition ctxH : t := load filesH "h.xsd".

Definition genH : XMLGenerator.t :=
  XMLGenerator.mk ctxH [("Doc/Body", JStr "x")] [] [].

Definition hdrDecl : JVal :=
  JObj (obj_set "_schema" rootH (spread (elementOf "Hdr" "HdrType" []))).

Definition rootDeclT : JVal := prop (JObj (elements ctxT)) "Root".

(** A type with one attribute [id], and a configuration that gives its
    value under the path without the [@] sigil, or with it. *)
Definition typeWithId : JVal :=
  JObj [("xs:attribute", JObj [("@_name", JStr "id")])].

Definition genBare : XMLGenerator.t :=
  XMLGenerator.mk empty [("P/id", JStr "7")] [] [].

Definition genSigil : XMLGenerator.t :=
  XMLGenerator.mk empty [("P/@id", JStr "7")] [] [].

(** A type that contains an optional child of its own type: the schema of
    a tree.  The child is a single occurrence, or an unbounded one. *)
Definition nodeChild : JVal :=
  elementOf "child" "NodeType" [("@_minOccurs", JStr "0")].

Definition nodeChildren : JVal :=
  elementOf "child" "NodeType"
    [("@_minOccurs", JStr "0"); ("@_maxOccurs", JStr "unbounded")].

Definition rootNodeOf (child : JVal) : JVal :=
  JObj [("xs:element", elementOf "Node" "NodeType" []);
        ("xs:complexType",
         JObj [("@_name", JStr "NodeType");
               ("xs:sequence", JObj [("xs:element", child)])])].

Definition filesNode (child : JVal) (p : string) : option JVal :=
  if String.eqb p "node.xsd" then Some (JObj [("xs:schema", rootNodeOf child)])
  else None.

Definition ctxNode : t := load (filesNode nodeChild) "node.xsd".
Definition ctxNodes : t := load (filesNode nodeChildren) "node.xsd".

Definition genNode (config : Obj) : XMLGenerator.t :=
  XMLGenerator.mk ctxNode config [] [].

Definition genNodes (config : Obj) : XMLGenerator.t :=
  XMLGenerator.mk ctxNodes config [] [].

Definition nodeDecl : JVal := prop (JObj (elements ctxNode)) "Node".
Definition nodeTypeDecl : JVal := prop (JObj (types ctxNode)) "NodeType".
Definition nodeChildDecl : JVal :=
  JObj (obj_set "_schema" (rootNodeOf nodeChild) (spread nodeChild)).

End Examples.

(** * Further vocabulary *)

Module Props.

Import SchemaContext.

(** Nothing that [ctx] holds is missing from [ctx']: every processed file,
    and every key of the four tables. *)
Definition grows (ctx ctx' : t) : Prop :=
  processedFiles ctx ⊆ processedFiles ctx'
  /\ (forall table : t -> Obj,
        table = schemas \/ table = elements \/ table = types \/ table = groups ->
        forall k, k ∈ map fst (table ctx) -> k ∈ map fst (table ctx')).

(** Every entry of a lookup table is an object that carries a [_schema]
    property. *)
Definition well_indexed (table : Obj) : Prop :=
  forall k v, (k, v) ∈ table -> exists o, v = JObj o /\ "_schema" ∈ map fst o.

Definition index_ok (ctx : t) : Prop :=
  well_indexed (elements ctx) /\ well_indexed (types ctx) /\ well_indexed (groups ctx).

(** An object as a group emits it: no key twice and no [null] value. *)
Definition filled (o : Obj) : Prop :=
  NoDup (map fst o) /\ Forall (fun kv => kv.2 <> JNull) o.

(** What the reordering loop has reached after the property names [done]:
    [moved] holds entries of [udi] under pairwise distinct keys, each key
    naming one of [done], in the order of [done]; [rest] is [udi] without
    them, in its own order. *)
Definition reordered (udi : Obj) (done : list string) (state : Obj * Obj) : Prop :=
  let '(moved, rest) := state in
  rest = filter (fun kv => kv.1 ∉ map fst moved) udi
  /\ Forall (fun kv => kv ∈ udi) moved
  /\ NoDup (map fst moved)
  /\ exists ps, sublist ps done
       /\ Forall2 (fun p kv => tagged p kv.1 = true) ps moved.

(** The first entry of [udi] whose key names [prop], bare or behind a
    prefix; none when no key names it, or when that key is the empty
    string. *)
Definition firstTagged (udi : Obj) (prop : string) : option (string * JVal) :=
  match find (tagged prop) (keys (JObj udi)) with
  | Some propKey =>
      if truthyS (Some propKey) then Some (propKey, JS.prop (JObj udi) propKey)
      else None
  | None => None
  end.

(** The fields in sequence order, said without a loop: for each name of
    the order list, in the order of the list, the first entry of [udi]
    that carries the name; then the entries that were not taken, in the
    order they had. *)
Definition inSequence (correctOrder : list string) (udi : Obj) : Obj :=
  let moved := omap (firstTagged udi) correctOrder in
  (moved ++ filter (fun kv => kv.1 ∉ map fst moved) udi)%list.

(** No key of [udi] is named by two entries of the order list. *)
Definition unambiguous (correctOrder : list string) (udi : Obj) : bool :=
  forallb
    (fun k => (length (List.filter (fun p => tagged p k) correctOrder) <=? 1)%nat)
    (keys (JObj udi)).

End Props.

(** * Further example inputs *)

Module Cases.

Import SchemaContext Orchestrator Examples.

(** The two schemas that import each other, loaded from [a.xsd]. *)
Definition ctxCycle : t := load filesCycle "a.xsd".

(** A schema that declares the element [A] twice, with [B] in between. *)
Definition firstA : JVal := elementOf "A" "xs:string" [].
Definition onlyB : JVal := elementOf "B" "xs:string" [].
Definition lastA : JVal := elementOf "A" "xs:int" [].

Definition rootDup : JVal :=
  JObj [("@_targetNamespace", JStr "urn:d");
        ("xs:element", JArr [firstA; onlyB; lastA])].

Definition jsonDup : JVal := JObj [("xs:schema", rootDup)].

Definition filesDup (p : string) : option JVal :=
  if String.eqb p "dup.xsd" then Some jsonDup else None.

Definition ctxDup : t := load filesDup "dup.xsd".

(** The header type of the document example, with its fixed attribute. *)
Definition hdrType : JVal := prop (JObj (types ctxH)) "HdrType".

(** [Items] configured without an index. *)
Definition configSingleton : Obj := [("Root/Items", JNum 7)].

(** A generator that substitutes the reference [t:Abstract] by [Root]. *)
Definition genSubst : XMLGenerator.t :=
  XMLGenerator.mk ctxT [] [("urn:t", "t")] [("t:Abstract", "Root")].

Definition abstractRef : JVal := JObj [("@_ref", JStr "t:Abstract")].

(** [Child], one item of [Items] and [Other] configured, in an order that
    is not the order of the declarations. *)
Definition configAll : Obj :=
  [("Root/Other", JStr "y"); ("Root/Items[0]", JNum 1); ("Root/Child", JStr "x")].

Definition otherEl : JVal :=
  elementOf "Other" "xs:string" [("@_minOccurs", JStr "0")].

(** Two extracted prefixes for one namespace URI. *)
Definition nsFirst : Obj := [("p", JStr "urn:first")].
Definition nsLater : Obj := [("q", JStr "urn:first"); ("r", JStr "urn:other")].

(** A generated [UDIDIData] object whose fields are out of sequence. *)
Definition udiSample : Obj :=
  [("device:status", JObj [("commondi:code", JStr "ON_THE_MARKET")]);
   ("@_xsi:type", JStr "device:MDRUDIDIDataType");
   ("device:numberOfReuses", JNum 0);
   ("device:identifier", JObj [("commondi:DICode", JStr "05993026538013")])].

End Cases.

(** * Proofs *)

(** ** Facts about strings and plain objects *)

Module JSFacts.

Lemma append_nil (s : string) : "" +:+ s = s.
Proof. reflexivity. Qed.

Lemma append_cons (c : ascii) (p s : string) :
  String c p +:+ s = String c (p +:+ s).
Proof. reflexivity. Qed.

Lemma append_assoc (a b c : string) : (a +:+ b) +:+ c = a +:+ (b +:+ c).
Proof.
  induction a as [|x a IH]; [done|].
  rewrite !append_cons. by f_equal.
Qed.

Lemma prefix_app (p s : string) : String.prefix p (p +:+ s) = true.
Proof.
  induction p as [|c p IH].
  - by destruct s.
  - rewrite append_cons. simpl.
    destruct (ascii_dec c c) as [_|Hne]; [exact IH | by destruct Hne].
Qed.

Lemma prefix_split (p s : string) :
  String.prefix p s = true -> s = p +:+ drop_chars (String.length p) s.
Proof.
  revert s; induction p as [|c p IH]; intros s H.
  - done.
  - destruct s as [|d s]; simpl in H; [done|].
    destruct (ascii_dec c d) as [->|]; [|done].
    rewrite append_cons. simpl. f_equal. by apply IH.
Qed.

Lemma prefix_trans (p q s : string) :
  String.prefix p q = true -> String.prefix q s = true -> String.prefix p s = true.
Proof.
  intros Hpq Hqs.
  rewrite (prefix_split _ _ Hqs), (prefix_split _ _ Hpq).
  rewrite append_assoc. apply prefix_app.
Qed.

Lemma app_inj_l (p a b : string) : p +:+ a = p +:+ b -> a = b.
Proof.
  induction p as [|c p IH]; [done|].
  rewrite !append_cons. intros H. injection H as H. by apply IH.
Qed.

(** A key written as [p ++ x] is recognised by its prefix and gives [x]
    back when the prefix is cut off. *)
Lemma starts_drop_iff (p key x : string) :
  startsWith key p = true /\ drop_chars (String.length p) key = x
  <-> key = p +:+ x.
Proof.
  split.
  - intros [H <-]. by apply prefix_split.
  - intros ->. split; [apply prefix_app|].
    induction p as [|c p IH]; [done | rewrite append_cons; exact IH].
Qed.
Lemma obj_get_set_eq (k : string) (v : JVal) (o : Obj) :
  obj_get k (obj_set k v o) = Some v.
Proof.
  induction o as [|[k' v'] o IH]; simpl.
  - by rewrite String.eqb_refl.
  - destruct (String.eqb k k') eqn:E; simpl.
    + by rewrite String.eqb_refl.
    + by rewrite E.
Qed.

Lemma obj_get_set_ne (k k' : string) (v : JVal) (o : Obj) :
  k <> k' -> obj_get k' (obj_set k v o) = obj_get k' o.
Proof.
  intros Hne. induction o as [|[k0 v0] o IH]; simpl.
  - apply String.eqb_neq in Hne. rewrite String.eqb_sym in Hne. by rewrite Hne.
  - destruct (String.eqb k k0) eqn:E; simpl.
    + apply String.eqb_eq in E as <-.
      assert (String.eqb k' k = false) as -> by (apply String.eqb_neq; congruence).
      done.
    + destruct (String.eqb k' k0); [done | exact IH].
Qed.

Lemma obj_get_set (k k' : string) (v : JVal) (o : Obj) :
  obj_get k' (obj_set k v o) = if String.eqb k k' then Some v else obj_get k' o.
Proof.
  destruct (String.eqb k k') eqn:E.
  - apply String.eqb_eq in E as <-. apply obj_get_set_eq.
  - apply obj_get_set_ne. by apply String.eqb_neq.
Qed.

Lemma obj_get_Some_keys (k : string) (o : Obj) :
  is_Some (obj_get k o) <-> k ∈ map fst o.
Proof.
  induction o as [|[k' v'] o IH]; simpl.
  - split; [by intros [? ?] | by intros ?%elem_of_nil].
  - destruct (String.eqb k k') eqn:E.
    + apply String.eqb_eq in E as <-. split; [intros _; left | by eauto].
    + apply String.eqb_neq in E. rewrite IH. split.
      * by right.
      * intros H. apply elem_of_cons in H as [?|?]; [done|done].
Qed.

Lemma foldM_mono {A B : Type} (f g : A -> B -> option A) (l : list B) (a r : A) :
  (forall x b y, f x b = Some y -> g x b = Some y) ->
  foldM f l a = Some r -> foldM g l a = Some r.
Proof.
  intros Hfg. revert a. induction l as [|b l IH]; intros a; [done|].
  cbn [foldM]. destruct (f a b) as [y|] eqn:E; [|done].
  rewrite (Hfg _ _ _ E). apply IH.
Qed.

Lemma prop_set_eq (k : string) (v : JVal) (o : Obj) :
  prop (JObj (obj_set k v o)) k = v.
Proof. unfold prop. by rewrite obj_get_set_eq. Qed.

Lemma prop_set_ne (k k' : string) (v : JVal) (o : Obj) :
  k <> k' -> prop (JObj (obj_set k v o)) k' = prop (JObj o) k'.
Proof. intros H. unfold prop. by rewrite obj_get_set_ne. Qed.

Lemma key_index_None (k : string) (o : Obj) :
  key_index k o = None <-> k ∉ map fst o.
Proof.
  induction o as [|[k' v'] o IH]; cbn [key_index map fst].
  - split; [intros _; apply not_elem_of_nil | done].
  - rewrite not_elem_of_cons. destruct (String.eqb k k') eqn:E.
    + apply String.eqb_eq in E. split; [done | by intros [? _]].
    + apply String.eqb_neq in E. destruct (key_index k o); cbn [fmap option_fmap option_map].
      * split; [done|]. intros [_ H]. by apply IH in H.
      * split; [|done]. intros _. split; [done | by apply IH].
Qed.

Lemma key_index_lt (k : string) (o : Obj) (i : nat) :
  key_index k o = Some i -> i < length o.
Proof.
  revert i. induction o as [|[k' v'] o IH]; intros i; cbn [key_index length]; [done|].
  destruct (String.eqb k k'); [intros [= <-]; lia|].
  destruct (key_index k o) as [j|]; [|done].
  intros [= <-]. specialize (IH j eq_refl). lia.
Qed.

Lemma length_obj_set (k : string) (v : JVal) (o : Obj) :
  length o <= length (obj_set k v o).
Proof.
  induction o as [|[k' v'] o IH]; cbn [obj_set length]; [lia|].
  destruct (String.eqb k k'); cbn [length]; lia.
Qed.

Lemma key_index_set_old (k k' : string) (v : JVal) (o : Obj) (i : nat) :
  key_index k o = Some i -> key_index k (obj_set k' v o) = Some i.
Proof.
  revert i. induction o as [|[k0 v0] o IH]; intros i; cbn [key_index obj_set]; [done|].
  destruct (String.eqb k' k0) eqn:E'; cbn [key_index].
  - apply String.eqb_eq in E' as ->. done.
  - destruct (String.eqb k k0); [done|].
    destruct (key_index k o) as [j|]; [|done].
    by rewrite (IH j eq_refl).
Qed.

Lemma key_index_set_new (k : string) (v : JVal) (o : Obj) :
  key_index k o = None -> key_index k (obj_set k v o) = Some (length o).
Proof.
  induction o as [|[k0 v0] o IH]; cbn [key_index obj_set length].
  - by rewrite String.eqb_refl.
  - destruct (String.eqb k k0) eqn:E; [done|]. cbn [key_index]. rewrite E.
    destruct (key_index k o); [done|]. intros _. by rewrite IH.
Qed.

Lemma key_index_set_other (k k' : string) (v : JVal) (o : Obj) :
  k <> k' -> key_index k o = None -> key_index k (obj_set k' v o) = None.
Proof.
  intros Hne. rewrite !key_index_None. intros Hk Hin. apply Hk. clear Hk.
  induction o as [|[k0 v0] o IH]; cbn [obj_set map fst] in *.
  - apply list_elem_of_singleton in Hin. done.
  - destruct (String.eqb k' k0) eqn:E; cbn [map fst] in Hin.
    + apply String.eqb_eq in E as ->. done.
    + apply elem_of_cons in Hin as [->|Hin]; [left | right; by apply IH].
Qed.

Lemma assign_cons (t : Obj) (k : string) (v : JVal) (s : Obj) :
  obj_assign t ((k, v) :: s) = obj_assign (obj_set k v t) s.
Proof. reflexivity. Qed.

Lemma assign_length (s t : Obj) : length t <= length (obj_assign t s).
Proof.
  revert t. induction s as [|[k v] s IH]; intros t; [done|].
  rewrite assign_cons. pose proof (length_obj_set k v t). specialize (IH (obj_set k v t)). lia.
Qed.

Lemma assign_old (k : string) (s t : Obj) (i : nat) :
  key_index k t = Some i -> key_index k (obj_assign t s) = Some i.
Proof.
  revert t. induction s as [|[k' v] s IH]; intros t H; [done|].
  rewrite assign_cons. apply IH. by apply key_index_set_old.
Qed.

Lemma assign_new (k : string) (s t : Obj) :
  key_index k t = None -> k ∈ map fst s ->
  exists j, key_index k (obj_assign t s) = Some j /\ length t <= j.
Proof.
  revert t. induction s as [|[k' v] s IH]; intros t Hn Hin;
    [by apply elem_of_nil in Hin|].
  rewrite assign_cons. destruct (decide (k = k')) as [<-|Hne].
  - exists (length t). split; [|done]. apply assign_old. by apply key_index_set_new.
  - cbn [map fst] in Hin. apply elem_of_cons in Hin as [?|Hin]; [done|].
    destruct (IH (obj_set k' v t)) as (j & Hj & Hle); [by apply key_index_set_other|done|].
    exists j. split; [done|]. pose proof (length_obj_set k' v t). lia.
Qed.

Lemma assign_None (k : string) (s t : Obj) :
  key_index k t = None -> k ∉ map fst s -> key_index k (obj_assign t s) = None.
Proof.
  revert t. induction s as [|[k' v] s IH]; intros t Hn Hin; [done|].
  rewrite assign_cons. cbn [map fst] in Hin. apply not_elem_of_cons in Hin as [? ?].
  apply IH; [|done]. by apply key_index_set_other.
Qed.

Lemma assign_in (k : string) (s t : Obj) :
  k ∈ map fst s -> exists i, key_index k (obj_assign t s) = Some i.
Proof.
  intros Hin. destruct (key_index k t) as [i|] eqn:E.
  - exists i. by apply assign_old.
  - destruct (assign_new k s t E Hin) as (j & Hj & _). by exists j.
Qed.

(** Keys of a merge: those of the base output keep the place the merge
    gave them, and a key that is new in the overlay comes after all of
    them. *)
Lemma assign_assign_order (a b e : Obj) (kb ke : string) :
  kb ∈ map fst b -> ke ∈ map fst e ->
  ke ∉ map fst a -> ke ∉ map fst b ->
  exists i j,
    key_index kb (obj_assign (obj_assign a b) e) = Some i
    /\ key_index ke (obj_assign (obj_assign a b) e) = Some j
    /\ i < j.
Proof.
  intros Hb He Ha Hnb.
  destruct (assign_in kb b a Hb) as (i & Hi).
  assert (key_index ke (obj_assign a b) = None) as Hnone
    by (apply assign_None; [by apply key_index_None | done]).
  destruct (assign_new ke e _ Hnone He) as (j & Hj & Hle).
  exists i, j. split; [by apply assign_old|]. split; [done|].
  apply key_index_lt in Hi. lia.
Qed.

Lemma keys_obj_set_in (k k' : string) (v : JVal) (o : Obj) :
  k' ∈ map fst (obj_set k v o) -> k' = k \/ k' ∈ map fst o.
Proof.
  induction o as [|[k0 v0] o IH]; cbn [obj_set map fst].
  - intros ?%list_elem_of_singleton. by left.
  - destruct (String.eqb k k0) eqn:E; cbn [map fst].
    + intros [->|?]%elem_of_cons; [by left | right; by right].
    + intros [->|?]%elem_of_cons; [right; left|].
      destruct IH as [?|?]; [done | by left | right; by right].
Qed.

Lemma prefix_app_r (p q s : string) :
  String.prefix p q = true -> String.prefix p (q +:+ s) = true.
Proof.
  intros H. rewrite (prefix_split _ _ H), append_assoc. apply prefix_app.
Qed.

Lemma prefix_refl (q : string) : String.prefix q q = true.
Proof.
  induction q as [|c q IH]; [done|]. simpl.
  destruct (ascii_dec c c); [done | congruence].
Qed.

Lemma foldM_ext {A B : Type} (f g : A -> B -> option A) (l : list B) (a : A) :
  (forall x b, b ∈ l -> f x b = g x b) -> foldM f l a = foldM g l a.
Proof.
  revert a. induction l as [|b l IH]; intros a H; [done|].
  cbn [foldM]. rewrite <- H by left.
  destruct (f a b); [|done]. apply IH. intros x b' Hb. apply H. by right.
Qed.

Lemma foldM_fixed {A B : Type} (f : A -> B -> option A) (l : list B) (a : A) :
  (forall b, b ∈ l -> f a b = Some a \/ f a b = None) ->
  foldM f l a = Some a \/ foldM f l a = None.
Proof.
  induction l as [|b l IH]; intros H; [by left|].
  cbn [foldM]. destruct (H b) as [-> | ->]; [left | | by right].
  apply IH. intros b' Hb. apply H. by right.
Qed.

(** *** Entries, keys and distinct keys *)

Lemma keys_obj_set_mono (k k' : string) (v : JVal) (o : Obj) :
  k ∈ map fst o -> k ∈ map fst (obj_set k' v o).
Proof.
  induction o as [|[k0 v0] o IH]; cbn [obj_set map fst].
  - by intros ?%elem_of_nil.
  - destruct (String.eqb k' k0) eqn:E; cbn [map fst].
    + apply String.eqb_eq in E as ->. done.
    + intros [->|?]%elem_of_cons; [left | right; by apply IH].
Qed.

Lemma elem_of_obj_set (k k' : string) (v v' : JVal) (o : Obj) :
  (k', v') ∈ obj_set k v o -> (k', v') = (k, v) \/ (k', v') ∈ o.
Proof.
  induction o as [|[k0 v0] o IH]; cbn [obj_set].
  - intros ->%list_elem_of_singleton. by left.
  - destruct (String.eqb k k0).
    + intros [->|?]%elem_of_cons; [by left | right; by right].
    + intros [->|?]%elem_of_cons; [right; left|].
      destruct IH as [?|?]; [done | by left | right; by right].
Qed.

Lemma obj_get_elem_of (k : string) (v : JVal) (o : Obj) :
  obj_get k o = Some v -> (k, v) ∈ o.
Proof.
  induction o as [|[k0 v0] o IH]; cbn [obj_get]; [done|].
  destruct (String.eqb k k0) eqn:E.
  - apply String.eqb_eq in E as ->. intros [= ->]. left.
  - intros H. right. by apply IH.
Qed.

Lemma keys_obj_set_new (k : string) (v : JVal) (o : Obj) :
  k ∈ map fst (obj_set k v o).
Proof.
  apply obj_get_Some_keys. rewrite obj_get_set_eq. by eexists.
Qed.

Lemma obj_set_fresh (k : string) (v : JVal) (o : Obj) :
  k ∉ map fst o -> obj_set k v o = (o ++ [(k, v)])%list.
Proof.
  induction o as [|[k0 v0] o IH]; cbn [obj_set map fst]; [done|].
  intros [Hne Hk]%not_elem_of_cons.
  apply String.eqb_neq in Hne. rewrite Hne. cbn [app]. by rewrite IH.
Qed.

Lemma obj_set_nodup (k : string) (v : JVal) (o : Obj) :
  NoDup (map fst o) -> NoDup (map fst (obj_set k v o)).
Proof.
  induction o as [|[k0 v0] o IH]; cbn [obj_set map fst].
  - intros _. apply NoDup_singleton.
  - intros [Hk0 Ho]%NoDup_cons. destruct (String.eqb k k0) eqn:E; cbn [map fst].
    + apply String.eqb_eq in E as ->. by apply NoDup_cons.
    + apply String.eqb_neq in E. apply NoDup_cons. split; [|by apply IH].
      intros [?|?]%keys_obj_set_in; congruence.
Qed.

Lemma obj_assign_nodup (src target : Obj) :
  NoDup (map fst target) -> NoDup (map fst (obj_assign target src)).
Proof.
  revert target. induction src as [|[k v] src IH]; intros target H; [done|].
  rewrite assign_cons. by apply IH, obj_set_nodup.
Qed.

Lemma obj_assign_disjoint (src target : Obj) :
  NoDup (map fst (target ++ src)) -> obj_assign target src = (target ++ src)%list.
Proof.
  revert target. induction src as [|[k v] src IH]; intros target Hnd.
  - by rewrite app_nil_r.
  - rewrite assign_cons.
    assert (k ∉ map fst target) as Hk.
    { rewrite map_app in Hnd. apply NoDup_app in Hnd as (_ & Hd & _).
      intros Hin. apply (Hd k Hin). left. }
    rewrite obj_set_fresh by done.
    rewrite IH; rewrite <- app_assoc; done.
Qed.

Lemma NoDup_entries (o : Obj) : NoDup (map fst o) -> NoDup o.
Proof.
  induction o as [|[k v] o IH]; [intros _; apply NoDup_nil_2|].
  cbn [map fst]. intros [Hk Hnd]%NoDup_cons. apply NoDup_cons. split; [|by apply IH].
  intros Hin. apply Hk. apply list_elem_of_fmap. by exists (k, v).
Qed.

Lemma NoDup_key_value (o : Obj) (k : string) (v v' : JVal) :
  NoDup (map fst o) -> (k, v) ∈ o -> (k, v') ∈ o -> v = v'.
Proof.
  induction o as [|[k0 v0] o IH]; [by intros _ ?%elem_of_nil|].
  cbn [map fst]. intros [Hk Hnd]%NoDup_cons H1 H2.
  assert (forall x, (k0, x) ∈ o -> False) as Hno.
  { intros x Hx. apply Hk. apply list_elem_of_fmap. by exists (k0, x). }
  apply elem_of_cons in H1 as [E1|H1], H2 as [E2|H2].
  - congruence.
  - injection E1 as -> _. by destruct (Hno _ H2).
  - injection E2 as -> _. by destruct (Hno _ H1).
  - by apply IH.
Qed.

Lemma keys_filter (P : string * JVal -> Prop) `{!forall kv, Decision (P kv)}
    (k : string) (o : Obj) :
  k ∈ map fst (filter P o) -> exists v, (k, v) ∈ o /\ P (k, v).
Proof.
  intros ((k' & v) & -> & [HP Hin]%list_elem_of_filter)%list_elem_of_fmap.
  by exists v.
Qed.

Lemma filter_ne_length (x : string) (l : list string) :
  x ∈ l -> length (filter (fun y => y <> x) l) < length l.
Proof.
  induction l as [|y l IH]; [by intros ?%elem_of_nil|].
  intros Hin. rewrite filter_cons. cbn [length].
  destruct (decide (y <> x)) as [Hne|Heq].
  - cbn [length]. apply elem_of_cons in Hin as [?|Hin]; [done|].
    specialize (IH Hin). lia.
  - pose proof (length_filter (fun y => y <> x) l). lia.
Qed.

(** *** Searching a list of keys *)

Lemma find_exists {A : Type} (P : A -> bool) (l : list A) (x : A) :
  x ∈ l -> P x = true -> exists y, find P l = Some y /\ P y = true /\ y ∈ l.
Proof.
  intros Hin Hx. destruct (find P l) as [y|] eqn:E.
  - apply find_some in E as [Hy ?]. exists y. by rewrite list_elem_of_In.
  - apply list_elem_of_In in Hin. pose proof (find_none _ _ E _ Hin). congruence.
Qed.

Lemma find_eqb_key (k : string) (l : list string) :
  k ∈ l -> find (String.eqb k) l = Some k.
Proof.
  induction l as [|x l IH]; [by intros ?%elem_of_nil|].
  cbn [find]. destruct (String.eqb k x) eqn:E.
  - apply String.eqb_eq in E as ->. done.
  - apply String.eqb_neq in E. intros [?|?]%elem_of_cons; [done | by apply IH].
Qed.

Lemma attr_key (v : JVal) (k s : string) : attr v k = Some s -> k ∈ keys v.
Proof.
  unfold attr, prop. destruct v; try done.
  destruct (obj_get k o) eqn:E; [|done]. intros _.
  apply obj_get_Some_keys. by rewrite E.
Qed.

Lemma includes_nonempty (n p : string) :
  p <> "" -> includes n p = true -> n <> "".
Proof. intros Hp H ->. cbn in H. destruct p; [done | discriminate]. Qed.

Lemma endsWith_nonempty (k s : string) :
  s <> "" -> endsWith k s = true -> k <> "".
Proof.
  intros Hs H ->. unfold endsWith in H. destruct s; [done|]. discriminate.
Qed.

(** *** Properties kept by a loop *)

Lemma foldM_invariant {A B : Type} (I : A -> Prop) (f : A -> B -> option A)
    (l : list B) (a r : A) :
  (forall x b y, b ∈ l -> f x b = Some y -> I x -> I y) ->
  foldM f l a = Some r -> I a -> I r.
Proof.
  revert a. induction l as [|b l IH]; intros a Hf; cbn [foldM];
    [by intros [= <-]|].
  destruct (f a b) as [y|] eqn:E; [|done]. intros H Ha.
  apply (IH y); [|done|].
  - intros x b' y' Hb. apply Hf. by right.
  - apply (Hf a b y); [left | done..].
Qed.

Lemma obj_set_Forall (P : string * JVal -> Prop) (k : string) (v : JVal) (o : Obj) :
  P (k, v) -> Forall P o -> Forall P (obj_set k v o).
Proof.
  intros Hv. induction o as [|[k0 v0] o IH]; cbn [obj_set].
  - intros _. by apply Forall_singleton.
  - intros [H0 Ho]%Forall_cons. destruct (String.eqb k k0); apply Forall_cons; auto.
Qed.

Lemma obj_assign_Forall (P : string * JVal -> Prop) (src target : Obj) :
  Forall P src -> Forall P target -> Forall P (obj_assign target src).
Proof.
  intros Hs. revert target. induction Hs as [|[k v] src Hkv _ IH]; intros target Ht;
    [done|].
  rewrite assign_cons. by apply IH, obj_set_Forall.
Qed.

End JSFacts.


(** ** Facts about the schema index *)

Module SchemaContextFacts.

Import SchemaContext Spec JSFacts.

Lemma collectRoot_cons (schemaRoot : JVal) (key : string) (ks : list string) (ns : Obj) :
  collectRoot schemaRoot (key :: ks) ns
  = collectRoot schemaRoot ks
      (if startsWith key "@_xmlns:"
       then obj_set (drop_chars 8 key) (prop schemaRoot key) ns
       else ns).
Proof. reflexivity. Qed.

Lemma collectRoot_get (schemaRoot : JVal) (p : string) (ks : list string) (ns : Obj) :
  obj_get p (collectRoot schemaRoot ks ns)
  = if bool_decide ("@_xmlns:" +:+ p ∈ ks)
    then Some (prop schemaRoot ("@_xmlns:" +:+ p))
    else obj_get p ns.
Proof.
  revert ns. induction ks as [|key ks IH]; intros ns; [done|].
  rewrite collectRoot_cons, IH. clear IH.
  destruct (decide ("@_xmlns:" +:+ p ∈ ks)) as [Hin|Hin].
  { rewrite !bool_decide_eq_true_2; [done | by right | done]. }
  rewrite (bool_decide_eq_false_2 _ Hin).
  destruct (decide (key = "@_xmlns:" +:+ p)) as [->|Hne].
  - rewrite bool_decide_eq_true_2 by left.
    pose proof (proj2 (starts_drop_iff "@_xmlns:" _ p) eq_refl) as [-> Hd].
    change (String.length "@_xmlns:") with 8 in Hd. rewrite Hd.
    apply obj_get_set_eq.
  - rewrite bool_decide_eq_false_2.
    2:{ intros [?|?]%elem_of_cons; [congruence|done]. }
    destruct (startsWith key "@_xmlns:") eqn:Hs; [|done].
    apply obj_get_set_ne. intros Hd. apply Hne.
    apply (starts_drop_iff "@_xmlns:"). by split.
Qed.

Lemma getNamespaces_unfold (ctx : t) :
  getNamespaces ctx
  = fold_left
      (fun namespaces schemaRoot =>
         if negb (truthy schemaRoot) then namespaces
         else collectRoot schemaRoot (keys schemaRoot) namespaces)
      (map snd (schemas ctx)) [].
Proof. reflexivity. Qed.

Lemma roots_silent (p : string) (roots : list JVal) (ns : Obj) :
  Forall (silent p) roots ->
  obj_get p
    (fold_left
       (fun namespaces schemaRoot =>
          if negb (truthy schemaRoot) then namespaces
          else collectRoot schemaRoot (keys schemaRoot) namespaces)
       roots ns)
  = obj_get p ns.
Proof.
  intros H. revert ns. induction H as [|r roots Hr _ IH]; intros ns; [done|].
  cbn [fold_left]. rewrite IH.
  destruct (truthy r) eqn:Ht; [|done]. cbn [negb].
  rewrite collectRoot_get, bool_decide_eq_false_2; [done | by apply Hr].
Qed.

(** C2, amended: the prefix bindings of the stored schema roots are merged
    into one object, and a prefix declared by several roots is bound to the
    URI of the root visited last (an assignment overwrites what an earlier
    root wrote). *)
Theorem getNamespaces_last_write_wins (ctx : t) (before after : Obj)
    (ns : string) (schemaRoot : JVal) (p : string) :
  schemas ctx = (before ++ (ns, schemaRoot) :: after)%list ->
  truthy schemaRoot = true ->
  "@_xmlns:" +:+ p ∈ keys schemaRoot ->
  Forall (silent p) (map snd after) ->
  obj_get p (getNamespaces ctx) = Some (prop schemaRoot ("@_xmlns:" +:+ p)).
Proof.
  intros Hs Ht Hin Hafter.
  rewrite getNamespaces_unfold, Hs, map_app, fold_left_app.
  cbn [map fold_left snd]. rewrite roots_silent by done.
  rewrite Ht. cbn [negb].
  rewrite collectRoot_get, bool_decide_eq_true_2; done.
Qed.
(** The prefix [p] of the two example schemas ends up bound to the URI
    of [b.xsd], the root visited last. *)
Lemma getNamespaces_last_write_wins_witness :
  obj_get "p" (getNamespaces Examples.ctxAB) = Some (JStr "urn:second").
Proof.
  apply (getNamespaces_last_write_wins Examples.ctxAB
           [("urn:a", Examples.rootA)] [] "urn:b" Examples.rootB "p").
  - vm_compute. reflexivity.
  - reflexivity.
  - vm_compute. set_solver.
  - constructor.
Defined.

(** C2 as stated fails: [a.xsd] is visited first and binds [p] to
    [urn:first], yet the merged mapping holds [urn:second]. *)
Lemma getNamespaces_first_write_lost : ~ first_write_wins Examples.ctxAB.
Proof.
  intros H.
  specialize (H [] [("urn:b", Examples.rootB)] "urn:a" Examples.rootA "p").
  assert (obj_get "p" (getNamespaces Examples.ctxAB) = Some (JStr "urn:second")) as E
    by (vm_compute; reflexivity).
  rewrite H in E.
  - discriminate E.
  - vm_compute. reflexivity.
  - reflexivity.
  - vm_compute. set_solver.
  - constructor.
Qed.


Section LoadingFacts.

Variable resolve : string -> string.
Variable nextPath : string -> string -> string.
Variable readSchema : string -> option JVal.

#[local] Abbreviation load := (loadSchema resolve nextPath readSchema).

(** The import loop of [loadSchema], with the recursive call it makes. *)
#[local] Abbreviation followRefs fuel filePath :=
  (foldM (fun c ref =>
            if truthyS (attr ref "@_schemaLocation")
            then load fuel c (nextPath filePath (key_of (attr ref "@_schemaLocation")))
            else Some c)).

Lemma indexSchema_processed (schemaRoot : JVal) (ctx : t) :
  processedFiles (indexSchema schemaRoot ctx) = processedFiles ctx.
Proof. reflexivity. Qed.

Lemma loadSchema_processed (fuel : nat) (ctx : t) (filePath : string) :
  resolve filePath ∈ processedFiles ctx ->
  load (S fuel) ctx filePath = Some ctx.
Proof. intros H. cbn [loadSchema]. by rewrite decide_True. Qed.

Lemma loadSchema_fuel_mono (fuel : nat) :
  forall (fuel' : nat) (ctx ctx' : t) (filePath : string),
    fuel <= fuel' ->
    load fuel ctx filePath = Some ctx' -> load fuel' ctx filePath = Some ctx'.
Proof.
  induction fuel as [|fuel IH]; intros fuel' ctx ctx' filePath Hle; [done|].
  destruct fuel' as [|fuel']; [lia|]. cbn [loadSchema].
  destruct (decide _); [done|].
  destruct (readSchema _) as [json|]; [|done].
  destruct (find _ _) as [schemaKey|]; [|done].
  destruct (foldM _ _ _) as [ctx2|] eqn:E; [|done].
  intros [= <-].
  erewrite foldM_mono; [done| |exact E].
  intros x ref y. cbn beta.
  destruct (truthyS _); [|done]. apply IH. lia.
Qed.

Section Finite.

Variable files : gset string.
Hypothesis files_complete : forall p, is_Some (readSchema p) -> p ∈ files.

Lemma pending_shrinks (p : string) (done : gset string) :
  p ∈ files -> p ∉ done ->
  size (files ∖ ({[ p ]} ∪ done)) < size (files ∖ done).
Proof. intros Hin Hnot. apply subset_size. set_solver. Qed.

Lemma pending_mono (done done' : gset string) :
  done ⊆ done' -> size (files ∖ done') <= size (files ∖ done).
Proof. intros H. apply subseteq_size. set_solver. Qed.

Lemma loadSchema_total (fuel : nat) :
  forall (ctx : t) (filePath : string),
    size (files ∖ processedFiles ctx) < fuel ->
    exists ctx', load fuel ctx filePath = Some ctx'
                 /\ processedFiles ctx ⊆ processedFiles ctx'.
Proof.
  induction fuel as [|fuel IH]; intros ctx filePath Hsz; [lia|].
  cbn [loadSchema].
  destruct (decide (resolve filePath ∈ processedFiles ctx)) as [Hin|Hnot];
    [by exists ctx|].
  destruct (readSchema (resolve filePath)) as [json|] eqn:Hread;
    [|by exists ctx].
  destruct (find (tagged "schema") (keys json)) as [schemaKey|];
    [|by exists ctx].
  set (schemaRoot := prop json schemaKey).
  set (ctx1 := mk _ _ _ _ _).
  assert (resolve filePath ∈ files) as Hfile by (apply files_complete; by rewrite Hread).
  assert (size (files ∖ processedFiles ctx1) < fuel) as Hsz1.
  { pose proof (pending_shrinks _ _ Hfile Hnot). simpl. lia. }
  assert (forall refs c,
             processedFiles ctx1 ⊆ processedFiles c ->
             exists c', followRefs fuel filePath refs c = Some c'
                        /\ processedFiles c ⊆ processedFiles c') as Hrefs.
  { induction refs as [|ref refs IHrefs]; intros c Hc; [by exists c|].
    cbn [foldM].
    destruct (truthyS (attr ref "@_schemaLocation")).
    - destruct (IH c (nextPath filePath (key_of (attr ref "@_schemaLocation"))))
        as (c1 & -> & Hc1).
      { pose proof (pending_mono _ _ Hc). lia. }
      destruct (IHrefs c1) as (c' & Hc' & Hsub); [set_solver|].
      exists c'. split; [done | set_solver].
    - by apply IHrefs. }
  destruct (Hrefs (ensureArray schemaRoot "import" ++ ensureArray schemaRoot "include")%list
              ctx1) as (ctx2 & -> & Hsub); [done|].
  eexists. split; [done|]. rewrite indexSchema_processed.
  subst ctx1. simpl in Hsub. set_solver.
Qed.

(** C8: a call for a file whose resolved path is already in the
    processed set returns at once and leaves the index as it is, and
    over a finite set of schema files every call returns, whatever the
    import and include references are (cycles included). *)
Theorem loadSchema_idempotent_total (fuel : nat) (ctx : t) (filePath : string) :
  size (files ∖ processedFiles ctx) < fuel ->
  is_Some (load fuel ctx filePath)
  /\ (resolve filePath ∈ processedFiles ctx -> load fuel ctx filePath = Some ctx).
Proof.
  intros Hsz. split.
  - destruct (loadSchema_total fuel ctx filePath Hsz) as (ctx' & -> & _). by eexists.
  - destruct fuel as [|fuel]; [lia|]. apply loadSchema_processed.
Qed.

End Finite.

End LoadingFacts.

Lemma filesCycle_complete (p : string) :
  is_Some (Examples.filesCycle p) -> p ∈ ({[ "a.xsd"; "b.xsd" ]} : gset string).
Proof.
  unfold Examples.filesCycle.
  destruct (String.eqb p "a.xsd") eqn:Ea; [apply String.eqb_eq in Ea; set_solver|].
  destruct (String.eqb p "b.xsd") eqn:Eb; [apply String.eqb_eq in Eb; set_solver|].
  by intros [? ?].
Qed.

(** The two schemas that import each other are loaded with fuel 3. *)
Lemma loadSchema_idempotent_total_witness :
  is_Some (loadSchema Examples.resolve0 Examples.nextPath0 Examples.filesCycle
             3 empty "a.xsd")
  /\ (Examples.resolve0 "a.xsd" ∈ processedFiles empty ->
      loadSchema Examples.resolve0 Examples.nextPath0 Examples.filesCycle
        3 empty "a.xsd" = Some empty).
Proof.
  apply (loadSchema_idempotent_total Examples.resolve0 Examples.nextPath0
           Examples.filesCycle {[ "a.xsd"; "b.xsd" ]} filesCycle_complete 3 empty "a.xsd").
  vm_compute. lia.
Defined.

Lemma entityKey_namespaced (tns : option string) (n b : string) :
  truthyS tns = true -> startsWith b "{" = false -> entityKey tns n <> b.
Proof.
  intros Ht Hb Heq. unfold entityKey in Heq. rewrite Ht in Heq. subst b.
  unfold startsWith in Hb. by rewrite prefix_app in Hb.
Qed.

(** The qualified key of an entity holds that entity once it is indexed. *)
Lemma indexEntity_qualified (tns : option string) (schemaRoot : JVal)
    (table : Obj) (el : JVal) :
  truthyS (attr el "@_name") = true ->
  prop (JObj (indexEntity tns schemaRoot table el))
       (entityKey tns (key_of (attr el "@_name")))
  = JObj (obj_set "_schema" schemaRoot (spread el)).
Proof.
  intros Hn. unfold indexEntity. rewrite Hn.
  set (n := key_of (attr el "@_name")).
  set (e := JObj (obj_set "_schema" schemaRoot (spread el))).
  destruct (truthy (prop (JObj (obj_set (entityKey tns n) e table)) n)) eqn:Hb;
    cbn [negb].
  - apply prop_set_eq.
  - destruct (decide (entityKey tns n = n)) as [Heq|Hne].
    + rewrite Heq in Hb. by rewrite prop_set_eq in Hb.
    + rewrite prop_set_ne by done. rewrite !prop_set_eq. done.
Qed.

Section BareKeys.

Variable b : string.
Hypothesis b_bare : startsWith b "{" = false.

Lemma indexEntity_keeps (tns : option string) (schemaRoot : JVal)
    (table : Obj) (el : JVal) :
  truthyS tns = true ->
  truthy (prop (JObj table) b) = true ->
  prop (JObj (indexEntity tns schemaRoot table el)) b = prop (JObj table) b.
Proof.
  intros Ht Hb. unfold indexEntity.
  destruct (truthyS (attr el "@_name")); [|done].
  set (n := key_of (attr el "@_name")).
  pose proof (entityKey_namespaced tns n b Ht b_bare) as Hk.
  destruct (truthy (prop (JObj (obj_set (entityKey tns n) _ table)) n)) eqn:Hn;
    cbn [negb].
  - by apply prop_set_ne.
  - destruct (decide (n = b)) as [->|Hne].
    + rewrite prop_set_ne in Hn by done. congruence.
    + rewrite !prop_set_ne by done. done.
Qed.

Lemma indexAll_keeps (tns : option string) (schemaRoot : JVal)
    (items : list JVal) (table : Obj) :
  truthyS tns = true ->
  truthy (prop (JObj table) b) = true ->
  prop (JObj (indexAll tns schemaRoot items table)) b = prop (JObj table) b.
Proof.
  intros Ht. unfold indexAll. revert table.
  induction items as [|el items IH]; intros table Hb; [done|].
  cbn [fold_left]. rewrite IH; rewrite indexEntity_keeps; done.
Qed.

Lemma bare_key_kept_refl (ctx : t) : bare_key_kept b ctx ctx.
Proof. by intros table _ _. Qed.

Lemma bare_key_kept_trans (c1 c2 c3 : t) :
  bare_key_kept b c1 c2 -> bare_key_kept b c2 c3 -> bare_key_kept b c1 c3.
Proof.
  intros H12 H23 table Ht Hb.
  rewrite <- (H12 table Ht Hb). apply H23; [done|].
  by rewrite (H12 table Ht Hb).
Qed.

Lemma indexSchema_keeps (schemaRoot : JVal) (ctx : t) :
  truthyS (attr schemaRoot "@_targetNamespace") = true ->
  bare_key_kept b ctx (indexSchema schemaRoot ctx).
Proof.
  intros Ht table [->|[->| ->]] Hb; cbn [indexSchema elements types groups].
  - by apply indexAll_keeps.
  - rewrite indexAll_keeps; [by apply indexAll_keeps | done |].
    by rewrite indexAll_keeps.
  - by apply indexAll_keeps.
Qed.

Variable resolve : string -> string.
Variable nextPath : string -> string -> string.
Variable readSchema : string -> option JVal.
Hypothesis namespaced : all_namespaced readSchema.

Lemma loadSchema_keeps (fuel : nat) :
  forall (ctx ctx' : t) (filePath : string),
    loadSchema resolve nextPath readSchema fuel ctx filePath = Some ctx' ->
    bare_key_kept b ctx ctx'.
Proof.
  induction fuel as [|fuel IH]; intros ctx ctx' filePath; [done|].
  cbn [loadSchema].
  destruct (decide _); [intros [= <-]; apply bare_key_kept_refl|].
  destruct (readSchema (resolve filePath)) as [json|] eqn:Hread;
    [|intros [= <-]; apply bare_key_kept_refl].
  destruct (find (tagged "schema") (keys json)) as [schemaKey|] eqn:Hkey;
    [|intros [= <-]; apply bare_key_kept_refl].
  pose proof (namespaced _ _ _ Hread Hkey) as Hns.
  set (schemaRoot := prop json schemaKey) in *.
  set (ctx1 := mk _ _ _ _ _).
  assert (bare_key_kept b ctx ctx1) as H1.
  { intros table [->|[->| ->]] _; reflexivity. }
  generalize (ensureArray schemaRoot "import" ++ ensureArray schemaRoot "include")%list.
  intros refs. revert H1. generalize ctx1. clear ctx1.
  induction refs as [|ref refs IHrefs]; intros c Hc; cbn [foldM].
  - intros [= <-]. eapply bare_key_kept_trans; [done|]. by apply indexSchema_keeps.
  - destruct (truthyS (attr ref "@_schemaLocation")); [|by apply IHrefs].
    destruct (loadSchema _ _ _ fuel c _) as [c1|] eqn:Hc1; [|done].
    apply IHrefs. eapply bare_key_kept_trans; [done|]. by eapply IH.
Qed.

(** C7, amended: for each of the element, type and group tables, an
    entity registered under a bare local name is not replaced by loading
    schemas that declare a target namespace, and every indexed entity is
    stored under its qualified key. (A schema without target namespace
    has the bare name as its qualified key and does overwrite it.) *)
Theorem loadSchema_bare_key_first_wins (fuel : nat) (ctx ctx' : t) (filePath : string) :
  loadSchema resolve nextPath readSchema fuel ctx filePath = Some ctx' ->
  bare_key_kept b ctx ctx'
  /\ (forall (tns : option string) (schemaRoot : JVal) (table : Obj) (el : JVal),
        truthyS (attr el "@_name") = true ->
        prop (JObj (indexEntity tns schemaRoot table el))
             (entityKey tns (key_of (attr el "@_name")))
        = JObj (obj_set "_schema" schemaRoot (spread el))).
Proof.
  intros H. split; [by eapply loadSchema_keeps | apply indexEntity_qualified].
Qed.

End BareKeys.

Lemma filesFooNs_namespaced : all_namespaced Examples.filesFooNs.
Proof.
  intros p json schemaKey. unfold Examples.filesFooNs.
  destruct (String.eqb p "a.xsd"); [intros [= <-] [= <-]; reflexivity|].
  destruct (String.eqb p "b.xsd"); [intros [= <-] [= <-]; reflexivity|].
  done.
Qed.

(** Loading [b.xsd], whose [Foo] lives in [urn:b], after [a.xsd] keeps the
    [Foo] of [a.xsd] under the bare key. *)
Lemma loadSchema_bare_key_first_wins_witness :
  bare_key_kept "Foo" Examples.ctxFooA Examples.ctxFooAB
  /\ (forall (tns : option string) (schemaRoot : JVal) (table : Obj) (el : JVal),
        truthyS (attr el "@_name") = true ->
        prop (JObj (indexEntity tns schemaRoot table el))
             (entityKey tns (key_of (attr el "@_name")))
        = JObj (obj_set "_schema" schemaRoot (spread el))).
Proof.
  apply (loadSchema_bare_key_first_wins "Foo" eq_refl
           Examples.resolve0 Examples.nextPath0 Examples.filesFooNs
           filesFooNs_namespaced 3 Examples.ctxFooA Examples.ctxFooAB "b.xsd").
  vm_compute. reflexivity.
Defined.

(** C7 as stated fails: [n.xsd] has no target namespace, so its [Foo] is
    registered under the key [Foo] itself and replaces the entity that
    [a.xsd] had left under that bare key. *)
Lemma loadSchema_bare_key_overwritten :
  loadSchema Examples.resolve0 Examples.nextPath0 Examples.filesFoo
    3 Examples.ctxFooA "n.xsd" = Some Examples.ctxFooAN
  /\ ~ bare_key_kept "Foo" Examples.ctxFooA Examples.ctxFooAN.
Proof.
  split; [vm_compute; reflexivity|].
  intros H. specialize (H elements (or_introl eq_refl)).
  assert (truthy (prop (JObj (elements Examples.ctxFooA)) "Foo") = true) as Ht
    by (vm_compute; reflexivity).
  specialize (H Ht). vm_compute in H. discriminate H.
Qed.

End SchemaContextFacts.

(** ** Facts about the generator *)

Module XMLGeneratorFacts.

Import SchemaContext XMLGenerator Spec JSFacts.

Section Attributes.

Variable this : XMLGenerator.t.
Variable currentPath : string.
Variable name : string.

#[local] Abbreviation probed := (Spec.probed this currentPath name).
#[local] Abbreviation unfixed := (Spec.unfixed name).

Lemma processAttribute_other (a : JVal) (res : Obj) :
  attr a "@_name" <> Some name ->
  obj_get ("@_" +:+ name) (processAttribute this currentPath res a)
  = obj_get ("@_" +:+ name) res.
Proof.
  intros Hn. unfold processAttribute.
  destruct (attr a "@_name") as [n|] eqn:En; [|done].
  assert ("@_" +:+ n <> "@_" +:+ name) as Hk
    by (intros ?%app_inj_l; congruence).
  cbn [key_of].
  repeat match goal with |- context [if ?b then _ else _] => destruct b end;
    try done; by apply obj_get_set_ne.
Qed.

Lemma processAttribute_same (a : JVal) (res : Obj) :
  name <> "" -> attr a "@_name" = Some name -> unfixed a ->
  obj_get ("@_" +:+ name) (processAttribute this currentPath res a)
  = if is_undefined (getValueFromConfig this (currentPath +:+ "/@" +:+ name))
    then obj_get ("@_" +:+ name) res
    else probed.
Proof.
  intros Hne Hn Hf. unfold processAttribute, Spec.probed.
  rewrite Hn, (Hf Hn). cbn [truthyS key_of].
  apply String.eqb_neq in Hne. rewrite Hne. cbn [negb].
  destruct (is_undefined _); [done|]. apply obj_get_set_eq.
Qed.

Lemma processAttributes_keep (attrs : list JVal) (res : Obj) :
  name <> "" -> Forall unfixed attrs ->
  obj_get ("@_" +:+ name) res = probed ->
  obj_get ("@_" +:+ name) (fold_left (processAttribute this currentPath) attrs res)
  = probed.
Proof.
  intros Hne Hall. revert res.
  induction Hall as [|a attrs Ha _ IH]; intros res Hres; [done|].
  cbn [fold_left]. apply IH.
  destruct (decide (attr a "@_name" = Some name)) as [Hn|Hn].
  - rewrite processAttribute_same by done.
    by destruct (is_undefined _).
  - by rewrite processAttribute_other.
Qed.

Lemma processAttributes_first (attrs : list JVal) (res : Obj) :
  name <> "" -> Forall unfixed attrs ->
  Exists (fun a => attr a "@_name" = Some name) attrs ->
  obj_get ("@_" +:+ name) res = None ->
  obj_get ("@_" +:+ name) (fold_left (processAttribute this currentPath) attrs res)
  = probed.
Proof.
  intros Hne Hall Hex. revert res Hall.
  induction Hex as [a attrs Ha|a attrs _ IH]; intros res Hall Hres;
    apply Forall_cons in Hall as [Hu Hall]; cbn [fold_left].
  - apply processAttributes_keep; [done..|].
    rewrite processAttribute_same by done.
    unfold Spec.probed. by destruct (is_undefined _).
  - destruct (decide (attr a "@_name" = Some name)) as [Hn|Hn].
    + apply processAttributes_keep; [done..|].
      rewrite processAttribute_same by done.
      unfold Spec.probed. by destruct (is_undefined _).
    + apply IH; [done|]. by rewrite processAttribute_other.
Qed.

(** C1, amended: for a declared attribute without fixed value,
    [processAttributes] probes the configuration at [path/@name] only; the
    entry [@_name] is written exactly when that probe finds a value, and
    holds that value. The path [path/name] is not consulted. *)
Theorem processAttributes_sigil_probe (parentDef : JVal) (res : Obj) :
  name <> "" ->
  Exists (fun a => attr a "@_name" = Some name) (ensureArray parentDef "attribute") ->
  Forall (fun a => attr a "@_name" = Some name -> truthyS (attr a "@_fixed") = false)
         (ensureArray parentDef "attribute") ->
  obj_get ("@_" +:+ name) res = None ->
  obj_get ("@_" +:+ name) (processAttributes this parentDef currentPath res)
  = if is_undefined (getValueFromConfig this (currentPath +:+ "/@" +:+ name))
    then None
    else Some (getValueFromConfig this (currentPath +:+ "/@" +:+ name)).
Proof.
  intros Hne Hex Hall Hres. unfold processAttributes.
  by rewrite processAttributes_first.
Qed.

End Attributes.

(** With the value configured under [P/@id] the attribute is written. *)
Lemma processAttributes_sigil_probe_witness :
  obj_get "@_id" (processAttributes Examples.genSigil Examples.typeWithId "P" [])
  = Some (JStr "7").
Proof.
  apply (processAttributes_sigil_probe Examples.genSigil "P" "id" Examples.typeWithId []).
  - discriminate.
  - vm_compute. left. reflexivity.
  - vm_compute. repeat constructor.
  - reflexivity.
Defined.

(** C1 as stated fails: the value sits under [P/id], the second probe of
    the claim, and no attribute entry is written. *)
Lemma processAttributes_no_fallback :
  ~ attribute_fallback Examples.genBare Examples.typeWithId "P" "id".
Proof.
  intros [_ H].
  assert (is_Some (obj_get "@_id"
            (processAttributes Examples.genBare Examples.typeWithId "P" []))) as [v Hv].
  { apply H. right. vm_compute. discriminate. }
  vm_compute in Hv. discriminate Hv.
Qed.


Section ArrayScan.

Variable this : XMLGenerator.t.
Variable pe : string -> option JVal.
Variable el : JVal.
Variable currentPath elName : string.

#[local] Abbreviation scan := (scanItems this pe el currentPath elName).
#[local] Abbreviation pathOf := (itemPath this currentPath elName).

Lemma isSingleton_later (idx : nat) :
  isSingleton this currentPath elName (S idx) = false.
Proof. reflexivity. Qed.

Lemma scanItems_spec (n : nat) :
  forall (idx : nat) (acc items : list JVal),
    scan n idx acc = Some items ->
    exists new,
      items = (acc ++ new)%list
      /\ (forall i c, new !! i = Some c ->
            visited this pe currentPath elName (idx + i) c)
      /\ (1 < length new -> isSingleton this currentPath elName idx = false)
      /\ stopped this pe currentPath elName idx (length new).
Proof.
  induction n as [|n IH]; intros idx acc items; [done|].
  cbn [scanItems].
  destruct (hasConfigPrefix this (pathOf idx)) eqn:Hp; cbn [negb].
  2:{ intros [= <-]. exists []. rewrite app_nil_r.
      repeat split; try done; [simpl; intros; lia|].
      right; left. simpl. by rewrite Nat.add_0_r. }
  destruct (pe (pathOf idx)) as [c|] eqn:Hc; [|done].
  destruct (truthy c) eqn:Ht.
  2:{ assert (Some acc = Some items ->
              exists new, items = (acc ++ new)%list
                /\ (forall i c, new !! i = Some c ->
                      visited this pe currentPath elName (idx + i) c)
                /\ (1 < length new -> isSingleton this currentPath elName idx = false)
                /\ stopped this pe currentPath elName idx (length new)) as Hstop.
      { intros [= <-]. exists []. rewrite app_nil_r.
        repeat split; try done; [simpl; intros; lia|].
        right; right. exists c. simpl. by rewrite Nat.add_0_r. }
      by destruct (isMandatory el). }
  destruct (isSingleton this currentPath elName idx) eqn:Hs.
  { intros [= <-]. exists [c]. split; [done|].
    split; [|split; [simpl; intros; lia | by left]].
    intros [|i] c'; [|done]. intros [= <-]. rewrite Nat.add_0_r. done. }
  intros H. apply IH in H as (new & -> & Hnew & _ & Hstop).
  exists (c :: new). split; [by rewrite <- app_assoc|].
  split; [|split; [done|]].
  - intros [|i] c'.
    + intros [= <-]. rewrite Nat.add_0_r. done.
    + intros Hi. replace (idx + S i) with (S idx + i) by lia. by apply Hnew.
  - destruct Hstop as [[Hsing _]|Hstop].
    { by rewrite isSingleton_later in Hsing. }
    right. cbn [length]. by replace (idx + S (length new)) with (S idx + length new) by lia.
Qed.

End ArrayScan.

Section Children.

Variable this : XMLGenerator.t.

Lemma attr_spread_set (d : JVal) (k k' s : string) (v : JVal) :
  attr d k = Some s -> k' <> k ->
  attr (JObj (obj_set k' v (spread d))) k = Some s.
Proof.
  intros Ha Hne. unfold attr in *.
  destruct d; try done. cbn [spread]. by rewrite prop_set_ne.
Qed.

Lemma truthyS_Some (o : option string) :
  truthyS o = true -> o = Some (key_of o).
Proof. by destruct o. Qed.

(** The name under which a child is emitted is the [@_name] of the
    declaration it resolved to. *)
Lemma resolveChild_own_name (parentDef el d : JVal) (name : string) :
  resolveChild this parentDef el = Some (d, name) ->
  attr d "@_name" = Some name.
Proof.
  unfold resolveChild.
  set (resolved := if truthyS (refOf this el) then _ else _).
  assert (forall e n, resolved = Some (e, n) -> n = attr e "@_name") as Hres.
  { subst resolved. intros e n.
    destruct (truthyS (refOf this el)); [|by intros [= <- <-]].
    match goal with |- context [negb (truthy ?x)] => destruct (negb (truthy x)) end;
      [done | by intros [= <- <-]]. }
  destruct resolved as [[e n]|]; [|done].
  specialize (Hres e n eq_refl). subst n.
  destruct (truthyS (attr e "@_name")) eqn:Hn; cbn [negb]; [|done].
  apply truthyS_Some in Hn.
  intros [= <- <-].
  destruct (_ && _); [|done]. rewrite Hn at 1. by apply attr_spread_set.
Qed.

Lemma resolveChild_unresolvable (parentDef el : JVal) :
  unresolvable this el -> resolveChild this parentDef el = None.
Proof.
  intros (Hr & Hd & Hl). unfold resolveChild. rewrite Hr, Hd. cbn [negb andb].
  destruct (includes _ ":"); [rewrite Hl by done | rewrite Hd]; done.
Qed.

Lemma processChild_skip (pe : JVal -> string -> option JVal) (n : nat)
    (parentDef : JVal) (currentPath : string) (result : Obj) (el : JVal) :
  resolveChild this parentDef el = None ->
  processChild this pe n parentDef currentPath result el = Some result.
Proof. intros H. unfold processChild. by rewrite H. Qed.

(** A child either leaves the result as it is or writes one key, the
    qualified own name of the declaration it resolved to. *)
Lemma processChild_key (pe : JVal -> string -> option JVal) (n : nat)
    (parentDef : JVal) (currentPath : string) (result r' : Obj) (el : JVal) :
  processChild this pe n parentDef currentPath result el = Some r' ->
  r' = result
  \/ exists d name c,
       resolveChild this parentDef el = Some (d, name)
       /\ attr d "@_name" = Some name
       /\ r' = obj_set (qualify (getPrefix this (namespaceOf d)) name) c result.
Proof.
  unfold processChild.
  destruct (resolveChild this parentDef el) as [[d name]|] eqn:Hr;
    [|intros [= <-]; by left].
  pose proof (resolveChild_own_name _ _ _ _ Hr) as Hn.
  destruct (isArray el).
  - destruct (scanItems _ _ _ _ _ _ _ _) as [items|]; [|done].
    destruct (0 <? length items)%nat; intros [= <-]; [right|by left].
    by exists d, name, (JArr items).
  - destruct (pe d _) as [c|]; [|done].
    destruct (negb (is_null c)); intros [= <-]; [right|by left].
    by exists d, name, c.
Qed.

(** C4: the array emitted for a child in array mode holds, at each
    position [i], the content produced for configuration index [i], every
    such index has configuration below its path, and the scan ended at
    the first index without configuration or without content (or after
    the single item read from the path without index).  With indices 0
    and 2 configured and index 1 not, at most the item of index 0 is
    emitted. *)
Theorem array_index_contiguous (pe : JVal -> string -> option JVal) (n : nat)
    (parentDef : JVal) (currentPath : string) (result r' : Obj)
    (el d : JVal) (name : string) :
  isArray el = true ->
  resolveChild this parentDef el = Some (d, name) ->
  processChild this pe n parentDef currentPath result el = Some r' ->
  exists items,
    r' = (if (0 <? length items)%nat
          then obj_set (childKey this d name) (JArr items) result
          else result)
    /\ (forall i c, items !! i = Some c ->
          visited this (pe d) currentPath name i c)
    /\ (1 < length items -> isSingleton this currentPath name 0 = false)
    /\ stopped this (pe d) currentPath name 0 (length items)
    /\ (hasConfigPrefix this (indexedPath currentPath name 1) = false ->
        length items <= 1).
Proof.
  intros Ha Hr. unfold processChild. rewrite Hr, Ha.
  destruct (scanItems _ _ _ _ _ _ _ _) as [items|] eqn:Hs; [|done].
  intros [= <-]. exists items. split; [done|].
  apply scanItems_spec in Hs as (new & -> & Hnew & Hsing & Hstop).
  cbn [app]. split; [exact Hnew|]. split; [exact Hsing|]. split; [exact Hstop|].
  intros Hno. destruct new as [|c0 [|c1 new]]; [simpl; lia..|].
  destruct (Hnew 1 c1 eq_refl) as (Hp & _). cbn [Nat.add] in Hp.
  unfold itemPath in Hp. rewrite isSingleton_later in Hp. congruence.
Qed.

(** C9: a falsy scalar (0, false, the empty string) produced for an
    array item is dropped and ends the scan, so nothing is added for that
    index or any later one; the same value produced for a singleton child
    is written to the result. *)
Theorem falsy_scalar_asymmetry (pe : JVal -> string -> option JVal) (n : nat)
    (parentDef : JVal) (currentPath : string) (result : Obj)
    (el d : JVal) (name : string) (c : JVal) :
  resolveChild this parentDef el = Some (d, name) ->
  c ∈ [JNum 0; JBool false; JStr ""] ->
  (forall idx items,
      hasConfigPrefix this (itemPath this currentPath name idx) = true ->
      pe d (itemPath this currentPath name idx) = Some c ->
      scanItems this (pe d) el currentPath name (S n) idx items = Some items)
  /\ (isArray el = true ->
      hasConfigPrefix this (itemPath this currentPath name 0) = true ->
      pe d (itemPath this currentPath name 0) = Some c ->
      processChild this pe (S n) parentDef currentPath result el = Some result)
  /\ (isArray el = false ->
      pe d (singletonPath currentPath name) = Some c ->
      processChild this pe n parentDef currentPath result el
      = Some (obj_set (childKey this d name) c result)).
Proof.
  intros Hr Hc.
  assert (truthy c = false /\ is_null c = false) as [Hf Hnn].
  { repeat (apply elem_of_cons in Hc as [->|Hc]; [done|]). by apply elem_of_nil in Hc. }
  assert (forall idx items,
             hasConfigPrefix this (itemPath this currentPath name idx) = true ->
             pe d (itemPath this currentPath name idx) = Some c ->
             scanItems this (pe d) el currentPath name (S n) idx items = Some items)
    as Hscan.
  { intros idx items Hp He. cbn [scanItems]. rewrite Hp, He, Hf. cbn [negb].
    by destruct (isMandatory el). }
  split; [done|]. split.
  - intros Ha Hp He. unfold processChild. rewrite Hr, Ha, (Hscan 0 [] Hp He). done.
  - intros Ha He. unfold processChild. rewrite Hr, Ha, He, Hnn. done.
Qed.

(** C10: the key of the object returned by [generate] is the name the
    caller passed, as it was passed, under the prefix of the resolved
    element's namespace; a child key written by [processGroup] is built
    from the [@_name] of the declaration the child resolved to. *)
Theorem generate_root_key_verbatim (fuel : nat)
    (rootElementName startPath : string) (typeOverride : option string)
    (v : JVal) :
  generate this fuel rootElementName startPath typeOverride = Some (Returns v) ->
  v <> JNull ->
  (exists content,
      v = JObj [(qualify (getPrefix this (namespaceOf (resolveRoot this rootElementName)))
                         rootElementName,
                 content)])
  /\ (forall (pe : JVal -> string -> option JVal) (n : nat) (parentDef : JVal)
             (currentPath : string) (result r' : Obj) (el : JVal),
        processChild this pe n parentDef currentPath result el = Some r' ->
        r' = result
        \/ exists d name c,
             resolveChild this parentDef el = Some (d, name)
             /\ attr d "@_name" = Some name
             /\ r' = obj_set (qualify (getPrefix this (namespaceOf d)) name) c result).
Proof.
  intros Hg Hv. split; [|apply processChild_key].
  unfold generate in Hg.
  destruct (negb (truthy (resolveRoot this rootElementName))); [done|].
  match type of Hg with
  | match ?content with _ => _ end = _ => destruct content as [c|]; [|done]
  end.
  injection Hg as <-. destruct (is_null c); [done|]. by exists c.
Qed.

End Children.

(** With indices 0 and 2 of [Items] configured, the array holds the item
    of index 0 alone. *)
Lemma array_index_contiguous_witness :
  exists items,
    [("t:Items", JArr [JNum 10])]
    = (if (0 <? length items)%nat
       then obj_set (childKey (Examples.genT Examples.configGap)
                       Examples.itemsDecl "Items") (JArr items) []
       else [])
    /\ (forall i c, items !! i = Some c ->
          visited (Examples.genT Examples.configGap)
            (processElement (Examples.genT Examples.configGap) 5 Examples.itemsDecl)
            "Root" "Items" i c)
    /\ (1 < length items ->
        isSingleton (Examples.genT Examples.configGap) "Root" "Items" 0 = false)
    /\ stopped (Examples.genT Examples.configGap)
         (processElement (Examples.genT Examples.configGap) 5 Examples.itemsDecl)
         "Root" "Items" 0 (length items)
    /\ (hasConfigPrefix (Examples.genT Examples.configGap)
          (indexedPath "Root" "Items" 1) = false ->
        length items <= 1).
Proof.
  apply (array_index_contiguous (Examples.genT Examples.configGap)
           (processElement (Examples.genT Examples.configGap) 5) 5
           Examples.rootTypeT "Root" [] [("t:Items", JArr [JNum 10])]
           Examples.itemsEl Examples.itemsDecl "Items").
  - reflexivity.
  - vm_compute. reflexivity.
  - vm_compute. reflexivity.
Defined.

Example generate_gap :
  generate (Examples.genT Examples.configGap) 5 "Root" "Root" None
  = Some (Returns (JObj [("t:Root", JObj [("t:Items", JArr [JNum 10])])])).
Proof. vm_compute. reflexivity. Qed.

(** The number 0 configured for the singleton [Child] is written. *)
Lemma falsy_scalar_asymmetry_witness :
  (forall idx items,
      hasConfigPrefix (Examples.genT Examples.configZeroChild)
        (itemPath (Examples.genT Examples.configZeroChild) "Root" "Child" idx) = true ->
      processElement (Examples.genT Examples.configZeroChild) 5 Examples.childDecl
        (itemPath (Examples.genT Examples.configZeroChild) "Root" "Child" idx)
      = Some (JNum 0) ->
      scanItems (Examples.genT Examples.configZeroChild)
        (processElement (Examples.genT Examples.configZeroChild) 5 Examples.childDecl)
        Examples.childEl "Root" "Child" 6 idx items = Some items)
  /\ (isArray Examples.childEl = true ->
      hasConfigPrefix (Examples.genT Examples.configZeroChild)
        (itemPath (Examples.genT Examples.configZeroChild) "Root" "Child" 0) = true ->
      processElement (Examples.genT Examples.configZeroChild) 5 Examples.childDecl
        (itemPath (Examples.genT Examples.configZeroChild) "Root" "Child" 0)
      = Some (JNum 0) ->
      processChild (Examples.genT Examples.configZeroChild)
        (processElement (Examples.genT Examples.configZeroChild) 5) 6
        Examples.rootTypeT "Root" [] Examples.childEl = Some [])
  /\ (isArray Examples.childEl = false ->
      processElement (Examples.genT Examples.configZeroChild) 5 Examples.childDecl
        (singletonPath "Root" "Child") = Some (JNum 0) ->
      processChild (Examples.genT Examples.configZeroChild)
        (processElement (Examples.genT Examples.configZeroChild) 5) 5
        Examples.rootTypeT "Root" [] Examples.childEl
      = Some (obj_set (childKey (Examples.genT Examples.configZeroChild)
                         Examples.childDecl "Child") (JNum 0) [])).
Proof.
  apply (falsy_scalar_asymmetry (Examples.genT Examples.configZeroChild)
           (processElement (Examples.genT Examples.configZeroChild) 5) 5
           Examples.rootTypeT "Root" [] Examples.childEl Examples.childDecl
           "Child" (JNum 0)).
  - vm_compute. reflexivity.
  - left.
Defined.

(** At the entry point: 0 under index 0 of [Items] empties the array,
    although index 1 is configured; 0 under [Child] is emitted. *)
Example generate_zero_item :
  generate (Examples.genT Examples.configZeroItem) 5 "Root" "Root" None
  = Some (Returns JNull).
Proof. vm_compute. reflexivity. Qed.

Example generate_zero_child :
  generate (Examples.genT Examples.configZeroChild) 5 "Root" "Root" None
  = Some (Returns (JObj [("t:Root", JObj [("t:Child", JNum 0)])])).
Proof. vm_compute. reflexivity. Qed.

(** The reference to [t:Missing] is passed over and its siblings are
    emitted; an unknown root name throws. *)
Example generate_missing_ref :
  unresolvable (Examples.genT []) Examples.missingRef
  /\ generate (Examples.genT [("Root/Child", JStr "x"); ("Root/Other", JStr "y")])
       5 "Root" "Root" None
     = Some (Returns (JObj [("t:Root",
               JObj [("t:Child", JStr "x"); ("t:Other", JStr "y")])]))
  /\ generate (Examples.genT []) 5 "t:Nowhere" "Root" None
     = Some (Throws "Root element not found: t:Nowhere").
Proof. repeat split; vm_compute; (reflexivity || done). Qed.

(** ** A type that contains itself *)

Section SelfReference.

Variable config : Obj.

#[local] Abbreviation this := (Examples.genNode config).

Lemma nodeType_of_child :
  typeOfElement this Examples.nodeChildDecl = Examples.nodeTypeDecl.
Proof. vm_compute. reflexivity. Qed.

Lemma nodeType_of_root :
  typeOfElement this Examples.nodeDecl = Examples.nodeTypeDecl.
Proof. vm_compute. reflexivity. Qed.

Lemma nodeType_child :
  resolveChild this Examples.nodeTypeDecl Examples.nodeChild
  = Some (Examples.nodeChildDecl, "child").
Proof. vm_compute. reflexivity. Qed.

(** The type is processed by processing its child, with less fuel. *)
Lemma nodeType_unbounded (fuel : nat) :
  (forall fuel' path, fuel' < fuel ->
     processElement this fuel' Examples.nodeChildDecl path = None) ->
  forall path, processComplexType this fuel Examples.nodeTypeDecl path = None.
Proof.
  intros IH path. destruct fuel as [|fuel]; [done|]. cbn [processComplexType].
  assert (find (tagged "complexContent") (keys Examples.nodeTypeDecl) = None) as ->
    by (vm_compute; reflexivity).
  assert (processGroup this fuel Examples.nodeTypeDecl path = None) as ->; [|done].
  destruct fuel as [|fuel]; [done|]. cbn [processGroup].
  assert (groupKeyOf Examples.nodeTypeDecl = Some "xs:sequence") as ->
    by (vm_compute; reflexivity).
  assert (ensureArray (prop Examples.nodeTypeDecl "xs:sequence") "element"
          = [Examples.nodeChild]) as -> by (vm_compute; reflexivity).
  cbn [foldM]. unfold processChild. rewrite nodeType_child.
  assert (isArray Examples.nodeChild = false) as -> by (vm_compute; reflexivity).
  by rewrite IH by lia.
Qed.

Lemma nodeChild_unbounded (fuel : nat) (path : string) :
  processElement this fuel Examples.nodeChildDecl path = None.
Proof.
  revert path. induction fuel as [fuel IH] using lt_wf_ind. intros path.
  destruct fuel as [|fuel]; [done|]. cbn [processElement].
  rewrite nodeType_of_child.
  assert (isLeafType Examples.nodeTypeDecl = false) as -> by (vm_compute; reflexivity).
  apply nodeType_unbounded. intros fuel' path' Hlt. apply IH. lia.
Qed.

(** C5: [generate] raises with the root resolved.  [Node] is declared and
    is found as given; its type has an optional child of that same type.
    The child is a single occurrence, so it is processed without any look
    at the configuration, and so is its own child: whatever the
    configuration and the start path are, the recursion has no bound, and
    the run ends in a [RangeError] and not in a document. *)
Theorem generate_self_reference_unbounded (startPath : string) :
  truthy (resolveRoot this "Node") = true
  /\ overflows this "Node" startPath None.
Proof.
  split; [vm_compute; reflexivity|]. intros fuel. unfold generate.
  assert (resolveRoot this "Node" = Examples.nodeDecl) as ->
    by (vm_compute; reflexivity).
  assert (truthy Examples.nodeDecl = true) as -> by (vm_compute; reflexivity).
  cbn [negb truthyS andb].
  assert (processElement this fuel Examples.nodeDecl startPath = None) as ->; [|done].
  destruct fuel as [|fuel]; [done|]. cbn [processElement].
  rewrite nodeType_of_root.
  assert (isLeafType Examples.nodeTypeDecl = false) as -> by (vm_compute; reflexivity).
  apply nodeType_unbounded. intros fuel' path _. apply nodeChild_unbounded.
Qed.

End SelfReference.

(** The array branch looks at the configuration before it processes an
    item: with the child declared unbounded, the same tree schema yields a
    result, here with nothing configured. *)
Example generate_self_reference_guarded :
  generate (Examples.genNodes []) 4 "Node" "Node" None = Some (Returns JNull).
Proof. vm_compute. reflexivity. Qed.

(** The root is asked for as [t:Root]: it resolves through the local part
    to the element named [Root], and the emitted key is [t:t:Root]. *)
Lemma generate_root_key_verbatim_witness :
  (exists content,
      JObj [("t:t:Root", JObj [("t:Child", JNum 0)])]
      = JObj [(qualify (getPrefix (Examples.genT Examples.configZeroChild)
                          (namespaceOf (resolveRoot (Examples.genT Examples.configZeroChild)
                                          "t:Root")))
                       "t:Root",
               content)])
  /\ (forall (pe : JVal -> string -> option JVal) (n : nat) (parentDef : JVal)
             (currentPath : string) (result r' : Obj) (el : JVal),
        processChild (Examples.genT Examples.configZeroChild) pe n parentDef
          currentPath result el = Some r' ->
        r' = result
        \/ exists d name c,
             resolveChild (Examples.genT Examples.configZeroChild) parentDef el
             = Some (d, name)
             /\ attr d "@_name" = Some name
             /\ r' = obj_set (qualify (getPrefix (Examples.genT Examples.configZeroChild)
                                         (namespaceOf d)) name) c result).
Proof.
  apply (generate_root_key_verbatim (Examples.genT Examples.configZeroChild)
           5 "t:Root" "Root" None).
  - vm_compute. reflexivity.
  - discriminate.
Defined.

Example generate_root_key_differs :
  attr (resolveRoot (Examples.genT Examples.configZeroChild) "t:Root") "@_name"
  = Some "Root"
  /\ generate (Examples.genT Examples.configZeroChild) 5 "t:Root" "Root" None
     = Some (Returns (JObj [("t:t:Root", JObj [("t:Child", JNum 0)])])).
Proof. split; vm_compute; reflexivity. Qed.

Section Extension.

Variable this : XMLGenerator.t.

Lemma processAttributes_keys (parentDef : JVal) (currentPath : string) (res : Obj)
    (k : string) :
  k ∈ map fst (processAttributes this parentDef currentPath res) ->
  k ∈ map fst res \/ startsWith k "@_" = true.
Proof.
  unfold processAttributes.
  generalize (ensureArray parentDef "attribute"). intros attrs. revert res.
  induction attrs as [|a attrs IH]; intros res; cbn [fold_left]; [by left|].
  intros [H|H]%IH; [|by right].
  unfold processAttribute in H.
  repeat match type of H with
         | context [if ?b then _ else _] => destruct b
         end; try by left.
  all: apply keys_obj_set_in in H as [->|?]; [right; apply prefix_app | by left].
Qed.

(** C6, amended: in the result of a type that extends a base type, every
    key of the base type's output comes before every child key that the
    extension's own content model adds. (A key the extension produces again
    is overlaid in place, at the position the base output gave it.) *)
Theorem extension_fields_after_base (fuel : nat) (typeDef extension baseDef : JVal)
    (currentPath : string) (base extInfo r : Obj) (ke : string) :
  extension_of typeDef extension ->
  truthyS (attr extension "@_base") = true ->
  baseDef = findType (ctx this) (attr extension "@_base") (prop typeDef "_schema") ->
  truthy baseDef = true ->
  processComplexType this fuel baseDef currentPath = Some (JObj base) ->
  processGroup this fuel
    (JObj (obj_set "_schema" (prop typeDef "_schema") (spread extension)))
    currentPath = Some extInfo ->
  processComplexType this (S fuel) typeDef currentPath = Some (JObj r) ->
  ke ∈ map fst extInfo -> ke ∉ map fst base -> startsWith ke "@_" = false ->
  after_base base r ke.
Proof.
  intros (contentKey & extensionKey & Hc & He & ->) Hb -> Ht Hbase Hext Hr
         Hke Hnew Hchild kb Hkb.
  cbn [processComplexType] in Hr. rewrite Hc, He, Hb, Ht in Hr.
  cbn [andb] in Hr. rewrite Hbase, Hext in Hr. cbn [spread] in Hr.
  unfold finish in Hr. destruct (0 <? length _)%nat; [|done].
  injection Hr as <-.
  apply assign_assign_order; try done.
  intros [H|H]%processAttributes_keys; [by apply elem_of_nil in H | congruence].
Qed.

End Extension.

(** In the derived example type, [c] is new in the extension and comes
    after the base keys [a] and [b]. *)
Lemma extension_fields_after_base_witness :
  after_base Examples.baseOutD Examples.mergedOutD "c".
Proof.
  apply (extension_fields_after_base Examples.genD 4 Examples.derivedDeclD
           Examples.derivedExtension Examples.baseDeclD "P"
           Examples.baseOutD Examples.extOutD Examples.mergedOutD "c").
  - exists "xs:complexContent", "xs:extension". repeat split; vm_compute; reflexivity.
  - reflexivity.
  - vm_compute. reflexivity.
  - reflexivity.
  - vm_compute. reflexivity.
  - vm_compute. reflexivity.
  - vm_compute. reflexivity.
  - vm_compute. set_solver.
  - vm_compute. set_solver.
  - reflexivity.
Defined.

(** C6 as stated fails: the extension names [a] again; its value is
    overlaid where the base output put [a], before the base field [b]. *)
Lemma extension_overlay_in_place :
  processComplexType Examples.genD 4 Examples.baseDeclD "P"
  = Some (JObj Examples.baseOutD)
  /\ processGroup Examples.genD 4
       (JObj (obj_set "_schema" (prop Examples.derivedDeclD "_schema")
                (spread Examples.derivedExtension))) "P"
     = Some Examples.extOutD
  /\ processComplexType Examples.genD 5 Examples.derivedDeclD "P"
     = Some (JObj Examples.mergedOutD)
  /\ ~ base_before_extension Examples.baseOutD Examples.extOutD Examples.mergedOutD.
Proof.
  repeat split; try (vm_compute; reflexivity).
  intros H.
  destruct (H "a" ltac:(vm_compute; set_solver) "b" ltac:(vm_compute; set_solver))
    as (i & j & Hi & Hj & Hlt).
  vm_compute in Hi, Hj. injection Hi as <-. injection Hj as <-. lia.
Qed.

(** *** Absence of configuration *)

Section NoFixed.

Lemma noFixed_prop (v : JVal) (k : string) :
  noFixed v = true -> noFixed (prop v k) = true.
Proof.
  destruct v as [| | | | |l|o]; try done. cbn [noFixed prop].
  induction o as [|[k' x] o IH]; cbn [forallb obj_get]; [done|].
  intros [[_ Hx]%andb_prop Ho]%andb_prop.
  destruct (String.eqb k k'); [done | by apply IH].
Qed.

Lemma noFixed_attr_fixed (a : JVal) :
  noFixed a = true -> truthyS (attr a "@_fixed") = false.
Proof.
  unfold attr. destruct a as [| | | | |l|o]; try done. cbn [noFixed prop].
  induction o as [|[k' x] o IH]; cbn [forallb obj_get]; [done|].
  intros [[Hk _]%andb_prop Ho]%andb_prop.
  destruct (String.eqb "@_fixed" k') eqn:E; [|by apply IH].
  apply String.eqb_eq in E as <-. cbn [default].
  rewrite String.eqb_refl in Hk. cbn [andb] in Hk.
  destruct x; try done. by apply negb_true_iff in Hk.
Qed.

Lemma noFixed_ensureArray (v x : JVal) (suffix : string) :
  noFixed v = true -> x ∈ ensureArray v suffix -> noFixed x = true.
Proof.
  intros Hv. unfold ensureArray.
  destruct (find _ _) as [m|]; [|by intros ?%elem_of_nil].
  pose proof (noFixed_prop v m Hv) as Hm.
  destruct (prop v m) as [| | | | |l|o] eqn:E;
    try (intros ->%list_elem_of_singleton; done).
  cbn [noFixed] in Hm. intros Hx.
  rewrite forallb_forall in Hm. apply Hm. by apply list_elem_of_In.
Qed.

Lemma noFixed_spread (v : JVal) :
  noFixed v = true -> noFixed (JObj (spread v)) = true.
Proof. by destruct v. Qed.

Lemma noFixed_set (k : string) (x : JVal) (o : Obj) :
  k <> "@_fixed" -> noFixed x = true -> noFixed (JObj o) = true ->
  noFixed (JObj (obj_set k x o)) = true.
Proof.
  intros Hk Hx. apply String.eqb_neq in Hk. cbn [noFixed].
  induction o as [|[k' x'] o IH]; cbn [obj_set forallb].
  - intros _. by rewrite Hk, Hx.
  - intros [H1 H2]%andb_prop. destruct (String.eqb k k'); cbn [forallb].
    + by rewrite Hk, Hx, H2.
    + by rewrite H1, IH.
Qed.

Lemma noFixed_with_schema (parent v : JVal) :
  noFixed parent = true -> noFixed v = true ->
  noFixed (JObj (obj_set "_schema" (prop parent "_schema") (spread v))) = true.
Proof.
  intros Hp Hv. apply noFixed_set; [done | by apply noFixed_prop | by apply noFixed_spread].
Qed.

Lemma noFixed_lookupByName (table : Obj) (name : option string) :
  noFixed (JObj table) = true -> noFixed (lookupByName table name) = true.
Proof.
  intros H. unfold lookupByName.
  repeat case_match; try done; by apply noFixed_prop.
Qed.

Lemma noFixed_findType (ctx : SchemaContext.t) (name : option string) (schema : JVal) :
  noFixed (JObj (types ctx)) = true -> noFixed (findType ctx name schema) = true.
Proof.
  intros H. unfold findType.
  repeat case_match; try done; by apply noFixed_prop.
Qed.

Variable this : XMLGenerator.t.
Hypothesis index_ok : noFixedIndex (ctx this) = true.

Lemma index_elements : noFixed (JObj (elements (ctx this))) = true.
Proof.
  unfold noFixedIndex in index_ok.
  apply andb_prop in index_ok as [[? _]%andb_prop _]. done.
Qed.

Lemma index_types : noFixed (JObj (types (ctx this))) = true.
Proof.
  unfold noFixedIndex in index_ok.
  apply andb_prop in index_ok as [[_ ?]%andb_prop _]. done.
Qed.

Lemma index_groups : noFixed (JObj (groups (ctx this))) = true.
Proof. unfold noFixedIndex in index_ok. by apply andb_prop in index_ok as [_ ?]. Qed.

Lemma noFixed_typeOfElement (elementDef : JVal) :
  noFixed elementDef = true -> noFixed (typeOfElement this elementDef) = true.
Proof.
  intros H. unfold typeOfElement.
  repeat case_match; try done;
    first [ by apply noFixed_findType, index_types
          | apply noFixed_with_schema; [done | by apply noFixed_prop] ].
Qed.

Lemma noFixed_resolveChild (parentDef el d : JVal) (name : string) :
  noFixed parentDef = true -> noFixed el = true ->
  resolveChild this parentDef el = Some (d, name) -> noFixed d = true.
Proof.
  intros Hp He. unfold resolveChild.
  set (resolved := if truthyS (refOf this el) then _ else _).
  assert (forall e n, resolved = Some (e, n) -> noFixed e = true) as Hres.
  { subst resolved. intros e n. pose proof index_elements as Hi.
    repeat case_match; try done; intros [= <- <-]; try done;
      by apply noFixed_lookupByName. }
  destruct resolved as [[e n]|]; [|done].
  specialize (Hres e n eq_refl).
  repeat case_match; try done; intros [= <- <-]; [|done].
  by apply noFixed_with_schema.
Qed.

End NoFixed.

Section Unconfigured.

Variable this : XMLGenerator.t.
Variable p : string.
Hypothesis unconfigured : hasConfigPrefix this p = false.

#[local] Abbreviation bare := (withConfig this []).

Lemma no_prefix_below (q : string) :
  String.prefix p q = true -> hasConfigPrefix this q = false.
Proof.
  intros Hq. unfold hasConfigPrefix in *.
  apply not_true_is_false. intros (k & Hk & Hs)%existsb_exists.
  apply not_true_iff_false in unconfigured. apply unconfigured.
  apply existsb_exists. exists k. split; [done|].
  unfold startsWith in *. by eapply prefix_trans.
Qed.

Lemma no_value_below (q : string) :
  String.prefix p q = true -> getValueFromConfig this q = JUndef.
Proof.
  intros Hq. unfold getValueFromConfig, prop.
  destruct (obj_get q (config this)) as [v|] eqn:E; [|done].
  exfalso. apply no_prefix_below in Hq.
  apply not_true_iff_false in Hq. apply Hq.
  unfold hasConfigPrefix. apply existsb_exists. exists q. split.
  - apply list_elem_of_In, obj_get_Some_keys. by rewrite E.
  - apply prefix_refl.
Qed.

Lemma no_prefix_bare (q : string) : hasConfigPrefix bare q = false.
Proof. reflexivity. Qed.

Lemma no_value_bare (q : string) : getValueFromConfig bare q = JUndef.
Proof. reflexivity. Qed.

Lemma leafValue_below (q : string) :
  String.prefix p q = true -> leafValue this q = leafValue bare q.
Proof. intros Hq. unfold leafValue. by rewrite no_value_below, no_value_bare. Qed.

Lemma processAttributes_below (parentDef : JVal) (q : string) (res : Obj) :
  String.prefix p q = true ->
  processAttributes this parentDef q res = processAttributes bare parentDef q res.
Proof.
  intros Hq. unfold processAttributes.
  generalize (ensureArray parentDef "attribute"). intros attrs. revert res.
  induction attrs as [|a attrs IH]; intros res; [done|].
  cbn [fold_left]. rewrite IH. f_equal.
  unfold processAttribute. rewrite no_value_below by by apply prefix_app_r.
  by rewrite no_value_bare.
Qed.

Lemma scanItems_below (pe pe' : string -> option JVal) (el : JVal)
    (q name : string) (n : nat) :
  String.prefix p q = true ->
  scanItems this pe el q name n 0 [] = scanItems bare pe' el q name n 0 [].
Proof.
  intros Hq. destruct n as [|n]; [done|]. cbn [scanItems].
  unfold itemPath, isSingleton.
  rewrite !(no_prefix_below (indexedPath q name 0)) by by apply prefix_app_r.
  rewrite !(no_prefix_below (singletonPath q name)) by by apply prefix_app_r.
  rewrite !no_prefix_bare. cbn [Nat.eqb andb negb].
  by rewrite (no_prefix_below (indexedPath q name 0)) by by apply prefix_app_r.
Qed.

Lemma processChild_below (pe pe' : JVal -> string -> option JVal) (n : nat)
    (parentDef : JVal) (q : string) (result : Obj) (el : JVal) :
  String.prefix p q = true ->
  (forall d name, pe d (singletonPath q name) = pe' d (singletonPath q name)) ->
  processChild this pe n parentDef q result el
  = processChild bare pe' n parentDef q result el.
Proof.
  intros Hq Hpe. unfold processChild.
  change (resolveChild bare parentDef el) with (resolveChild this parentDef el).
  destruct (resolveChild this parentDef el) as [[d name]|]; [|done].
  change (childKey bare d name) with (childKey this d name).
  destruct (isArray el).
  - by rewrite (scanItems_below (pe d) (pe' d)).
  - by rewrite Hpe.
Qed.

(** Below a path that no configuration key extends, the three mutually
    recursive methods behave as they do over the empty configuration. *)
Lemma process_below (fuel : nat) :
  (forall def q, String.prefix p q = true ->
     processElement this fuel def q = processElement bare fuel def q)
  /\ (forall def q, String.prefix p q = true ->
        processComplexType this fuel def q = processComplexType bare fuel def q)
  /\ (forall def q, String.prefix p q = true ->
        processGroup this fuel def q = processGroup bare fuel def q).
Proof.
  induction fuel as [|fuel (IHe & IHc & IHg)]; [done|].
  split; [|split]; intros def q Hq.
  - cbn [processElement].
    change (typeOfElement bare def) with (typeOfElement this def).
    rewrite leafValue_below by done. by rewrite IHc.
  - cbn [processComplexType].
    change (ctx bare) with (ctx this).
    destruct (find _ (keys def)) as [contentKey|].
    + destruct (find _ (keys (prop def contentKey))) as [extensionKey|]; [|done].
      rewrite !processAttributes_below by done.
      rewrite IHc by done. by rewrite IHg.
    + rewrite processAttributes_below by done. by rewrite IHg.
  - cbn [processGroup].
    change (ctx bare) with (ctx this).
    destruct (groupKeyOf def) as [groupKey|]; [|done].
    erewrite (foldM_ext (processChild this _ _ _ _)).
    2:{ intros x b _. apply processChild_below; [done|].
        intros d name. apply IHe. by apply prefix_app_r. }
    destruct (foldM _ _ _) as [r1|]; [|done].
    erewrite (foldM_ext _ _ (ensureArray _ "choice")).
    2:{ intros x b _. unfold nestedGroup. by rewrite IHg. }
    destruct (foldM _ (ensureArray _ "choice") _) as [r2|]; [|done].
    erewrite (foldM_ext _ _ (ensureArray _ "sequence")).
    2:{ intros x b _. unfold nestedGroup. by rewrite IHg. }
    destruct (foldM _ (ensureArray _ "sequence") _) as [r3|]; [|done].
    apply foldM_ext. intros x b _. unfold namedGroup.
    change (ctx bare) with (ctx this). by rewrite IHg.
Qed.

End Unconfigured.

Section EmptyConfiguration.

Variable this : XMLGenerator.t.
Hypothesis index_ok : noFixedIndex (ctx this) = true.

#[local] Abbreviation bare := (withConfig this []).

Lemma processAttributes_bare (parentDef : JVal) (q : string) (res : Obj) :
  noFixed parentDef = true -> processAttributes bare parentDef q res = res.
Proof.
  intros Hd. unfold processAttributes.
  assert (forall a, a ∈ ensureArray parentDef "attribute" -> noFixed a = true) as Hall
    by (intros a; by apply noFixed_ensureArray).
  revert Hall. generalize (ensureArray parentDef "attribute"). intros attrs Hall.
  induction attrs as [|a attrs IH]; [done|].
  cbn [fold_left].
  assert (processAttribute bare q res a = res) as ->.
  { unfold processAttribute. rewrite (noFixed_attr_fixed a) by (apply Hall; left).
    by destruct (negb _). }
  apply IH. intros a' Ha'. apply Hall. by right.
Qed.

Lemma scanItems_bare (pe : string -> option JVal) (el : JVal) (q name : string)
    (n : nat) :
  scanItems bare pe el q name n 0 [] = Some []
  \/ scanItems bare pe el q name n 0 [] = None.
Proof. destruct n; [by right | by left]. Qed.

Lemma processChild_bare (pe : JVal -> string -> option JVal) (n : nat)
    (parentDef : JVal) (q : string) (result : Obj) (el : JVal) :
  noFixed parentDef = true -> noFixed el = true ->
  (forall d path, noFixed d = true -> pe d path = Some JNull \/ pe d path = None) ->
  processChild bare pe n parentDef q result el = Some result
  \/ processChild bare pe n parentDef q result el = None.
Proof.
  intros Hp He Hpe. unfold processChild.
  destruct (resolveChild bare parentDef el) as [[d name]|] eqn:Hr; [|by left].
  assert (noFixed d = true) as Hd
    by (eapply (noFixed_resolveChild bare); [done| | |exact Hr]; done).
  destruct (isArray el).
  - destruct (scanItems_bare (pe d) el q name n) as [-> | ->]; [by left | by right].
  - destruct (Hpe d (singletonPath q name) Hd) as [-> | ->]; [by left | by right].
Qed.

(** Over the empty configuration and a schema without fixed attributes
    nothing is produced. *)
Lemma process_bare (fuel : nat) :
  (forall def q, noFixed def = true ->
     processElement bare fuel def q = Some JNull
     \/ processElement bare fuel def q = None)
  /\ (forall def q, noFixed def = true ->
        processComplexType bare fuel def q = Some JNull
        \/ processComplexType bare fuel def q = None)
  /\ (forall def q, noFixed def = true ->
        processGroup bare fuel def q = Some []
        \/ processGroup bare fuel def q = None).
Proof.
  induction fuel as [|fuel (IHe & IHc & IHg)]; [by repeat split; right|].
  split; [|split]; intros def q Hd.
  - cbn [processElement].
    destruct (isLeafType _); [by left|].
    apply IHc. by apply (noFixed_typeOfElement bare).
  - cbn [processComplexType].
    destruct (find _ (keys def)) as [contentKey|].
    + destruct (find _ (keys (prop def contentKey))) as [extensionKey|]; [|by left].
      set (extension := prop (prop def contentKey) extensionKey).
      assert (noFixed extension = true) as Hx by (by do 2 apply noFixed_prop).
      rewrite processAttributes_bare by done.
      set (baseDef := findType _ _ _).
      assert (noFixed baseDef = true) as Hb
        by (apply noFixed_findType, (index_types bare); done).
      destruct (truthyS _ && truthy baseDef).
      * destruct (IHc baseDef q Hb) as [-> | ->]; [|by right]. cbn [spread obj_assign fold_left].
        destruct (IHg (JObj (obj_set "_schema" (prop def "_schema") (spread extension))) q)
          as [-> | ->]; [by apply noFixed_with_schema | by left | by right].
      * destruct (IHg (JObj (obj_set "_schema" (prop def "_schema") (spread extension))) q)
          as [-> | ->]; [by apply noFixed_with_schema | by left | by right].
    + rewrite processAttributes_bare by done.
      destruct (IHg def q Hd) as [-> | ->]; [by left | by right].
  - cbn [processGroup].
    destruct (groupKeyOf def) as [groupKey|]; [|by left].
    set (container := prop def groupKey).
    assert (noFixed container = true) as Hc by by apply noFixed_prop.
    assert (noFixed (prop def "_schema") = true) as Hs by by apply noFixed_prop.
    match goal with
    | |- context [foldM ?f (ensureArray container "element") []] =>
        destruct (foldM_fixed f (ensureArray container "element") []) as [-> | ->];
          [|idtac|by right]
    end.
    { intros el Hel. apply processChild_bare; [done | |exact IHe].
      exact (noFixed_ensureArray _ _ _ Hc Hel). }
    match goal with
    | |- context [foldM ?f (ensureArray container "choice") []] =>
        destruct (foldM_fixed f (ensureArray container "choice") []) as [-> | ->];
          [|idtac|by right]
    end.
    { intros ch Hch. unfold nestedGroup.
      destruct (IHg (JObj [("choice", ch); ("_schema", prop def "_schema")]) q)
        as [-> | ->]; [|by left|by right].
      cbn [noFixed forallb]. rewrite Hs, (noFixed_ensureArray _ _ _ Hc Hch). done. }
    match goal with
    | |- context [foldM ?f (ensureArray container "sequence") []] =>
        destruct (foldM_fixed f (ensureArray container "sequence") []) as [-> | ->];
          [|idtac|by right]
    end.
    { intros sq Hsq. unfold nestedGroup.
      destruct (IHg (JObj [("sequence", sq); ("_schema", prop def "_schema")]) q)
        as [-> | ->]; [|by left|by right].
      cbn [noFixed forallb]. rewrite Hs, (noFixed_ensureArray _ _ _ Hc Hsq). done. }
    apply foldM_fixed. intros g Hg. unfold namedGroup.
    set (groupDef := getGroup _ _).
    destruct (truthy groupDef); [|by left].
    destruct (IHg groupDef q) as [-> | ->]; [|by left|by right].
    apply noFixed_lookupByName, (index_groups bare). done.
Qed.

End EmptyConfiguration.



Example absence_without_fixed :
  processElement (Examples.genT [("Root/Child", JStr "x")]) 6 Examples.rootDeclT "Other"
  = Some JNull
  /\ noFixedIndex Examples.ctxT = true /\ noFixed Examples.rootDeclT = true.
Proof. repeat split; vm_compute; reflexivity. Qed.


Example generate_fixed_attribute :
  generate Examples.genH 8 "Doc" "Doc" None
  = Some (Returns (JObj [("Doc",
            JObj [("Hdr", JObj [("@_version", JStr "1.0")]); ("Body", JStr "x")])])).
Proof. vm_compute. reflexivity. Qed.

(** *** More fuel never changes a result *)

Section Fuel.

Variable this : XMLGenerator.t.

Lemma scanItems_mono (pe pe' : string -> option JVal) (el : JVal)
    (currentPath elName : string) (n : nat) :
  (forall path v, pe path = Some v -> pe' path = Some v) ->
  forall (n' idx : nat) (acc items : list JVal),
    n <= n' ->
    scanItems this pe el currentPath elName n idx acc = Some items ->
    scanItems this pe' el currentPath elName n' idx acc = Some items.
Proof.
  intros Hpe. induction n as [|n IH]; intros n' idx acc items Hle; [done|].
  destruct n' as [|n']; [lia|]. cbn [scanItems].
  destruct (negb _); [done|].
  destruct (pe _) as [c|] eqn:Hc; [|done]. rewrite (Hpe _ _ Hc).
  destruct (truthy c); [|done].
  destruct (isSingleton _ _ _ _); [done|]. apply IH. lia.
Qed.

Lemma processChild_mono (pe pe' : JVal -> string -> option JVal) (n n' : nat)
    (parentDef : JVal) (currentPath : string) (result r : Obj) (el : JVal) :
  (forall d path v, pe d path = Some v -> pe' d path = Some v) ->
  n <= n' ->
  processChild this pe n parentDef currentPath result el = Some r ->
  processChild this pe' n' parentDef currentPath result el = Some r.
Proof.
  intros Hpe Hle. unfold processChild.
  destruct (resolveChild this parentDef el) as [[d name]|]; [|done].
  destruct (isArray el).
  - destruct (scanItems this (pe d) _ _ _ _ _ _) as [items|] eqn:Hs; [|done].
    by rewrite (scanItems_mono (pe d) (pe' d) _ _ _ _ (Hpe d) _ _ _ _ Hle Hs).
  - destruct (pe d _) as [c|] eqn:Hc; [|done]. by rewrite (Hpe _ _ _ Hc).
Qed.

Lemma nestedGroup_mono (pg pg' : JVal -> string -> option Obj) (tag : string)
    (parentDef : JVal) (currentPath : string) (result r : Obj) (sub : JVal) :
  (forall d path v, pg d path = Some v -> pg' d path = Some v) ->
  nestedGroup pg tag parentDef currentPath result sub = Some r ->
  nestedGroup pg' tag parentDef currentPath result sub = Some r.
Proof.
  intros Hpg. unfold nestedGroup.
  destruct (pg _ _) as [e|] eqn:He; [|done]. by rewrite (Hpg _ _ _ He).
Qed.

Lemma namedGroup_mono (pg pg' : JVal -> string -> option Obj)
    (currentPath : string) (result r : Obj) (g : JVal) :
  (forall d path v, pg d path = Some v -> pg' d path = Some v) ->
  namedGroup this pg currentPath result g = Some r ->
  namedGroup this pg' currentPath result g = Some r.
Proof.
  intros Hpg. unfold namedGroup. destruct (truthy _); [|done].
  destruct (pg _ _) as [e|] eqn:He; [|done]. by rewrite (Hpg _ _ _ He).
Qed.

Lemma process_fuel_mono (fuel : nat) :
  forall fuel', fuel <= fuel' ->
    (forall def q v, processElement this fuel def q = Some v ->
                     processElement this fuel' def q = Some v)
    /\ (forall def q v, processComplexType this fuel def q = Some v ->
                        processComplexType this fuel' def q = Some v)
    /\ (forall def q r, processGroup this fuel def q = Some r ->
                        processGroup this fuel' def q = Some r).
Proof.
  induction fuel as [|fuel IH]; intros fuel' Hle; [done|].
  destruct fuel' as [|fuel']; [lia|].
  assert (fuel <= fuel') as Hle' by lia.
  destruct (IH fuel' Hle') as (IHe & IHc & IHg).
  split; [|split]; intros def q v.
  - cbn [processElement]. destruct (isLeafType _); [done | apply IHc].
  - cbn [processComplexType].
    destruct (find _ (keys def)) as [contentKey|].
    + destruct (find _ (keys (prop def contentKey))) as [extensionKey|]; [|done].
      destruct (truthyS _ && truthy _).
      * destruct (processComplexType this fuel _ q) as [b|] eqn:Hb; [|done].
        rewrite (IHc _ _ _ Hb).
        destruct (processGroup this fuel _ q) as [e|] eqn:He; [|done].
        by rewrite (IHg _ _ _ He).
      * destruct (processGroup this fuel _ q) as [e|] eqn:He; [|done].
        by rewrite (IHg _ _ _ He).
    + destruct (processGroup this fuel _ q) as [e|] eqn:He; [|done].
      by rewrite (IHg _ _ _ He).
  - cbn [processGroup].
    destruct (groupKeyOf def) as [groupKey|]; [|done].
    destruct (foldM _ (ensureArray _ "element") _) as [r1|] eqn:H1; [|done].
    rewrite (foldM_mono _ (processChild this (processElement this fuel') fuel' def q)
               _ _ _ (fun x b y => processChild_mono _ _ _ _ _ _ x y b IHe Hle') H1).
    destruct (foldM _ (ensureArray _ "choice") _) as [r2|] eqn:H2; [|done].
    rewrite (foldM_mono _ (nestedGroup (processGroup this fuel') "choice" def q)
               _ _ _ (fun x b y => nestedGroup_mono _ _ _ _ _ x y b IHg) H2).
    destruct (foldM _ (ensureArray _ "sequence") _) as [r3|] eqn:H3; [|done].
    rewrite (foldM_mono _ (nestedGroup (processGroup this fuel') "sequence" def q)
               _ _ _ (fun x b y => nestedGroup_mono _ _ _ _ _ x y b IHg) H3).
    apply foldM_mono. intros x b y. by apply namedGroup_mono.
Qed.

(** A completed call of [generate] is not affected by further fuel. *)
Lemma generate_fuel_mono (fuel fuel' : nat) (rootElementName startPath : string)
    (typeOverride : option string) (c : completion) :
  fuel <= fuel' ->
  generate this fuel rootElementName startPath typeOverride = Some c ->
  generate this fuel' rootElementName startPath typeOverride = Some c.
Proof.
  intros Hle. destruct (process_fuel_mono fuel fuel' Hle) as (He & Hc & _).
  unfold generate. destruct (negb _); [done|].
  destruct (truthyS typeOverride && truthy _).
  - destruct (processComplexType this fuel _ _) as [v|] eqn:Hv; [|done].
    by rewrite (Hc _ _ _ Hv).
  - destruct (processElement this fuel _ _) as [v|] eqn:Hv; [|done].
    by rewrite (He _ _ _ Hv).
Qed.

End Fuel.

End XMLGeneratorFacts.

(** * Further facts about the schema index *)

Module SchemaContextMore.

Import SchemaContext Spec Props JSFacts SchemaContextFacts.

(** ** Loading only adds *)

Lemma indexEntity_keys (tns : option string) (schemaRoot : JVal) (table : Obj)
    (el : JVal) (k : string) :
  k ∈ map fst table -> k ∈ map fst (indexEntity tns schemaRoot table el).
Proof.
  intros H. unfold indexEntity.
  repeat case_match; try done; by repeat apply keys_obj_set_mono.
Qed.

Lemma indexAll_keys (tns : option string) (schemaRoot : JVal) (items : list JVal)
    (table : Obj) (k : string) :
  k ∈ map fst table -> k ∈ map fst (indexAll tns schemaRoot items table).
Proof.
  unfold indexAll. revert table.
  induction items as [|el items IH]; intros table H; [done|].
  cbn [fold_left]. by apply IH, indexEntity_keys.
Qed.

Lemma grows_refl (ctx : t) : grows ctx ctx.
Proof. split; [done | by intros table _ k]. Qed.

Lemma grows_trans (c1 c2 c3 : t) : grows c1 c2 -> grows c2 c3 -> grows c1 c3.
Proof.
  intros [Hp Hk] [Hp' Hk']. split; [set_solver|].
  intros table Ht k Hin. by apply Hk', Hk.
Qed.

Lemma indexSchema_grows (schemaRoot : JVal) (ctx : t) :
  grows ctx (indexSchema schemaRoot ctx).
Proof.
  split; [done|].
  intros table [->|[->|[->| ->]]] k Hk;
    cbn [indexSchema schemas elements types groups]; try done;
    by repeat apply indexAll_keys.
Qed.

Section Reload.

Variable resolve : string -> string.
Variable nextPath : string -> string -> string.
Variable readSchema : string -> option JVal.

#[local] Abbreviation load := (loadSchema resolve nextPath readSchema).

Lemma loadSchema_monotone (fuel : nat) (ctx ctx' : t) (filePath : string) :
  load fuel ctx filePath = Some ctx' -> grows ctx ctx'.
Proof.
  revert ctx ctx' filePath.
  induction fuel as [|fuel IH]; intros ctx ctx' filePath; [done|].
  cbn [loadSchema].
  destruct (decide _); [intros [= <-]; apply grows_refl|].
  destruct (readSchema (resolve filePath)) as [json|];
    [|intros [= <-]; apply grows_refl].
  destruct (find (tagged "schema") (keys json)) as [schemaKey|];
    [|intros [= <-]; apply grows_refl].
  set (schemaRoot := prop json schemaKey).
  set (ctx1 := mk _ _ _ _ _).
  assert (grows ctx ctx1) as H1.
  { split; [subst ctx1; simpl; set_solver|].
    intros table [->|[->|[->| ->]]] k Hk; subst ctx1; simpl; try done.
    by apply keys_obj_set_mono. }
  generalize (ensureArray schemaRoot "import" ++ ensureArray schemaRoot "include")%list.
  intros refs. revert H1. generalize ctx1. clear ctx1.
  induction refs as [|ref refs IHrefs]; intros c Hc; cbn [foldM].
  - intros [= <-]. eapply grows_trans; [done | apply indexSchema_grows].
  - destruct (truthyS (attr ref "@_schemaLocation")); [|by apply IHrefs].
    destruct (loadSchema _ _ _ fuel c _) as [c1|] eqn:Hc1; [|done].
    apply IHrefs. eapply grows_trans; [done | by eapply IH].
Qed.

(** A completed load has its file in the processed set, unless the file
    is missing or has no schema root. *)
Lemma loadSchema_marks (fuel : nat) (ctx ctx' : t) (filePath : string) :
  load fuel ctx filePath = Some ctx' ->
  resolve filePath ∈ processedFiles ctx' \/ ctx' = ctx.
Proof.
  destruct fuel as [|fuel]; [done|]. cbn [loadSchema].
  destruct (decide _); [intros [= <-]; by left|].
  destruct (readSchema (resolve filePath)) as [json|]; [|intros [= <-]; by right].
  destruct (find (tagged "schema") (keys json)) as [schemaKey|];
    [|intros [= <-]; by right].
  set (ctx1 := mk _ _ _ _ _).
  destruct (foldM _ _ ctx1) as [ctx2|] eqn:E; [|done]. intros [= <-]. left.
  assert (grows ctx1 ctx2) as [Hp _].
  { revert E. generalize ctx1.
    generalize (ensureArray (prop json schemaKey) "import"
                ++ ensureArray (prop json schemaKey) "include")%list.
    induction l as [|ref refs IHrefs]; intros c; cbn [foldM].
    - intros [= <-]. apply grows_refl.
    - destruct (truthyS _); [|apply IHrefs].
      destruct (loadSchema _ _ _ fuel c _) as [c1|] eqn:Hc1; [|done].
      intros H. eapply grows_trans; [by eapply loadSchema_monotone | by apply IHrefs]. }
  apply Hp. subst ctx1. simpl. set_solver.
Qed.

(** X1: loading a file a second time, into the context that the first
    load of it returned, changes nothing: whatever the first load did, the
    second returns its context as it is. *)
Theorem loadSchema_reload (fuel : nat) (ctx ctx' : t) (filePath : string) :
  load fuel ctx filePath = Some ctx' ->
  load fuel ctx' filePath = Some ctx'.
Proof.
  intros H. destruct (loadSchema_marks _ _ _ _ H) as [Hin| ->]; [|done].
  destruct fuel as [|fuel]; [done|]. by apply loadSchema_processed.
Qed.

(** X2: a load never removes anything: every processed file stays
    processed, and every key of the schema, element, type and group tables
    is still a key afterwards. *)
Theorem loadSchema_grows (fuel : nat) (ctx ctx' : t) (filePath : string) :
  load fuel ctx filePath = Some ctx' ->
  processedFiles ctx ⊆ processedFiles ctx'
  /\ (forall k, k ∈ map fst (schemas ctx) -> k ∈ map fst (schemas ctx'))
  /\ (forall k, k ∈ map fst (elements ctx) -> k ∈ map fst (elements ctx'))
  /\ (forall k, k ∈ map fst (types ctx) -> k ∈ map fst (types ctx'))
  /\ (forall k, k ∈ map fst (groups ctx) -> k ∈ map fst (groups ctx')).
Proof.
  intros [Hp Hk]%loadSchema_monotone. split; [done|].
  repeat split; apply Hk; auto.
Qed.

End Reload.

Lemma loadSchema_reload_witness :
  loadSchema Examples.resolve0 Examples.nextPath0 Examples.filesCycle 8
    Cases.ctxCycle "a.xsd"
  = Some Cases.ctxCycle.
Proof.
  apply (loadSchema_reload Examples.resolve0 Examples.nextPath0 Examples.filesCycle
           8 empty Cases.ctxCycle "a.xsd").
  vm_compute. reflexivity.
Defined.

Lemma loadSchema_grows_witness :
  processedFiles Examples.ctxFooA ⊆ processedFiles Examples.ctxFooAB
  /\ (forall k, k ∈ map fst (schemas Examples.ctxFooA) ->
                k ∈ map fst (schemas Examples.ctxFooAB))
  /\ (forall k, k ∈ map fst (elements Examples.ctxFooA) ->
                k ∈ map fst (elements Examples.ctxFooAB))
  /\ (forall k, k ∈ map fst (types Examples.ctxFooA) ->
                k ∈ map fst (types Examples.ctxFooAB))
  /\ (forall k, k ∈ map fst (groups Examples.ctxFooA) ->
                k ∈ map fst (groups Examples.ctxFooAB)).
Proof.
  apply (loadSchema_grows Examples.resolve0 Examples.nextPath0 Examples.filesFooNs
           3 Examples.ctxFooA Examples.ctxFooAB "b.xsd").
  vm_compute. reflexivity.
Defined.

(** ** What a lookup finds after a load *)

Lemma entityKey_inj (tns : option string) (n n' : string) :
  entityKey tns n = entityKey tns n' -> n = n'.
Proof.
  unfold entityKey. destruct (truthyS tns); [|done].
  intros H. by do 3 apply app_inj_l in H.
Qed.

Lemma indexEntity_other (tns : option string) (schemaRoot : JVal) (table : Obj)
    (el : JVal) (n : string) :
  attr el "@_name" <> Some n ->
  truthy (prop (JObj table) (entityKey tns n)) = true ->
  prop (JObj (indexEntity tns schemaRoot table el)) (entityKey tns n)
  = prop (JObj table) (entityKey tns n).
Proof.
  intros Hn Ht. unfold indexEntity.
  destruct (attr el "@_name") as [n'|] eqn:Hname; [|done].
  cbn [key_of]. destruct (truthyS (Some n')); [|done].
  assert (entityKey tns n' <> entityKey tns n) as Hk
    by (intros ?%entityKey_inj; congruence).
  destruct (truthy (prop (JObj (obj_set (entityKey tns n') _ table)) n')) eqn:Hb;
    cbn [negb].
  - by apply prop_set_ne.
  - destruct (decide (n' = entityKey tns n)) as [Heq|Hne].
    + rewrite Heq in Hb at 2. rewrite prop_set_ne in Hb by done. congruence.
    + by rewrite !prop_set_ne.
Qed.

Lemma indexAll_others (tns : option string) (schemaRoot : JVal) (items : list JVal)
    (table : Obj) (n : string) :
  Forall (fun el => attr el "@_name" <> Some n) items ->
  truthy (prop (JObj table) (entityKey tns n)) = true ->
  prop (JObj (indexAll tns schemaRoot items table)) (entityKey tns n)
  = prop (JObj table) (entityKey tns n).
Proof.
  intros Hall. unfold indexAll. revert table.
  induction Hall as [|el items Hel _ IH]; intros table Ht; [done|].
  cbn [fold_left]. rewrite IH; rewrite indexEntity_other; done.
Qed.

(** The declaration that is the last of its name in a list of items is
    the one its qualified key holds afterwards. *)
Lemma indexAll_last (tns : option string) (schemaRoot : JVal)
    (before after : list JVal) (el : JVal) (table : Obj) (n : string) :
  attr el "@_name" = Some n -> n <> "" ->
  Forall (fun el' => attr el' "@_name" <> Some n) after ->
  prop (JObj (indexAll tns schemaRoot (before ++ el :: after) table)) (entityKey tns n)
  = JObj (obj_set "_schema" schemaRoot (spread el)).
Proof.
  intros Hn Hne Hafter. unfold indexAll. rewrite fold_left_app. cbn [fold_left].
  fold (indexAll tns schemaRoot before table).
  set (table1 := indexAll tns schemaRoot before table).
  fold (indexAll tns schemaRoot after (indexEntity tns schemaRoot table1 el)).
  assert (prop (JObj (indexEntity tns schemaRoot table1 el)) (entityKey tns n)
          = JObj (obj_set "_schema" schemaRoot (spread el))) as He.
  { pose proof (indexEntity_qualified tns schemaRoot table1 el) as H.
    rewrite Hn in H. cbn [key_of truthyS] in H. apply H.
    apply negb_true_iff. by apply String.eqb_neq. }
  rewrite indexAll_others; [done | done | by rewrite He].
Qed.

Section RoundTrip.

Variable resolve : string -> string.
Variable nextPath : string -> string -> string.
Variable readSchema : string -> option JVal.

(** X3: after a file has been loaded, [getElement] asked for the qualified
    key of a name answers with the last element declaration of that name
    in the file, spread and stamped with the file's schema root. *)
Theorem loadSchema_getElement (fuel : nat) (ctx ctx' : t) (filePath : string)
    (json : JVal) (schemaKey : string) (before after : list JVal) (el : JVal)
    (n : string) :
  loadSchema resolve nextPath readSchema fuel ctx filePath = Some ctx' ->
  resolve filePath ∉ processedFiles ctx ->
  readSchema (resolve filePath) = Some json ->
  find (tagged "schema") (keys json) = Some schemaKey ->
  ensureArray (prop json schemaKey) "element" = (before ++ el :: after)%list ->
  attr el "@_name" = Some n -> n <> "" ->
  Forall (fun el' => attr el' "@_name" <> Some n) after ->
  getElement ctx'
    (Some (entityKey (attr (prop json schemaKey) "@_targetNamespace") n))
  = JObj (obj_set "_schema" (prop json schemaKey) (spread el)).
Proof.
  intros Hload Hnew Hread Hkey Hels Hn Hne Hafter.
  destruct fuel as [|fuel]; [done|]. cbn [loadSchema] in Hload.
  rewrite decide_False, Hread, Hkey in Hload by done.
  destruct (foldM _ _ _) as [ctx2|]; [|done]. injection Hload as <-.
  unfold getElement.
  set (schemaRoot := prop json schemaKey) in *.
  set (key := entityKey _ n).
  assert (prop (JObj (elements (indexSchema schemaRoot ctx2))) key
          = JObj (obj_set "_schema" schemaRoot (spread el))) as E.
  { change (elements (indexSchema schemaRoot ctx2))
      with (indexAll (attr schemaRoot "@_targetNamespace") schemaRoot
              (ensureArray schemaRoot "element") (elements ctx2)).
    rewrite Hels. by apply indexAll_last. }
  assert (key <> "") as Hk.
  { subst key. unfold entityKey. destruct (truthyS _); [done | done]. }
  unfold lookupByName. cbn [truthyS key_of].
  apply String.eqb_neq in Hk. rewrite Hk. cbn [negb].
  by rewrite !E.
Qed.

End RoundTrip.

(** The element [A] is declared twice in [dup.xsd]; the lookup answers
    with the second declaration. *)
Lemma loadSchema_getElement_witness :
  getElement Cases.ctxDup
    (Some (entityKey (attr (prop Cases.jsonDup "xs:schema") "@_targetNamespace") "A"))
  = JObj (obj_set "_schema" (prop Cases.jsonDup "xs:schema") (spread Cases.lastA)).
Proof.
  apply (loadSchema_getElement Examples.resolve0 Examples.nextPath0 Cases.filesDup
           8 empty Cases.ctxDup "dup.xsd" Cases.jsonDup "xs:schema"
           [Cases.firstA; Cases.onlyB] [] Cases.lastA "A").
  - vm_compute. reflexivity.
  - apply not_elem_of_empty.
  - reflexivity.
  - reflexivity.
  - reflexivity.
  - reflexivity.
  - discriminate.
  - constructor.
Defined.

(** What one schema root contributes is not lost to a root that is silent. *)
Lemma getNamespaces_fold_sound (p : string) (v : JVal) (roots : list JVal) (ns : Obj) :
  obj_get p
    (fold_left
       (fun namespaces schemaRoot =>
          if negb (truthy schemaRoot) then namespaces
          else collectRoot schemaRoot (keys schemaRoot) namespaces)
       roots ns) = Some v ->
  obj_get p ns = Some v
  \/ exists schemaRoot,
       schemaRoot ∈ roots /\ truthy schemaRoot = true
       /\ "@_xmlns:" +:+ p ∈ keys schemaRoot
       /\ v = prop schemaRoot ("@_xmlns:" +:+ p).
Proof.
  revert ns. induction roots as [|r roots IH]; intros ns; [by left|].
  cbn [fold_left]. intros [H|(r' & Hin & Hr')]%IH.
  - destruct (truthy r) eqn:Ht; cbn [negb] in H; [|by left].
    rewrite collectRoot_get in H. case_bool_decide as Hk; [|by left].
    injection H as <-. right. exists r. repeat split; [left | done..].
  - right. exists r'. split; [by right | done].
Qed.

(** X4: every binding that [getNamespaces] reports is the [xmlns]
    attribute of some loaded schema root: no prefix is invented and no
    URI is altered. *)
Theorem getNamespaces_sound (ctx : t) (p : string) (v : JVal) :
  obj_get p (getNamespaces ctx) = Some v ->
  exists schemaRoot,
    schemaRoot ∈ map snd (schemas ctx) /\ truthy schemaRoot = true
    /\ "@_xmlns:" +:+ p ∈ keys schemaRoot
    /\ v = prop schemaRoot ("@_xmlns:" +:+ p).
Proof.
  intros H. apply getNamespaces_fold_sound in H as [H|H]; done.
Qed.

Lemma getNamespaces_sound_witness :
  exists schemaRoot,
    schemaRoot ∈ map snd (schemas Examples.ctxAB) /\ truthy schemaRoot = true
    /\ "@_xmlns:" +:+ "p" ∈ keys schemaRoot
    /\ JStr "urn:second" = prop schemaRoot ("@_xmlns:" +:+ "p").
Proof.
  apply (getNamespaces_sound Examples.ctxAB "p" (JStr "urn:second")).
  vm_compute. reflexivity.
Defined.

(** ** The shape of the tables *)

Lemma well_indexed_Forall (table : Obj) :
  Forall (fun kv => exists o, kv.2 = JObj o /\ "_schema" ∈ map fst o) table ->
  well_indexed table.
Proof.
  intros H k v Hin. by apply (proj1 (Forall_forall _ _) H (k, v)).
Qed.

Lemma indexEntity_well (tns : option string) (schemaRoot : JVal) (table : Obj)
    (el : JVal) :
  well_indexed table -> well_indexed (indexEntity tns schemaRoot table el).
Proof.
  intros Hw. unfold indexEntity.
  destruct (truthyS (attr el "@_name")); [|done].
  set (n := key_of (attr el "@_name")). set (key := entityKey tns n).
  set (entity := obj_set "_schema" schemaRoot (spread el)).
  assert (well_indexed (obj_set key (JObj entity) table)) as H1.
  { intros k v [[= -> ->]|Hin]%elem_of_obj_set; [|by apply (Hw k v)].
    exists entity. split; [done | apply keys_obj_set_new]. }
  destruct (negb _); [|done].
  intros k v [[= -> ->]|Hin]%elem_of_obj_set; [|by apply (H1 k v)].
  rewrite obj_get_set_eq. exists entity. split; [done | apply keys_obj_set_new].
Qed.

Lemma indexAll_well (tns : option string) (schemaRoot : JVal) (items : list JVal)
    (table : Obj) :
  well_indexed table -> well_indexed (indexAll tns schemaRoot items table).
Proof.
  unfold indexAll. revert table.
  induction items as [|el items IH]; intros table H; [done|].
  cbn [fold_left]. by apply IH, indexEntity_well.
Qed.

Lemma indexSchema_ok (schemaRoot : JVal) (ctx : t) :
  index_ok ctx -> index_ok (indexSchema schemaRoot ctx).
Proof.
  intros (He & Ht & Hg). repeat split; cbn [indexSchema elements types groups];
    by repeat apply indexAll_well.
Qed.

Lemma empty_ok : index_ok empty.
Proof. repeat split; intros k v H; by apply elem_of_nil in H. Qed.

Section IndexInvariant.

Variable resolve : string -> string.
Variable nextPath : string -> string -> string.
Variable readSchema : string -> option JVal.

(** X5: loading keeps the lookup tables well formed: if every entry of the
    element, type and group tables is an object with a [_schema] property
    before a load, the same holds after it. *)
Theorem loadSchema_index_ok (fuel : nat) (ctx ctx' : t) (filePath : string) :
  loadSchema resolve nextPath readSchema fuel ctx filePath = Some ctx' ->
  index_ok ctx -> index_ok ctx'.
Proof.
  revert ctx ctx' filePath.
  induction fuel as [|fuel IH]; intros ctx ctx' filePath; [done|].
  cbn [loadSchema].
  destruct (decide _); [by intros [= <-]|].
  destruct (readSchema (resolve filePath)) as [json|]; [|by intros [= <-]].
  destruct (find (tagged "schema") (keys json)) as [schemaKey|]; [|by intros [= <-]].
  set (ctx1 := mk _ _ _ _ _). intros H Hok.
  assert (index_ok ctx1) as H1 by done.
  revert H H1. generalize ctx1.
  generalize (ensureArray (prop json schemaKey) "import"
              ++ ensureArray (prop json schemaKey) "include")%list.
  clear ctx1 Hok.
  induction l as [|ref refs IHrefs]; intros c; cbn [foldM].
  - intros [= <-] Hc. by apply indexSchema_ok.
  - destruct (truthyS _); [|apply IHrefs].
    destruct (loadSchema _ _ _ fuel c _) as [c1|] eqn:Hc1; [|done].
    intros H Hc. apply (IHrefs c1 H). by eapply IH.
Qed.

End IndexInvariant.

Lemma loadSchema_index_ok_witness : index_ok Cases.ctxCycle.
Proof.
  apply (loadSchema_index_ok Examples.resolve0 Examples.nextPath0 Examples.filesCycle
           8 empty Cases.ctxCycle "a.xsd").
  - vm_compute. reflexivity.
  - apply empty_ok.
Defined.

Lemma well_indexed_truthy (table : Obj) (k : string) :
  well_indexed table -> k ∈ map fst table -> truthy (prop (JObj table) k) = true.
Proof.
  intros Hw Hk. apply obj_get_Some_keys in Hk as [v Hv].
  unfold prop. rewrite Hv. cbn [default].
  apply obj_get_elem_of in Hv. by destruct (Hw _ _ Hv) as (o & -> & _).
Qed.

(** X6: a prefixed name is looked up by its local part when the name
    itself is no key: if the second colon-separated part of the name is a
    key of a well formed table, [getElement] and [getGroup] find a
    declaration, whatever the prefix says. *)
Theorem lookupByName_local_part (table : Obj) (n l : string) :
  well_indexed table ->
  includes n ":" = true -> part 1 n = Some l -> l <> "" ->
  l ∈ map fst table ->
  truthy (lookupByName table (Some n)) = true.
Proof.
  intros Hw Hc Hp Hl Hin. unfold lookupByName. cbn [key_of truthyS].
  assert (n <> "") as Hn by (by apply (includes_nonempty n ":")).
  apply String.eqb_neq in Hn. rewrite Hn. cbn [negb].
  destruct (truthy (prop (JObj table) n)) eqn:E; [done|].
  rewrite Hc, Hp. cbn [key_of].
  destruct (find_exists
              (fun k => endsWith k ("}" +:+ l) || String.eqb k l)
              (keys (JObj table)) l Hin) as (k & -> & Hk & Hkin).
  { by rewrite String.eqb_refl, orb_true_r. }
  assert (k <> "") as Hne.
  { apply orb_prop in Hk as [Hk|Hk].
    - by apply (endsWith_nonempty k ("}" +:+ l)).
    - apply String.eqb_eq in Hk as ->. done. }
  apply String.eqb_neq in Hne. rewrite Hne. cbn [negb].
  by apply well_indexed_truthy.
Qed.

(** No schema binds the prefix [nowhere], yet [nowhere:Root] is found. *)
Lemma lookupByName_local_part_witness :
  truthy (lookupByName (elements Examples.ctxT) (Some "nowhere:Root")) = true.
Proof.
  apply (lookupByName_local_part (elements Examples.ctxT) "nowhere:Root" "Root").
  - apply well_indexed_Forall. vm_compute.
    repeat constructor; eexists; (split; [reflexivity | repeat constructor]).
  - reflexivity.
  - reflexivity.
  - discriminate.
  - vm_compute. set_solver.
Defined.

(** X7: a prefixed type name is resolved in the scope of the schema that
    refers to it: when that schema binds the prefix to a namespace and the
    type table has an entry for the namespace and the local part,
    [findType] returns that entry. *)
Theorem findType_prefix_scope (ctx : t) (n p l ns : string) (currentSchema : JVal) :
  startsWith n "xs:" = false -> startsWith n "xsd:" = false ->
  includes n ":" = true -> part 0 n = Some p -> part 1 n = Some l ->
  attr currentSchema ("@_xmlns:" +:+ p) = Some ns -> ns <> "" ->
  truthy (prop (JObj (types ctx)) ("{" +:+ ns +:+ "}" +:+ l)) = true ->
  findType ctx (Some n) currentSchema
  = prop (JObj (types ctx)) ("{" +:+ ns +:+ "}" +:+ l).
Proof.
  intros Hxs Hxsd Hc Hp Hl Ha Hns Ht. unfold findType. cbn [key_of truthyS].
  assert (n <> "") as Hn by (by apply (includes_nonempty n ":")).
  apply String.eqb_neq in Hn. rewrite Hn, Hxs, Hxsd, Hc, Hp, Hl.
  cbn [negb orb key_of].
  assert (truthy currentSchema = true) as -> by (unfold attr in Ha; by destruct currentSchema).
  rewrite (find_eqb_key _ _ (attr_key _ _ _ Ha)), Ha.
  cbn [truthyS key_of]. apply String.eqb_neq in Hns. rewrite Hns. cbn [negb].
  by rewrite Ht.
Qed.

Lemma findType_prefix_scope_witness :
  findType Examples.ctxT (Some "t:RootType") Examples.rootT
  = prop (JObj (types Examples.ctxT)) ("{" +:+ "urn:t" +:+ "}" +:+ "RootType").
Proof.
  apply (findType_prefix_scope Examples.ctxT "t:RootType" "t" "RootType" "urn:t"
           Examples.rootT).
  - reflexivity.
  - reflexivity.
  - reflexivity.
  - reflexivity.
  - reflexivity.
  - reflexivity.
  - discriminate.
  - vm_compute. reflexivity.
Defined.

End SchemaContextMore.

(** * Further facts about the generator *)

Module XMLGeneratorMore.

Import SchemaContext XMLGenerator Spec Props JSFacts SchemaContextFacts
  XMLGeneratorFacts.

(** ** Leaves and the configuration *)

Section Leaves.

Variable this : XMLGenerator.t.

(** X8: an element whose declared type is a built-in [xs:] or [xsd:] type
    is a leaf: its content is the configured value at its path, and [null]
    when the configuration has no value there. *)
Theorem processElement_builtin_leaf (fuel : nat) (elementDef : JVal)
    (typeName currentPath : string) :
  attr elementDef "@_type" = Some typeName ->
  startsWith typeName "xs:" = true \/ startsWith typeName "xsd:" = true ->
  processElement this (S fuel) elementDef currentPath
  = Some (match obj_get currentPath (config this) with
          | Some JUndef | None => JNull
          | Some v => v
          end).
Proof.
  intros Ht Hb. cbn [processElement].
  assert (typeName <> "") as Hne by (intros ->; by destruct Hb).
  assert (typeOfElement this elementDef = builtInType typeName) as ->.
  { unfold typeOfElement, findType. rewrite Ht. cbn [truthyS key_of].
    apply String.eqb_neq in Hne. rewrite Hne. cbn [negb].
    by destruct Hb as [-> | ->]; [|rewrite orb_true_r]. }
  cbn. unfold leafValue, getValueFromConfig, prop.
  by destruct (obj_get currentPath (config this)) as [[]|].
Qed.

(** X9: the prefix test is closed upwards: if some configuration key
    starts with a path, or the path itself has a value, then some key
    starts with every prefix of that path. *)
Theorem hasConfigPrefix_above (p q : string) :
  String.prefix p q = true ->
  hasConfigPrefix this q = true \/ getValueFromConfig this q <> JUndef ->
  hasConfigPrefix this p = true.
Proof.
  intros Hpq H. destruct (hasConfigPrefix this p) eqn:E; [done|].
  destruct H as [H|H].
  - by rewrite (no_prefix_below this p E q Hpq) in H.
  - by rewrite (no_value_below this p E q Hpq) in H.
Qed.

End Leaves.

Lemma processElement_builtin_leaf_witness :
  processElement (Examples.genT Examples.configZeroChild) 1 Examples.childDecl
    "Root/Child"
  = Some (match obj_get "Root/Child" (config (Examples.genT Examples.configZeroChild)) with
          | Some JUndef | None => JNull
          | Some v => v
          end).
Proof.
  apply (processElement_builtin_leaf (Examples.genT Examples.configZeroChild) 0
           Examples.childDecl "xs:string" "Root/Child").
  - reflexivity.
  - left. reflexivity.
Defined.

Lemma hasConfigPrefix_above_witness :
  hasConfigPrefix (Examples.genT Examples.configGap) "Root/It" = true.
Proof.
  apply (hasConfigPrefix_above (Examples.genT Examples.configGap)
           "Root/It" "Root/Items[2]").
  - reflexivity.
  - right. discriminate.
Defined.

(** ** Fixed attributes *)

Section FixedAttributes.

Variable this : XMLGenerator.t.
Variable currentPath name fixed : string.
Hypothesis name_ok : name <> "".
Hypothesis fixed_ok : fixed <> "".

Lemma processAttribute_fixed (a : JVal) (res : Obj) :
  attr a "@_name" = Some name -> attr a "@_fixed" = Some fixed ->
  obj_get ("@_" +:+ name) (processAttribute this currentPath res a)
  = Some (JStr fixed).
Proof.
  intros Hn Hf. unfold processAttribute. rewrite Hn, Hf. cbn [truthyS key_of of_attr].
  apply String.eqb_neq in name_ok, fixed_ok. rewrite name_ok, fixed_ok. cbn [negb].
  apply obj_get_set_eq.
Qed.

Lemma processAttributes_fixed_keep (attrs : list JVal) (res : Obj) :
  Forall (fun a => attr a "@_name" = Some name -> attr a "@_fixed" = Some fixed) attrs ->
  obj_get ("@_" +:+ name) res = Some (JStr fixed) ->
  obj_get ("@_" +:+ name) (fold_left (processAttribute this currentPath) attrs res)
  = Some (JStr fixed).
Proof.
  intros Hall. revert res.
  induction Hall as [|a attrs Ha _ IH]; intros res Hres; [done|].
  cbn [fold_left]. apply IH.
  destruct (decide (attr a "@_name" = Some name)) as [Hn|Hn].
  - by apply processAttribute_fixed; [|apply Ha].
  - by rewrite processAttribute_other.
Qed.

(** X10: an attribute that is declared with a fixed value is written with
    that value, whatever the configuration and the current path are. *)
Theorem processAttributes_fixed (parentDef : JVal) (res : Obj) :
  Exists (fun a => attr a "@_name" = Some name)
         (ensureArray parentDef "attribute") ->
  Forall (fun a => attr a "@_name" = Some name -> attr a "@_fixed" = Some fixed)
         (ensureArray parentDef "attribute") ->
  obj_get ("@_" +:+ name) (processAttributes this parentDef currentPath res)
  = Some (JStr fixed).
Proof.
  unfold processAttributes. generalize (ensureArray parentDef "attribute").
  intros attrs Hex. revert res.
  induction Hex as [a attrs Ha|a attrs _ IH]; intros res Hall;
    apply Forall_cons in Hall as [Hf Hall]; cbn [fold_left].
  - apply processAttributes_fixed_keep; [done|].
    by apply processAttribute_fixed; [|apply Hf].
  - by apply IH.
Qed.

End FixedAttributes.

(** The header type of the document example: nothing is configured under
    [Doc/Hdr], and [version] is written all the same. *)
Lemma processAttributes_fixed_witness :
  obj_get ("@_" +:+ "version")
    (processAttributes Examples.genH Cases.hdrType "Doc/Hdr" [])
  = Some (JStr "1.0").
Proof.
  apply (processAttributes_fixed Examples.genH "Doc/Hdr" "version" "1.0").
  - discriminate.
  - discriminate.
  - vm_compute. repeat constructor.
  - vm_compute. repeat constructor.
Defined.

(** ** Arrays *)

Section Arrays.

Variable this : XMLGenerator.t.

(** X11: the array loop does not depend on [minOccurs]: the scan of the
    items is the same for any two declarations, so a mandatory array and
    an optional one stop at the same item. *)
Theorem scanItems_ignores_minOccurs (pe : string -> option JVal) (el el' : JVal)
    (currentPath elName : string) (n idx : nat) (items : list JVal) :
  scanItems this pe el currentPath elName n idx items
  = scanItems this pe el' currentPath elName n idx items.
Proof.
  revert idx items. induction n as [|n IH]; intros idx items; [done|].
  cbn [scanItems]. destruct (negb _); [done|].
  destruct (pe _) as [c|]; [|done].
  destruct (truthy c).
  - destruct (isSingleton _ _ _ _); [done | apply IH].
  - by destruct (isMandatory el), (isMandatory el').
Qed.

(** X12: an array element that is configured without an index is emitted
    as an array of one item, read at the path without index; no further
    index is probed. *)
Theorem processChild_singleton_fallback (pe : JVal -> string -> option JVal)
    (n : nat) (parentDef : JVal) (currentPath : string) (result : Obj)
    (el d : JVal) (name : string) (c : JVal) :
  isArray el = true ->
  resolveChild this parentDef el = Some (d, name) ->
  hasConfigPrefix this (indexedPath currentPath name 0) = false ->
  hasConfigPrefix this (singletonPath currentPath name) = true ->
  pe d (singletonPath currentPath name) = Some c ->
  processChild this pe (S n) parentDef currentPath result el
  = Some (if truthy c
          then obj_set (childKey this d name) (JArr [c]) result
          else result).
Proof.
  intros Ha Hr H0 Hs Hc. unfold processChild. rewrite Hr, Ha. cbn [scanItems].
  unfold itemPath, isSingleton. rewrite H0, Hs. cbn [Nat.eqb negb andb].
  rewrite Hs, Hc. cbn [negb]. destruct (truthy c); [done|].
  by destruct (isMandatory el).
Qed.

(** X13: a substituted reference is resolved as the substitute: a child
    that refers to [ref], with [ref] mapped to [target], resolves to what a
    plain reference to [target] resolves to without any substitution. *)
Theorem resolveChild_substitution (parentDef el : JVal) (ref target : string) :
  attr el "@_ref" = Some ref -> ref <> "" ->
  str_get ref (substitutions this) = Some target -> target <> "" ->
  resolveChild this parentDef el
  = resolveChild (mk (ctx this) (config this) (nsMap this) [])
      parentDef (JObj [("@_ref", JStr target)]).
Proof.
  intros Hr Hne Hs Ht.
  apply String.eqb_neq in Hne, Ht.
  assert (refOf this el = Some target) as E.
  { unfold refOf. rewrite Hr. cbn [key_of truthyS]. by rewrite Hs, Hne; cbn; rewrite Ht. }
  assert (refOf (mk (ctx this) (config this) (nsMap this) [])
            (JObj [("@_ref", JStr target)]) = Some target) as E'.
  { unfold refOf, attr. cbn. by rewrite andb_false_r. }
  unfold resolveChild. rewrite E, E'. cbn [truthyS ctx]. by rewrite Ht.
Qed.

End Arrays.

Lemma processChild_singleton_fallback_witness :
  processChild (Examples.genT Cases.configSingleton)
    (processElement (Examples.genT Cases.configSingleton) 5) 6
    Examples.rootTypeT "Root" [] Examples.itemsEl
  = Some (if truthy (JNum 7)
          then obj_set (childKey (Examples.genT Cases.configSingleton)
                          Examples.itemsDecl "Items")
                 (JArr [JNum 7]) []
          else []).
Proof.
  apply (processChild_singleton_fallback (Examples.genT Cases.configSingleton)
           (processElement (Examples.genT Cases.configSingleton) 5) 5
           Examples.rootTypeT "Root" [] Examples.itemsEl Examples.itemsDecl
           "Items" (JNum 7)).
  - reflexivity.
  - vm_compute. reflexivity.
  - reflexivity.
  - reflexivity.
  - vm_compute. reflexivity.
Defined.

Lemma resolveChild_substitution_witness :
  resolveChild Cases.genSubst Examples.rootTypeT Cases.abstractRef
  = resolveChild
      (mk (ctx Cases.genSubst) (config Cases.genSubst) (nsMap Cases.genSubst) [])
      Examples.rootTypeT (JObj [("@_ref", JStr "Root")]).
Proof.
  apply (resolveChild_substitution Cases.genSubst Examples.rootTypeT
           Cases.abstractRef "t:Abstract" "Root").
  - reflexivity.
  - discriminate.
  - reflexivity.
  - discriminate.
Defined.

(** ** What a complex type yields, and the type override *)

Section Override.

Variable this : XMLGenerator.t.

Lemma processAttribute_nodup (currentPath : string) (res : Obj) (a : JVal) :
  NoDup (map fst res) -> NoDup (map fst (processAttribute this currentPath res a)).
Proof.
  intros H. unfold processAttribute. repeat case_match; try done;
    by apply obj_set_nodup.
Qed.

Lemma processAttributes_nodup (parentDef : JVal) (currentPath : string) (res : Obj) :
  NoDup (map fst res) ->
  NoDup (map fst (processAttributes this parentDef currentPath res)).
Proof.
  unfold processAttributes. generalize (ensureArray parentDef "attribute").
  intros attrs. revert res. induction attrs as [|a attrs IH]; intros res H; [done|].
  cbn [fold_left]. by apply IH, processAttribute_nodup.
Qed.

Lemma processComplexType_finish (fuel : nat) (typeDef : JVal) (currentPath : string)
    (v : JVal) :
  processComplexType this fuel typeDef currentPath = Some v ->
  exists result, v = finish result /\ NoDup (map fst result).
Proof.
  destruct fuel as [|fuel]; [done|]. cbn [processComplexType].
  pose proof (processAttributes_nodup) as Ha.
  assert (NoDup (map fst ([] : Obj))) as Hnil by apply NoDup_nil_2.
  repeat case_match; try done; intros [= <-]; simplify_eq;
    eexists; (split; [reflexivity|]); auto using obj_assign_nodup.
Qed.

Lemma finish_shape (result : Obj) :
  finish result = JNull \/ (finish result = JObj result /\ result <> []).
Proof. destruct result; [by left | by right]. Qed.

(** X14: a complex type yields [null] or an object that has at least one
    key and no key twice; it never yields an empty object, an array or a
    scalar. *)
Theorem processComplexType_shape (fuel : nat) (typeDef : JVal) (currentPath : string)
    (v : JVal) :
  processComplexType this fuel typeDef currentPath = Some v ->
  v = JNull \/ exists o, v = JObj o /\ o <> [] /\ NoDup (map fst o).
Proof.
  intros (r & -> & Hnd)%processComplexType_finish.
  destruct (finish_shape r) as [-> | [-> ?]]; [by left|].
  right. by exists r.
Qed.

(** X15: a type override that [findType] does not resolve is ignored: the
    document is the one generated without any override. *)
Theorem generate_unknown_override (fuel : nat) (rootElementName startPath : string)
    (typeOverride : option string) :
  truthy (findType (ctx this) typeOverride
            (prop (resolveRoot this rootElementName) "_schema")) = false ->
  generate this fuel rootElementName startPath typeOverride
  = generate this fuel rootElementName startPath None.
Proof.
  intros H. unfold generate. rewrite H.
  by rewrite andb_false_r.
Qed.

(** X16: with a type override that resolves, a document that is generated
    is [null] or a single root key whose content carries the override as
    its [xsi:type] attribute. *)
Theorem generate_override_stamp (fuel : nat) (rootElementName startPath : string)
    (typeOverride : string) (v : JVal) :
  typeOverride <> "" ->
  truthy (findType (ctx this) (Some typeOverride)
            (prop (resolveRoot this rootElementName) "_schema")) = true ->
  generate this fuel rootElementName startPath (Some typeOverride)
  = Some (Returns v) ->
  v = JNull
  \/ exists rootKey content,
       v = JObj [(rootKey, JObj content)]
       /\ obj_get "@_xsi:type" content = Some (JStr typeOverride).
Proof.
  intros Hne Ht. unfold generate. cbn [truthyS]. rewrite Ht.
  apply String.eqb_neq in Hne. rewrite Hne. cbn [negb andb of_attr].
  destruct (negb (truthy (resolveRoot this rootElementName))); [done|].
  destruct (processComplexType _ _ _ _) as [c|] eqn:E; [|done].
  apply processComplexType_finish in E as (r & -> & _).
  destruct (finish_shape r) as [-> | [-> ?]]; intros [= <-]; [by left|].
  right. eexists _, _. split; [done|]. apply obj_get_set_eq.
Qed.

End Override.

Lemma processComplexType_shape_witness :
  JObj [("t:Child", JNum 0)] = JNull
  \/ exists o, JObj [("t:Child", JNum 0)] = JObj o /\ o <> [] /\ NoDup (map fst o).
Proof.
  apply (processComplexType_shape (Examples.genT Examples.configZeroChild) 6
           Examples.rootTypeT "Root").
  vm_compute. reflexivity.
Defined.

Lemma generate_unknown_override_witness :
  generate (Examples.genT Examples.configZeroChild) 6 "Root" "Root" (Some "t:Nope")
  = generate (Examples.genT Examples.configZeroChild) 6 "Root" "Root" None.
Proof.
  apply (generate_unknown_override (Examples.genT Examples.configZeroChild) 6
           "Root" "Root" (Some "t:Nope")).
  vm_compute. reflexivity.
Defined.

Lemma generate_override_stamp_witness :
  JObj [("t:Root", JObj [("t:Child", JNum 0); ("@_xsi:type", JStr "t:RootType")])]
  = JNull
  \/ exists rootKey content,
       JObj [("t:Root", JObj [("t:Child", JNum 0); ("@_xsi:type", JStr "t:RootType")])]
       = JObj [(rootKey, JObj content)]
       /\ obj_get "@_xsi:type" content = Some (JStr "t:RootType").
Proof.
  apply (generate_override_stamp (Examples.genT Examples.configZeroChild) 6
           "Root" "Root" "t:RootType").
  - discriminate.
  - vm_compute. reflexivity.
  - vm_compute. reflexivity.
Defined.

(** ** The array loop ends *)

Lemma digits_closed (d d' : Decimal.uint) (r r' : string) :
  NilEmpty.string_of_uint d +:+ String "]" r
  = NilEmpty.string_of_uint d' +:+ String "]" r' ->
  d = d'.
Proof.
  revert d'. induction d as [|d IH|d IH|d IH|d IH|d IH|d IH|d IH|d IH|d IH|d IH];
    intros [|d'|d'|d'|d'|d'|d'|d'|d'|d'|d']; cbn [NilEmpty.string_of_uint];
    rewrite ?append_cons, ?append_nil; intros H; try discriminate H; try done;
    injection H as H; f_equal; by apply IH.
Qed.

Lemma indexedPath_split (currentPath elName : string) (idx : nat) (r : string) :
  indexedPath currentPath elName idx +:+ r
  = currentPath +:+ "/" +:+ elName +:+ "[" +:+
    (NilEmpty.string_of_uint (Nat.to_uint idx) +:+ String "]" r).
Proof.
  unfold indexedPath, nat_to_string. by rewrite !append_assoc.
Qed.

(** The indexed paths of two different indices of one element have no
    configuration key in common. *)
Lemma indexedPath_apart (currentPath elName key : string) (i j : nat) :
  String.prefix (indexedPath currentPath elName i) key = true ->
  String.prefix (indexedPath currentPath elName j) key = true ->
  i = j.
Proof.
  intros Hi Hj. apply prefix_split in Hi, Hj.
  rewrite indexedPath_split in Hi, Hj. rewrite Hi in Hj.
  do 4 apply app_inj_l in Hj.
  apply digits_closed in Hj. by apply DecimalNat.Unsigned.to_uint_inj.
Qed.

Section ScanBound.

Variable this : XMLGenerator.t.
Variable pe : string -> option JVal.
Variable el : JVal.
Variable currentPath elName : string.
Hypothesis pe_total : forall path, is_Some (pe path).

Lemma scanItems_returns (n : nat) :
  forall (idx : nat) (acc : list JVal) (pending : list string),
    (forall k j, k ∈ keys (JObj (config this)) -> idx <= j ->
                 String.prefix (indexedPath currentPath elName j) k = true ->
                 k ∈ pending) ->
    length pending < n ->
    is_Some (scanItems this pe el currentPath elName n idx acc).
Proof.
  induction n as [|n IH]; intros idx acc pending Hcover Hlen; [lia|].
  cbn [scanItems].
  destruct (hasConfigPrefix this (itemPath this currentPath elName idx)) eqn:Hp;
    cbn [negb]; [|by eexists].
  destruct (pe_total (itemPath this currentPath elName idx)) as [c ->].
  destruct (truthy c); [|destruct (isMandatory el); by eexists].
  destruct (isSingleton this currentPath elName idx) eqn:Hs; [by eexists|].
  unfold itemPath in Hp. rewrite Hs in Hp.
  apply existsb_exists in Hp as (k0 & Hk0 & Hpre).
  apply list_elem_of_In in Hk0. unfold startsWith in Hpre.
  apply (IH (S idx) _ (filter (fun y => y <> k0) pending)).
  - intros k j Hk Hj Hkj. apply list_elem_of_filter. split.
    + intros ->. pose proof (indexedPath_apart _ _ _ _ _ Hpre Hkj). lia.
    + apply (Hcover k j); [done | lia | done].
  - assert (k0 ∈ pending) as Hin by (by apply (Hcover k0 idx)).
    pose proof (filter_ne_length k0 pending Hin). lia.
Qed.

(** X17: the [while (true)] loop over the items of an array ends: every
    round that goes on uses up a configuration key that no later index can
    use, so with more rounds allowed than the configuration has keys the
    scan returns, as long as processing an item returns. *)
Theorem scanItems_terminates (n : nat) :
  length (config this) < n ->
  is_Some (scanItems this pe el currentPath elName n 0 []).
Proof.
  intros Hn. apply (scanItems_returns n 0 [] (keys (JObj (config this)))).
  - by intros k j Hk _ _.
  - cbn [keys]. by rewrite length_map.
Qed.

End ScanBound.

Lemma scanItems_terminates_witness :
  is_Some (scanItems (Examples.genT Examples.configGap)
             (processElement (Examples.genT Examples.configGap) 5 Examples.itemsDecl)
             Examples.itemsEl "Root" "Items" 3 0 []).
Proof.
  apply (scanItems_terminates (Examples.genT Examples.configGap)
           (processElement (Examples.genT Examples.configGap) 5 Examples.itemsDecl)
           Examples.itemsEl "Root" "Items").
  - intros path. eexists. vm_compute. reflexivity.
  - vm_compute. lia.
Defined.

(** ** Emission order *)

Section Order.

Variable this : XMLGenerator.t.

Lemma processChild_keeps (pe : JVal -> string -> option JVal) (n : nat)
    (parentDef : JVal) (currentPath : string) (result r : Obj) (el : JVal)
    (k : string) (i : nat) :
  processChild this pe n parentDef currentPath result el = Some r ->
  key_index k result = Some i -> key_index k r = Some i.
Proof.
  intros H Hk. apply processChild_key in H as [-> | (d & name & c & _ & _ & ->)];
    [done | by apply key_index_set_old].
Qed.

Lemma children_keep (pe : JVal -> string -> option JVal) (n : nat)
    (parentDef : JVal) (currentPath : string) (els : list JVal) :
  forall (result r : Obj) (k : string) (i : nat),
    foldM (processChild this pe n parentDef currentPath) els result = Some r ->
    key_index k result = Some i -> key_index k r = Some i.
Proof.
  induction els as [|el els IH]; intros result r k i; cbn [foldM];
    [by intros [= <-]|].
  destruct (processChild _ _ _ _ _ _ _) as [r1|] eqn:E; [|done].
  intros H Hk. eapply IH; [done|]. by eapply processChild_keeps.
Qed.

(** X18: the children of a group are emitted in the order of their
    declarations, not of the configuration: a key that a child adds comes
    after every key that was there before it, and later children do not
    change that. *)
Theorem children_in_declaration_order (pe : JVal -> string -> option JVal) (n : nat)
    (parentDef : JVal) (currentPath : string) (after : list JVal)
    (el : JVal) (r1 r2 r : Obj) (k k' : string) :
  processChild this pe n parentDef currentPath r1 el = Some r2 ->
  foldM (processChild this pe n parentDef currentPath) after r2 = Some r ->
  k ∈ map fst r1 -> k' ∉ map fst r1 -> k' ∈ map fst r2 ->
  exists i j, key_index k r = Some i /\ key_index k' r = Some j /\ i < j.
Proof.
  intros H2 H3 Hk Hk' Hk2.
  destruct (key_index k r1) as [i|] eqn:Hi; [|by apply key_index_None in Hi].
  destruct (key_index k' r2) as [j|] eqn:Hj; [|by apply key_index_None in Hj].
  exists i, j. split; [|split].
  - eapply children_keep; [done|]. by eapply processChild_keeps.
  - by eapply children_keep.
  - apply key_index_lt in Hi.
    apply processChild_key in H2 as [-> | (d & name & c & _ & _ & ->)]; [done|].
    apply key_index_None in Hk'.
    destruct (decide (k' = qualify (getPrefix this (namespaceOf d)) name)) as [->|Hne].
    + rewrite key_index_set_new in Hj by done. injection Hj as <-. lia.
    + rewrite key_index_set_other in Hj; done.
Qed.

End Order.

(** The configuration names [Other] first and [Child] last; [Child] is
    emitted before [Items], and [Other] after both. *)
Lemma children_in_declaration_order_witness :
  exists i j,
    key_index "t:Child"
      [("t:Child", JStr "x"); ("t:Items", JArr [JNum 1]); ("t:Other", JStr "y")]
    = Some i
    /\ key_index "t:Items"
         [("t:Child", JStr "x"); ("t:Items", JArr [JNum 1]); ("t:Other", JStr "y")]
       = Some j
    /\ i < j.
Proof.
  apply (children_in_declaration_order (Examples.genT Cases.configAll)
           (processElement (Examples.genT Cases.configAll) 5) 6
           Examples.rootTypeT "Root" [Cases.otherEl] Examples.itemsEl
           [("t:Child", JStr "x")]
           [("t:Child", JStr "x"); ("t:Items", JArr [JNum 1])]).
  - vm_compute. reflexivity.
  - vm_compute. reflexivity.
  - vm_compute. set_solver.
  - vm_compute. set_solver.
  - vm_compute. set_solver.
Defined.

(** ** What a group emits *)

Section Filled.

Variable this : XMLGenerator.t.

Lemma filled_nil : filled [].
Proof. split; [apply NoDup_nil_2 | done]. Qed.

Lemma obj_set_filled (k : string) (v : JVal) (o : Obj) :
  v <> JNull -> filled o -> filled (obj_set k v o).
Proof.
  intros Hv [Hnd Hall]. split; [by apply obj_set_nodup|].
  by apply obj_set_Forall.
Qed.

Lemma obj_assign_filled (target src : Obj) :
  filled target -> filled src -> filled (obj_assign target src).
Proof.
  intros [Hnd Hall] [_ Hsrc]. split; [by apply obj_assign_nodup|].
  by apply obj_assign_Forall.
Qed.

Lemma processChild_filled (pe : JVal -> string -> option JVal) (n : nat)
    (parentDef : JVal) (currentPath : string) (result r : Obj) (el : JVal) :
  processChild this pe n parentDef currentPath result el = Some r ->
  filled result -> filled r.
Proof.
  unfold processChild. intros H Hres.
  destruct (resolveChild this parentDef el) as [[d name]|]; [|by injection H as <-].
  destruct (isArray el).
  - destruct (scanItems _ _ _ _ _ _ _ _) as [items|]; [|done].
    injection H as <-. destruct (0 <? length items)%nat; [|done].
    by apply obj_set_filled.
  - destruct (pe d _) as [c|]; [|done]. injection H as <-.
    destruct c; cbn [is_null negb]; try done; by apply obj_set_filled.
Qed.

(** X24: a group emits no [null]: every key of what [processGroup]
    returns has a value other than [null], and no key occurs twice.  A
    child without content is left out, not written as [null]. *)
Theorem processGroup_filled (fuel : nat) (parentDef : JVal) (currentPath : string)
    (r : Obj) :
  processGroup this fuel parentDef currentPath = Some r -> filled r.
Proof.
  revert parentDef currentPath r.
  induction fuel as [|fuel IH]; intros parentDef currentPath r; [done|].
  cbn [processGroup].
  destruct (groupKeyOf parentDef) as [groupKey|];
    [|intros [= <-]; apply filled_nil].
  destruct (foldM (processChild _ _ _ _ _) _ _) as [r1|] eqn:E1; [|done].
  destruct (foldM (nestedGroup _ "choice" _ _) _ _) as [r2|] eqn:E2; [|done].
  destruct (foldM (nestedGroup _ "sequence" _ _) _ _) as [r3|] eqn:E3; [|done].
  intros E4.
  assert (forall tag x b y,
            nestedGroup (processGroup this fuel) tag parentDef currentPath x b
            = Some y -> filled x -> filled y) as Hnested.
  { intros tag x b y. unfold nestedGroup.
    destruct (processGroup this fuel _ _) as [sub|] eqn:Es; [|done].
    intros [= <-] Hx. apply obj_assign_filled; [done | by eapply IH]. }
  apply (foldM_invariant filled _ _ _ _) in E1;
    [| intros x b y _; apply processChild_filled | apply filled_nil].
  apply (foldM_invariant filled _ _ _ _) in E2;
    [| intros x b y _; apply Hnested | done].
  apply (foldM_invariant filled _ _ _ _) in E3;
    [| intros x b y _; apply Hnested | done].
  apply (foldM_invariant filled _ _ _ _) in E4; [done | | done].
  intros x b y _. unfold namedGroup. destruct (truthy _); [|by intros [= <-]].
  destruct (processGroup this fuel _ _) as [sub|] eqn:Es; [|done].
  intros [= <-] Hx. apply obj_assign_filled; [done | by eapply IH].
Qed.

End Filled.

(** Of the children of [Root] only [Child] is configured; the group emits
    [Child] alone. *)
Lemma processGroup_filled_witness : filled [("t:Child", JNum 0)].
Proof.
  apply (processGroup_filled (Examples.genT Examples.configZeroChild) 6
           Examples.rootTypeT "Root").
  vm_compute. reflexivity.
Defined.

End XMLGeneratorMore.

(** * Facts about the caller's code *)

Module OrchestratorFacts.

Import SchemaContext XMLGenerator Orchestrator Props JSFacts SchemaContextFacts.

(** ** Completing the namespace map *)

Lemma str_get_set_eq (k v : string) (m : StrMap) : str_get k (str_set k v m) = Some v.
Proof.
  induction m as [|[k' v'] m IH]; cbn [str_set str_get].
  - by rewrite String.eqb_refl.
  - destruct (String.eqb k k') eqn:E; cbn [str_get]; [by rewrite String.eqb_refl|].
    by rewrite E.
Qed.

Lemma str_get_set_ne (k k' v : string) (m : StrMap) :
  k <> k' -> str_get k' (str_set k v m) = str_get k' m.
Proof.
  intros Hne. induction m as [|[k0 v0] m IH]; cbn [str_set str_get].
  - apply String.eqb_neq in Hne. rewrite String.eqb_sym in Hne. by rewrite Hne.
  - destruct (String.eqb k k0) eqn:E; cbn [str_get].
    + apply String.eqb_eq in E as <-.
      assert (String.eqb k' k = false) as -> by (apply String.eqb_neq; congruence).
      done.
    + destruct (String.eqb k' k0); [done | exact IH].
Qed.

Lemma mergeNamespaces_cons (base : StrMap) (prefix : string) (uri : JVal) (ex : Obj) :
  mergeNamespaces base ((prefix, uri) :: ex)
  = mergeNamespaces
      (if negb (truthyS (str_get (key_of (uriOf uri)) base))
       then str_set (key_of (uriOf uri)) prefix base else base)
      ex.
Proof. reflexivity. Qed.

Lemma mergeNamespaces_keeps (ex : Obj) (base : StrMap) (u : string) :
  truthyS (str_get u base) = true ->
  str_get u (mergeNamespaces base ex) = str_get u base.
Proof.
  revert base. induction ex as [|[prefix uri] ex IH]; intros base Hu; [done|].
  rewrite mergeNamespaces_cons.
  destruct (truthyS (str_get (key_of (uriOf uri)) base)) eqn:E; cbn [negb];
    [by apply IH|].
  assert (key_of (uriOf uri) <> u) as Hne
    by (intros Heq; rewrite Heq in E; congruence).
  rewrite IH; rewrite str_get_set_ne; done.
Qed.

(** X19: in the namespace map the first prefix of a URI wins: once a URI
    has a prefix, from the base map or from an earlier extracted binding,
    no later binding replaces it. *)
Theorem mergeNamespaces_first_wins (base : StrMap) (before after : Obj) (u : string) :
  truthyS (str_get u (mergeNamespaces base before)) = true ->
  str_get u (mergeNamespaces base (before ++ after))
  = str_get u (mergeNamespaces base before).
Proof.
  intros H. unfold mergeNamespaces at 1. rewrite fold_left_app.
  by apply mergeNamespaces_keeps.
Qed.

(** [urn:first] is bound to [p] and later to [q]; the map keeps [p]. *)
Lemma mergeNamespaces_first_wins_witness :
  str_get "urn:first" (mergeNamespaces BASE_NS_MAP (Cases.nsFirst ++ Cases.nsLater))
  = str_get "urn:first" (mergeNamespaces BASE_NS_MAP Cases.nsFirst).
Proof.
  apply (mergeNamespaces_first_wins BASE_NS_MAP Cases.nsFirst Cases.nsLater "urn:first").
  reflexivity.
Defined.

Lemma mergeNamespaces_binds (ex : Obj) (base : StrMap) (prefix u : string) :
  (prefix, JStr u) ∈ ex -> prefix <> "" ->
  truthyS (str_get u (mergeNamespaces base ex)) = true.
Proof.
  intros Hin Hp. revert base. induction ex as [|[p0 v0] ex IH]; intros base;
    [by apply elem_of_nil in Hin|].
  rewrite mergeNamespaces_cons.
  apply elem_of_cons in Hin as [[= <- <-]|Hin]; [|by apply IH].
  cbn [uriOf key_of].
  destruct (truthyS (str_get u base)) eqn:E; cbn [negb].
  - by rewrite mergeNamespaces_keeps.
  - rewrite mergeNamespaces_keeps; rewrite str_get_set_eq; cbn [truthyS];
      apply negb_true_iff; by apply String.eqb_neq.
Qed.

(** X20: every namespace that the schemas declare with a prefix has a
    prefix in the generator that is built on the completed map:
    [getPrefix] answers with a non-empty prefix for it. *)
Theorem merged_namespace_has_prefix (g : SchemaContext.t) (config : Obj)
    (substitutions base : StrMap) (ex : Obj) (prefix u : string) :
  (prefix, JStr u) ∈ ex -> prefix <> "" -> u <> "" ->
  exists q,
    q <> ""
    /\ getPrefix (XMLGenerator.mk g config (mergeNamespaces base ex) substitutions)
         (Some u) = Some q.
Proof.
  intros Hin Hp Hu. pose proof (mergeNamespaces_binds ex base prefix u Hin Hp) as H.
  unfold getPrefix. cbn [nsMap truthyS key_of].
  apply String.eqb_neq in Hu. rewrite Hu. cbn [negb]. rewrite H.
  destruct (str_get u (mergeNamespaces base ex)) as [q|]; [|done].
  exists q. split; [|done]. intros ->. done.
Qed.

Lemma merged_namespace_has_prefix_witness :
  exists q,
    q <> ""
    /\ getPrefix
         (XMLGenerator.mk Examples.ctxAB []
            (mergeNamespaces BASE_NS_MAP (getNamespaces Examples.ctxAB)) [])
         (Some "urn:second") = Some q.
Proof.
  apply (merged_namespace_has_prefix Examples.ctxAB [] [] BASE_NS_MAP
           (getNamespaces Examples.ctxAB) "p" "urn:second").
  - vm_compute. set_solver.
  - discriminate.
  - discriminate.
Defined.

(** ** Declaring the namespaces on an element *)

Lemma injectNamespaces_cons (prefix : string) (uri : JVal) (ns target : Obj) :
  injectNamespaces ((prefix, uri) :: ns) target
  = injectNamespaces ns (obj_set ("@_xmlns:" +:+ prefix) uri target).
Proof. reflexivity. Qed.

Lemma injectNamespaces_other (k : string) (ns target : Obj) :
  (forall p, p ∈ map fst ns -> k <> "@_xmlns:" +:+ p) ->
  obj_get k (injectNamespaces ns target) = obj_get k target.
Proof.
  revert target. induction ns as [|[p0 v0] ns IH]; intros target H; [done|].
  rewrite injectNamespaces_cons, IH.
  - apply obj_get_set_ne. intros Heq. apply (H p0); [left | done].
  - intros p Hp. apply H. by right.
Qed.

Lemma injectNamespaces_get (p : string) (v : JVal) (ns target : Obj) :
  NoDup (map fst ns) -> obj_get p ns = Some v ->
  obj_get ("@_xmlns:" +:+ p) (injectNamespaces ns target) = Some v.
Proof.
  revert target. induction ns as [|[p0 v0] ns IH]; intros target Hnd; [done|].
  cbn [map fst] in Hnd. apply NoDup_cons in Hnd as [Hp0 Hnd].
  cbn [obj_get]. rewrite injectNamespaces_cons.
  destruct (String.eqb p p0) eqn:E.
  - apply String.eqb_eq in E as ->. intros [= ->].
    rewrite injectNamespaces_other; [apply obj_get_set_eq|].
    intros p Hp ?%app_inj_l. congruence.
  - by apply IH.
Qed.

Lemma collectRoot_nodup (schemaRoot : JVal) (ks : list string) (ns : Obj) :
  NoDup (map fst ns) -> NoDup (map fst (collectRoot schemaRoot ks ns)).
Proof.
  revert ns. induction ks as [|k ks IH]; intros ns H; [done|].
  rewrite collectRoot_cons. apply IH. destruct (startsWith _ _); [|done].
  by apply obj_set_nodup.
Qed.

Lemma getNamespaces_nodup (ctx : SchemaContext.t) :
  NoDup (map fst (getNamespaces ctx)).
Proof.
  unfold getNamespaces. generalize (values (JObj (schemas ctx))).
  assert (NoDup (map fst ([] : Obj))) as H by apply NoDup_nil_2.
  revert H. generalize ([] : Obj).
  intros ns H roots. revert ns H.
  induction roots as [|r roots IH]; intros ns H; [done|].
  cbn [fold_left]. apply IH. destruct (negb _); [done|].
  by apply collectRoot_nodup.
Qed.

(** X21: the namespaces that are extracted from the schemas and declared
    on an element can be read back from it: a prefix that [getNamespaces]
    binds to a URI is the [xmlns] attribute of that prefix, with that URI,
    on the element. *)
Theorem injectNamespaces_round_trip (ctx : SchemaContext.t) (target : Obj)
    (p : string) (v : JVal) :
  obj_get p (getNamespaces ctx) = Some v ->
  obj_get ("@_xmlns:" +:+ p) (injectNamespaces (getNamespaces ctx) target) = Some v.
Proof. apply injectNamespaces_get, getNamespaces_nodup. Qed.

Lemma injectNamespaces_round_trip_witness :
  obj_get ("@_xmlns:" +:+ "p")
    (injectNamespaces (getNamespaces Examples.ctxAB) [("m:sender", JNull)])
  = Some (JStr "urn:second").
Proof.
  apply (injectNamespaces_round_trip Examples.ctxAB [("m:sender", JNull)] "p"
           (JStr "urn:second")).
  vm_compute. reflexivity.
Defined.

(** ** Reordering the fields of an element *)

Lemma filter_all {A : Type} (P : A -> Prop) `{!forall x, Decision (P x)}
    (l : list A) :
  (forall x, P x) -> filter P l = l.
Proof.
  intros HP. induction l as [|x l IH]; [done|].
  rewrite filter_cons, decide_True by done. by f_equal.
Qed.

Lemma reorderStep_reordered (udi : Obj) (done : list string) (state : Obj * Obj)
    (prop : string) :
  reordered udi done state ->
  reordered udi (done ++ [prop]) (reorderStep state prop).
Proof.
  destruct state as [moved rest]. intros (Hrest & Hin & Hnd & ps & Hsub & Htag).
  assert (reordered udi (done ++ [prop]) (moved, rest)) as Hsame.
  { repeat split; try done. exists ps. split; [|done].
    by apply sublist_inserts_r. }
  unfold reorderStep.
  destruct (find (tagged prop) (keys (JObj rest))) as [propKey|] eqn:Hfind; [|done].
  destruct (truthyS (Some propKey)); [|done].
  apply find_some in Hfind as [Hk Htagged]. apply list_elem_of_In in Hk.
  cbn [keys] in Hk.
  assert (propKey ∉ map fst moved) as Hfresh.
  { rewrite Hrest in Hk. by apply keys_filter in Hk as (v & _ & ?). }
  assert ((propKey, JS.prop (JObj rest) propKey) ∈ udi) as Hentry.
  { apply obj_get_Some_keys in Hk as [v Hv]. unfold JS.prop. rewrite Hv. cbn [default].
    apply obj_get_elem_of in Hv. rewrite Hrest in Hv.
    by apply list_elem_of_filter in Hv as [_ ?]. }
  rewrite obj_set_fresh by done.
  split; [|split; [|split]].
  - unfold obj_delete. rewrite Hrest.
    etrans; [apply (list_filter_filter _ _ udi)|].
    apply list_filter_iff. intros [k v]. cbn [fst]. rewrite map_app. cbn [map fst].
    rewrite elem_of_app, list_elem_of_singleton. tauto.
  - apply Forall_app. split; [done|]. by apply Forall_singleton.
  - rewrite map_app. cbn [map fst]. apply NoDup_app. split; [done|].
    split; [|apply NoDup_singleton].
    intros k Hk' ->%list_elem_of_singleton. done.
  - exists (ps ++ [prop])%list. split.
    + by apply sublist_app.
    + apply Forall2_app; [done|]. by apply Forall2_cons.
Qed.

Lemma reorderLoop_reordered (udi : Obj) (order done : list string) (state : Obj * Obj) :
  reordered udi done state ->
  reordered udi (done ++ order) (fold_left reorderStep order state).
Proof.
  revert done state. induction order as [|prop order IH]; intros done state H.
  - by rewrite app_nil_r.
  - cbn [fold_left]. replace (done ++ prop :: order)%list
      with ((done ++ [prop]) ++ order)%list by by rewrite <- app_assoc.
    by apply IH, reorderStep_reordered.
Qed.

Lemma reordered_start (udi : Obj) : reordered udi [] ([], udi).
Proof.
  repeat split.
  - symmetry. apply filter_all. intros kv. apply not_elem_of_nil.
  - done.
  - apply NoDup_nil_2.
  - exists []. by split; [|constructor].
Qed.

Section Reorder.

Variable udi : Obj.
Hypothesis udi_keys : NoDup (map fst udi).

Lemma reorderFields_split (correctOrder : list string) :
  exists moved rest,
    reordered udi correctOrder (moved, rest)
    /\ reorderFields correctOrder udi = (moved ++ rest)%list.
Proof.
  unfold reorderFields.
  pose proof (reorderLoop_reordered udi correctOrder [] _ (reordered_start udi)) as H.
  cbn [app] in H.
  destruct (fold_left reorderStep correctOrder ([], udi)) as [moved rest].
  exists moved, rest. split; [done|].
  destruct H as (Hrest & Hin & Hnd & _).
  apply obj_assign_disjoint. rewrite map_app. apply NoDup_app.
  split; [done|]. split.
  - intros k Hk Hk'. rewrite Hrest in Hk'.
    by apply keys_filter in Hk' as (v & _ & ?).
  - rewrite Hrest. apply NoDup_fmap_fst.
    + intros k v v' [_ H1]%list_elem_of_filter [_ H2]%list_elem_of_filter.
      exact (NoDup_key_value udi k v v' udi_keys H1 H2).
    + apply NoDup_filter. by apply NoDup_entries.
Qed.

(** X22: the sequence-ordering fix loses nothing and adds nothing: the
    reordered object has exactly the entries of the object it was made
    from, each key with its value. *)
Theorem reorderFields_permutation (correctOrder : list string) :
  reorderFields correctOrder udi ≡ₚ udi.
Proof.
  destruct (reorderFields_split correctOrder)
    as (moved & rest & (Hrest & Hin & Hnd & _) & ->).
  etrans; [|apply (filter_app_complement (fun kv => kv.1 ∈ map fst moved) udi)].
  rewrite Hrest. apply Permutation_app; [|done].
  apply NoDup_Permutation.
  - by apply NoDup_entries.
  - apply NoDup_filter. by apply NoDup_entries.
  - intros [k v]. rewrite list_elem_of_filter. cbn [fst]. split.
    + intros H. split; [|by eapply Forall_forall in Hin].
      apply list_elem_of_fmap. by exists (k, v).
    + intros [((k' & v') & Hk & Hm)%list_elem_of_fmap Hu]. cbn [fst] in Hk. subst k'.
      assert ((k, v') ∈ udi) as Hu' by (by eapply Forall_forall in Hin).
      by rewrite (NoDup_key_value udi k v v' udi_keys Hu Hu').
Qed.

End Reorder.

Lemma reorderFields_permutation_witness :
  reorderFields (correctOrderFor "device:MDRUDIDIData") Cases.udiSample
  ≡ₚ Cases.udiSample.
Proof.
  apply (reorderFields_permutation Cases.udiSample).
  apply (bool_decide_unpack _). vm_compute. reflexivity.
Defined.

(** *** The sequence order without the loop *)

Lemma find_keys_filter (P : string -> bool) (ks : list string) (o : Obj) :
  (forall k, k ∈ map fst o -> P k = true -> k ∉ ks) ->
  find P (map fst (filter (fun kv => kv.1 ∉ ks) o)) = find P (map fst o).
Proof.
  induction o as [|[k v] o IH]; intros H; [done|].
  rewrite (filter_cons (fun kv : string * JVal => kv.1 ∉ ks) (k, v) o).
  cbn [fst map find].
  assert (find P (map fst (filter (fun kv => kv.1 ∉ ks) o)) = find P (map fst o))
    as IH' by (apply IH; intros k' Hk'; apply H; by right).
  destruct (decide (k ∉ ks)) as [Hk|Hk]; cbn [map fst find].
  - destruct (P k); [done | exact IH'].
  - destruct (P k) eqn:E; [|done]. destruct Hk. apply H; [left | done].
Qed.

Lemma obj_get_filter (k : string) (ks : list string) (o : Obj) :
  k ∉ ks -> obj_get k (filter (fun kv => kv.1 ∉ ks) o) = obj_get k o.
Proof.
  intros Hk. induction o as [|[k0 v0] o IH]; [done|].
  rewrite (filter_cons (fun kv : string * JVal => kv.1 ∉ ks) (k0, v0) o).
  cbn [fst obj_get].
  destruct (decide (k0 ∉ ks)) as [H0|H0]; cbn [obj_get].
  - destruct (String.eqb k k0); [done | exact IH].
  - assert (String.eqb k k0 = false) as ->; [|done].
    apply String.eqb_neq. intros ->. done.
Qed.

Lemma firstTagged_Some (udi : Obj) (p k : string) (v : JVal) :
  firstTagged udi p = Some (k, v) -> tagged p k = true /\ k ∈ map fst udi.
Proof.
  unfold firstTagged.
  destruct (find (tagged p) (keys (JObj udi))) as [propKey|] eqn:E; [|done].
  destruct (truthyS (Some propKey)); [|done]. intros [= <- _].
  apply find_some in E as [Hin Ht]. by apply list_elem_of_In in Hin.
Qed.

(** A key that one name of the list carries is carried by no later name. *)
Lemma unambiguous_apart (done todo : list string) (p p' k : string) (udi : Obj) :
  unambiguous (done ++ p :: todo) udi = true ->
  k ∈ map fst udi -> p' ∈ done -> tagged p' k = true -> tagged p k = false.
Proof.
  intros Hu Hk Hp' Ht'. destruct (tagged p k) eqn:Ht; [|done]. exfalso.
  unfold unambiguous in Hu.
  assert (In k (keys (JObj udi))) as HIn by (by apply list_elem_of_In).
  pose proof (proj1 (forallb_forall _ _) Hu k HIn) as Hlen. cbv beta in Hlen.
  apply Nat.leb_le in Hlen. rewrite List.filter_app in Hlen.
  rewrite length_app in Hlen. cbn [List.filter] in Hlen. rewrite Ht in Hlen.
  cbn [length] in Hlen.
  assert (In p' (List.filter (fun q => tagged q k) done)) as Hin.
  { apply List.filter_In. split; [by apply list_elem_of_In | done]. }
  destruct (List.filter (fun q => tagged q k) done); [done|].
  cbn [length] in Hlen. lia.
Qed.

Lemma reorderStep_inSequence (udi : Obj) (done todo : list string) (p : string) :
  unambiguous (done ++ p :: todo) udi = true ->
  reorderStep
    (omap (firstTagged udi) done,
     filter (fun kv => kv.1 ∉ map fst (omap (firstTagged udi) done)) udi) p
  = (omap (firstTagged udi) (done ++ [p]),
     filter (fun kv => kv.1 ∉ map fst (omap (firstTagged udi) (done ++ [p]))) udi).
Proof.
  intros Hu. set (n := omap (firstTagged udi) done).
  assert (forall k, k ∈ map fst udi -> tagged p k = true -> k ∉ map fst n) as Hfree.
  { intros k Hk Ht Hn.
    apply list_elem_of_fmap in Hn as ([k' v] & -> & Hin).
    apply list_elem_of_omap in Hin as (p' & Hp' & Hf).
    apply firstTagged_Some in Hf as [Ht' _]. cbn [fst] in *.
    by rewrite (unambiguous_apart done todo p p' k' udi) in Ht. }
  rewrite omap_app. fold n. unfold reorderStep. cbn [keys omap list_omap].
  rewrite find_keys_filter by done.
  destruct (find (tagged p) (map fst udi)) as [propKey|] eqn:E.
  - destruct (truthyS (Some propKey)) eqn:Hk.
    + assert (firstTagged udi p = Some (propKey, JS.prop (JObj udi) propKey)) as ->.
      { unfold firstTagged. cbn [keys]. by rewrite E, Hk. }
      apply find_some in E as [Hin Ht]. apply list_elem_of_In in Hin.
      pose proof (Hfree _ Hin Ht) as Hfresh.
      assert (JS.prop (JObj (filter (fun kv => kv.1 ∉ map fst n) udi)) propKey
              = JS.prop (JObj udi) propKey) as ->.
      { unfold JS.prop. by rewrite obj_get_filter. }
      rewrite obj_set_fresh by done. f_equal.
      unfold obj_delete. etrans; [apply (list_filter_filter _ _ udi)|].
      apply list_filter_iff. intros [k v]. cbn [fst]. rewrite map_app. cbn [map fst].
      rewrite elem_of_app, list_elem_of_singleton. tauto.
    + assert (firstTagged udi p = None) as ->.
      { unfold firstTagged. cbn [keys]. by rewrite E, Hk. }
      by rewrite app_nil_r.
  - assert (firstTagged udi p = None) as ->.
    { unfold firstTagged. cbn [keys]. by rewrite E. }
    by rewrite app_nil_r.
Qed.

Lemma reorderLoop_inSequence (udi : Obj) (todo done : list string) :
  unambiguous (done ++ todo) udi = true ->
  fold_left reorderStep todo
    (omap (firstTagged udi) done,
     filter (fun kv => kv.1 ∉ map fst (omap (firstTagged udi) done)) udi)
  = (omap (firstTagged udi) (done ++ todo),
     filter (fun kv => kv.1 ∉ map fst (omap (firstTagged udi) (done ++ todo))) udi).
Proof.
  revert done. induction todo as [|p todo IH]; intros done Hu.
  - by rewrite app_nil_r.
  - cbn [fold_left]. rewrite (reorderStep_inSequence udi done todo p Hu).
    replace (done ++ p :: todo)%list with ((done ++ [p]) ++ todo)%list in *
      by (by rewrite <- app_assoc).
    by apply IH.
Qed.

Lemma reordered_assign (udi : Obj) (done : list string) (moved rest : Obj) :
  NoDup (map fst udi) -> reordered udi done (moved, rest) ->
  obj_assign moved rest = (moved ++ rest)%list.
Proof.
  intros Hudi (Hrest & Hin & Hnd & _).
  apply obj_assign_disjoint. rewrite map_app. apply NoDup_app.
  split; [done|]. split.
  - intros k Hk Hk'. rewrite Hrest in Hk'.
    by apply keys_filter in Hk' as (v & _ & ?).
  - rewrite Hrest. apply NoDup_fmap_fst.
    + intros k v v' [_ H1]%list_elem_of_filter [_ H2]%list_elem_of_filter.
      exact (NoDup_key_value udi k v v' Hudi H1 H2).
    + apply NoDup_filter. by apply NoDup_entries.
Qed.

(** X23: the reordered object is the object in sequence order: for each
    name of the order list, in the order of the list, the first entry
    whose key is the name or ends in a colon and the name, and after these
    every other entry in the order it had.  This needs the keys of the
    object to be distinct and no key to be named by two entries of the
    list. *)
Theorem reorderFields_listed_first (correctOrder : list string) (udi : Obj) :
  NoDup (map fst udi) ->
  unambiguous correctOrder udi = true ->
  reorderFields correctOrder udi = inSequence correctOrder udi.
Proof.
  intros Hudi Hu. unfold reorderFields, inSequence.
  pose proof (reorderLoop_reordered udi correctOrder [] _ (reordered_start udi)) as Hr.
  pose proof (reorderLoop_inSequence udi correctOrder [] Hu) as Hloop.
  cbn [app omap list_omap map] in Hloop, Hr.
  rewrite (filter_all _ udi) in Hloop by (intros kv; apply not_elem_of_nil).
  rewrite Hloop in Hr |- *.
  by apply (reordered_assign udi correctOrder).
Qed.

(** [identifier] and [status] come first, in the order of the list;
    [numberOfReuses] follows; the [xsi:type] attribute, which the list does
    not name, is last. *)
Lemma reorderFields_listed_first_witness :
  reorderFields (correctOrderFor "device:MDRUDIDIData") Cases.udiSample
  = inSequence (correctOrderFor "device:MDRUDIDIData") Cases.udiSample.
Proof.
  apply (reorderFields_listed_first (correctOrderFor "device:MDRUDIDIData")
           Cases.udiSample).
  - apply (bool_decide_unpack _). vm_compute. reflexivity.
  - vm_compute. reflexivity.
Defined.

Example reorderFields_sample :
  map fst (reorderFields (correctOrderFor "device:MDRUDIDIData") Cases.udiSample)
  = ["device:identifier"; "device:status"; "device:numberOfReuses"; "@_xsi:type"].
Proof. vm_compute. reflexivity. Qed.

End OrchestratorFacts.
